(** * Image steganography core: LSB and gradient-adaptive embedding,
      attack simulator and metrics.

    Shallow embedding of [core/lsb.py], [core/sobel_adaptive.py],
    [core/attack_simulator.py] and [utils/metrics.py].

    - A Python [str] is the list of its code points ([ord] and [chr] are
      the identity on [N]).
    - The string [binary_data] of ['0']/['1'] characters is a [list ascii].
    - A numpy array is a shape together with its samples in C (row-major,
      channel-minor) order; arrays live in a heap indexed by locations, so
      that [copy()] and in-place writes keep their aliasing behaviour.
    - Python exceptions are an explicit [Raise] outcome that carries the
      heap reached when the exception was thrown. *)

From Stdlib Require Import ZArith NArith List Ascii QArith Lia Bool.
From stdpp Require Import base list gmap strings.
From Equations Require Import Equations.

Open Scope char_scope.
Open Scope nat_scope.

(** ** Python strings of binary digits *)

Abbreviation pystr := (list N) (only parsing).
Abbreviation bitstr := (list ascii) (only parsing).

#[local] Instance ascii_inhabited : Inhabited ascii := populate "0".

(** [format(p, 'b')] for a positive number: most significant digit first. *)
Fixpoint pos_bin (p : positive) (acc : bitstr) : bitstr :=
  match p with
  | xH => "1" :: acc
  | xO p' => pos_bin p' ("0" :: acc)
  | xI p' => pos_bin p' ("1" :: acc)
  end.

(** [format(n, 'b')]. *)
Definition bin (n : N) : bitstr :=
  match n with
  | N0 => ["0"]
  | Npos p => pos_bin p []
  end.

(** [format(n, '08b')]: binary, padded on the left with ['0'] up to a
    MINIMUM width of 8; longer representations are kept whole. *)
Definition format_08b (n : N) : bitstr :=
  let s := bin n in repeat "0" (8 - length s) ++ s.

(** [int(c)] for a single digit character of [binary_data].  Only ['0'] and
    ['1'] ever occur there (the string is built by [format_08b] and by
    [str(x & 1)]); any other character, on which Python would raise, is
    read as 0. *)
Definition int_of_digit (c : ascii) : Z :=
  if Ascii.eqb c "1" then 1%Z else 0%Z.

(** [str(x & 1)]. *)
Definition str_lsb (x : Z) : ascii :=
  if Z.eqb (Z.land x 1) 1 then "1" else "0".

(** [int(byte, 2)], most significant digit first. *)
Definition int_base2 (byte : bitstr) : N :=
  fold_left (fun acc c => (2 * acc + (if Ascii.eqb c "1" then 1 else 0))%N) byte 0%N.

Definition terminator : bitstr := repeat "0" 8.

(** [''.join(format(ord(char), '08b') for char in secret_data) + '00000000'] *)
Definition encode (secret_data : pystr) : bitstr :=
  flat_map format_08b secret_data ++ terminator.

(** [range(0, stop, step)] *)
Definition range_step (stop step : nat) : list nat :=
  map (fun t => t * step) (seq 0 ((stop + step - 1) / step)).

(** The decoding loop shared by both engines:
<<
    secret_data = ""
    for b in range(0, len(binary_data), 8):
        byte = binary_data[b:b+8]
        if len(byte) == 8:
            secret_data += chr(int(byte, 2))
>> *)
Definition decode (binary_data : bitstr) : pystr :=
  flat_map
    (fun b => let byte := take 8 (drop b binary_data) in
              if length byte =? 8 then [int_base2 byte] else [])
    (range_step (length binary_data) 8).

(** [binary_data[-8:]] and [binary_data[:-8]] *)
Definition last8 (binary_data : bitstr) : bitstr :=
  drop (length binary_data - 8) binary_data.
Definition drop_last8 (binary_data : bitstr) : bitstr :=
  take (length binary_data - 8) binary_data.

Definition bitstr_eqb (a b : bitstr) : bool :=
  bool_decide (a = b).

(** ** Arrays, heap and exceptions *)

(** The two image shapes of the data model: [(H, W)] and [(H, W, 3)]. *)
Inductive shape :=
| Gray (height width : nat)
| Color (height width : nat).

#[global] Instance shape_eq_dec : EqDecision shape.
Proof. solve_decision. Defined.

Definition height (s : shape) : nat :=
  match s with Gray h _ | Color h _ => h end.
Definition width (s : shape) : nat :=
  match s with Gray _ w | Color _ w => w end.
(** [len(image.shape)] *)
Definition ndim (s : shape) : nat :=
  match s with Gray _ _ => 2 | Color _ _ => 3 end.
(** [image.size], also [len(image.flatten())] *)
Definition numel (s : shape) : nat :=
  match s with Gray h w => h * w | Color h w => h * w * 3 end.

(** Samples per pixel. *)
Definition channels (s : shape) : nat :=
  match s with Gray _ _ => 1 | Color _ _ => 3 end.

(** A [uint8] array: its shape and its samples in C order, so that
    [a[i, j]] is sample [i * W + j] of a grayscale array and [a[i, j, k]]
    is sample [(i * W + j) * 3 + k] of a color one. *)
Record ndarray := mk_ndarray { shape_of : shape; samples : list Z }.

Definition wf_ndarray (a : ndarray) : Prop :=
  length (samples a) = numel (shape_of a) ∧
  Forall (fun x => (0 ≤ x < 256)%Z) (samples a).

(** Offsets of [a[i, j]] and [a[i, j, k]]. *)
Definition offset2 (s : shape) (i j : nat) : nat := i * width s + j.
Definition offset3 (s : shape) (i j k : nat) : nat := (i * width s + j) * 3 + k.

(** The exceptions of the core.  The source raises [ValueError] with a
    distinct message at each site; the constructors name the sites after
    the error kinds they stand for.  [Cv2Error] is an OpenCV failure
    ([cv2.error]).  [UnboundReference] is not a Python exception: it is the
    model's answer to a location that is not in the heap, which no Python
    reference can be. *)
Inductive error :=
| CapacityError
| InvalidParameterError
| ShapeMismatchError
| LengthMismatchError
| UnsupportedAttackError
| Cv2Error
| ZeroDivisionError
| UnboundReference.

Inductive outcome (A : Type) :=
| Ok (a : A)
| Raise (e : error).
Arguments Ok {A} a.
Arguments Raise {A} e.

Abbreviation loc := nat (only parsing).
Abbreviation heap := (gmap nat ndarray) (only parsing).

(** Computations that read and write the heap and may raise. *)
Definition M (A : Type) : Type := heap → outcome A * heap.

Definition ret {A} (a : A) : M A := fun h => (Ok a, h).
Definition raise {A} (e : error) : M A := fun h => (Raise e, h).
Definition bind {A B} (m : M A) (k : A → M B) : M B :=
  fun h => match m h with
           | (Ok a, h') => k a h'
           | (Raise e, h') => (Raise e, h')
           end.

#[global] Instance M_ret : MRet M := @ret.
#[global] Instance M_bind : MBind M := fun A B k m => bind m k.

(** Dereference an array reference. *)
Definition load (l : loc) : M ndarray :=
  fun h => match h !! l with
           | Some a => (Ok a, h)
           | None => (Raise UnboundReference, h)
           end.
(** A new array object. *)
Definition alloc (a : ndarray) : M loc :=
  fun h => let l := fresh (dom h) in (Ok l, <[l := a]> h).
(** In-place update of the samples of the array at [l]. *)
Definition update (l : loc) (f : list Z → list Z) : M unit :=
  fun h => match h !! l with
           | Some a => (Ok tt, <[l := mk_ndarray (shape_of a) (f (samples a))]> h)
           | None => (Raise UnboundReference, h)
           end.
(** [image.copy()] *)
Definition copy (l : loc) : M loc :=
  a ← load l; alloc a.

(** ** core/lsb.py *)

Module LSBSteganography.

(** One embedding step at sample [off]:
<<
    pixel = stego_image[...]
    stego_image[...] = (pixel & 0xFE) | int(binary_data[data_index])
    data_index += 1
>>
    The loop state is the sample buffer of [stego_image] and [data_index]. *)
Definition embed_bit (binary_data : bitstr) (off : nat)
    (st : list Z * nat) : list Z * nat :=
  let '(buf, data_index) := st in
  let pixel := buf !!! off in
  (<[off := Z.lor (Z.land pixel 254) (int_of_digit (binary_data !!! data_index))]> buf,
   S data_index).

(** [for k in range(3): if data_index < data_len: ...] *)
Definition embed_channels (s : shape) (binary_data : bitstr) (data_len i j : nat)
    (st : list Z * nat) : list Z * nat :=
  fold_left
    (fun st k => if st.2 <? data_len
                 then embed_bit binary_data (offset3 s i j k) st else st)
    (seq 0 3) st.

(** The inner loop [for j in range(width)], with its [break]. *)
Fixpoint embed_row (s : shape) (binary_data : bitstr) (data_len i : nat)
    (jrange : list nat) (st : list Z * nat) : list Z * nat :=
  match jrange with
  | [] => st
  | j :: jrange' =>
      if st.2 <? data_len then
        embed_row s binary_data data_len i jrange'
          (match s with
           | Gray _ _ => embed_bit binary_data (offset2 s i j) st
           | Color _ _ => embed_channels s binary_data data_len i j st
           end)
      else st
  end.

(** The outer loop [for i in range(height)], with its [break]. *)
Fixpoint embed_rows (s : shape) (binary_data : bitstr) (data_len : nat)
    (irange : list nat) (st : list Z * nat) : list Z * nat :=
  match irange with
  | [] => st
  | i :: irange' =>
      let st' := embed_row s binary_data data_len i (seq 0 (width s)) st in
      if data_len <=? st'.2 then st'
      else embed_rows s binary_data data_len irange' st'
  end.

Definition embed (cover_image : loc) (secret_data : pystr) : M loc :=
  cover ← load cover_image ;
  let binary_data := encode secret_data in
  let data_len := length binary_data in
  if length (samples cover) <? data_len then raise CapacityError
  else
    stego_image ← copy cover_image ;
    update stego_image
      (fun buf => (embed_rows (shape_of cover) binary_data data_len
                     (seq 0 (height (shape_of cover))) (buf, 0)).1) ;;
    ret stego_image.

(** What [extract] does with [binary_data] after the bits of one pixel
    have been appended: [inl] is an early [return], [inr] goes on. *)
Definition check_terminator (binary_data : bitstr) : pystr + bitstr :=
  if (length binary_data mod 8 =? 0) && bitstr_eqb (last8 binary_data) terminator
  then inl (decode (drop_last8 binary_data))
  else inr binary_data.

(** The bits appended for pixel [(i, j)]. *)
Definition pixel_bits (a : ndarray) (i j : nat) : bitstr :=
  match shape_of a with
  | Gray _ _ => [str_lsb (samples a !!! offset2 (shape_of a) i j)]
  | Color _ _ =>
      map (fun k => str_lsb (samples a !!! offset3 (shape_of a) i j k)) (seq 0 3)
  end.

Fixpoint extract_row (a : ndarray) (i : nat) (jrange : list nat)
    (binary_data : bitstr) : pystr + bitstr :=
  match jrange with
  | [] => inr binary_data
  | j :: jrange' =>
      match check_terminator (binary_data ++ pixel_bits a i j) with
      | inl secret_data => inl secret_data
      | inr binary_data' => extract_row a i jrange' binary_data'
      end
  end.

Fixpoint extract_rows (a : ndarray) (irange : list nat)
    (binary_data : bitstr) : pystr + bitstr :=
  match irange with
  | [] => inr binary_data
  | i :: irange' =>
      match extract_row a i (seq 0 (width (shape_of a))) binary_data with
      | inl secret_data => inl secret_data
      | inr binary_data' => extract_rows a irange' binary_data'
      end
  end.

Definition extract (stego_image : loc) : M pystr :=
  stego ← load stego_image ;
  match extract_rows stego (seq 0 (height (shape_of stego))) [] with
  | inl secret_data => ret secret_data
  | inr binary_data => ret (decode binary_data)
  end.

Definition get_embedding_capacity (cover_image : loc) : M nat :=
  cover ← load cover_image ;
  match shape_of cover with
  | Gray h w => ret (numel (shape_of cover) / 8)
  | Color h w => ret ((h * w * 3) / 8)
  end.

End LSBSteganography.

(** ** core/sobel_adaptive.py *)

Module SobelAdaptiveSteganography.

(** [mask = (gradient > threshold).astype(np.uint8)] *)
Definition create_embedding_mask (gradient : list Z) (threshold : Z) : list Z :=
  map (fun g => if (threshold <? g)%Z then 1%Z else 0%Z) gradient.

(** [np.sum(mask)] *)
Definition np_sum (mask : list Z) : Z := foldr Z.add 0%Z mask.

(** [available_pixels * 3] for a color image, [available_pixels] otherwise. *)
Definition available_capacity (s : shape) (mask : list Z) : Z :=
  match s with
  | Color _ _ => (np_sum mask * 3)%Z
  | Gray _ _ => np_sum mask
  end.

(** The relaxation loop
<<
    while available_capacity < data_len and new_threshold > 0:
        new_threshold -= 5
        mask = create_embedding_mask(gradient, new_threshold)
        available_pixels = np.sum(mask); available_capacity = ...
>>
    on the state [(new_threshold, mask)]; [available_capacity] is always
    the capacity of the current mask.  It returns the state on exit. *)
Equations? relax (gradient : list Z) (s : shape) (data_len : Z)
    (new_threshold : Z) (mask : list Z) : Z * list Z
    by wf (Z.to_nat new_threshold) lt :=
  relax gradient s data_len new_threshold mask
    with decide ((available_capacity s mask < data_len)%Z ∧ (0 < new_threshold)%Z) := {
    | left _ =>
        relax gradient s data_len (new_threshold - 5)
          (create_embedding_mask gradient (new_threshold - 5));
    | right _ => (new_threshold, mask) }.
Proof. lia. Qed.

(** The capacity check of [embed]: the mask that will be used, or the
    exception. *)
Definition choose_mask (gradient : list Z) (s : shape) (data_len : Z)
    (threshold : Z) : outcome (Z * list Z) :=
  let mask := create_embedding_mask gradient threshold in
  if (available_capacity s mask <? data_len)%Z then
    let '(new_threshold, mask') := relax gradient s data_len threshold mask in
    if (available_capacity s mask' <? data_len)%Z then Raise CapacityError
    else Ok (new_threshold, mask')
  else Ok (threshold, mask).

(** The embedding loops.  The statements that write one bit, and the loop
    over the three channels, are the ones of [lsb.py]. *)
Fixpoint embed_row (s : shape) (mask : list Z) (binary_data : bitstr)
    (data_len i : nat) (jrange : list nat) (st : list Z * nat) : list Z * nat :=
  match jrange with
  | [] => st
  | j :: jrange' =>
      let st' :=
        if (st.2 <? data_len) && (mask !!! offset2 s i j =? 1)%Z then
          match s with
          | Gray _ _ => LSBSteganography.embed_bit binary_data (offset2 s i j) st
          | Color _ _ => LSBSteganography.embed_channels s binary_data data_len i j st
          end
        else st in
      if data_len <=? st'.2 then st'
      else embed_row s mask binary_data data_len i jrange' st'
  end.

Fixpoint embed_rows (s : shape) (mask : list Z) (binary_data : bitstr)
    (data_len : nat) (irange : list nat) (st : list Z * nat) : list Z * nat :=
  match irange with
  | [] => st
  | i :: irange' =>
      let st' := embed_row s mask binary_data data_len i (seq 0 (width s)) st in
      if data_len <=? st'.2 then st'
      else embed_rows s mask binary_data data_len irange' st'
  end.

(** [len(binary_data) % 8 == 0 and len(binary_data) >= 8], then the test
    of the last eight characters. *)
Definition check_terminator (binary_data : bitstr) : pystr + bitstr :=
  if (length binary_data mod 8 =? 0) && (8 <=? length binary_data)
     && bitstr_eqb (last8 binary_data) terminator
  then inl (decode (drop_last8 binary_data))
  else inr binary_data.

Fixpoint extract_row (a : ndarray) (mask : list Z) (i : nat) (jrange : list nat)
    (binary_data : bitstr) : pystr + bitstr :=
  match jrange with
  | [] => inr binary_data
  | j :: jrange' =>
      if (mask !!! offset2 (shape_of a) i j =? 1)%Z then
        match check_terminator (binary_data ++ LSBSteganography.pixel_bits a i j) with
        | inl secret_data => inl secret_data
        | inr binary_data' => extract_row a mask i jrange' binary_data'
        end
      else extract_row a mask i jrange' binary_data
  end.

Fixpoint extract_rows (a : ndarray) (mask : list Z) (irange : list nat)
    (binary_data : bitstr) : pystr + bitstr :=
  match irange with
  | [] => inr binary_data
  | i :: irange' =>
      match extract_row a mask i (seq 0 (width (shape_of a))) binary_data with
      | inl secret_data => inl secret_data
      | inr binary_data' => extract_rows a mask irange' binary_data'
      end
  end.

Section WithGradient.

(** [compute_sobel_gradient] is [cv2.cvtColor], [cv2.Sobel],
    [cv2.magnitude] and [cv2.normalize(..., 0, 255, NORM_MINMAX)] followed
    by [astype(np.uint8)]: OpenCV's floating-point routines, which the
    repository only calls.  The map it returns, one magnitude per pixel
    in row-major order, is a parameter. *)
Variable compute_sobel_gradient : ndarray → list Z.

Definition embed (cover_image : loc) (secret_data : pystr) (threshold : Z) : M loc :=
  cover ← load cover_image;
  let gradient := compute_sobel_gradient cover in
  let binary_data := encode secret_data in
  let data_len := length binary_data in
  match choose_mask gradient (shape_of cover) (Z.of_nat data_len) threshold with
  | Raise e => raise e
  | Ok (_, mask) =>
      stego_image ← copy cover_image;
      update stego_image
        (fun buf => (embed_rows (shape_of cover) mask binary_data data_len
                       (seq 0 (height (shape_of cover))) (buf, 0)).1);;
      ret stego_image
  end.

Definition extract (stego_image : loc) (threshold : Z) : M pystr :=
  stego ← load stego_image;
  let gradient := compute_sobel_gradient stego in
  let mask := create_embedding_mask gradient threshold in
  match extract_rows stego mask (seq 0 (height (shape_of stego))) [] with
  | inl secret_data => ret secret_data
  | inr binary_data => ret (decode binary_data)
  end.

Definition get_embedding_capacity (cover_image : loc) (threshold : Z) : M Z :=
  cover ← load cover_image;
  let gradient := compute_sobel_gradient cover in
  let mask := create_embedding_mask gradient threshold in
  let available_pixels := np_sum mask in
  match shape_of cover with
  | Gray _ _ => ret (available_pixels / 8)%Z
  | Color _ _ => ret ((available_pixels * 3) / 8)%Z
  end.

End WithGradient.

End SobelAdaptiveSteganography.

(** ** core/attack_simulator.py *)

Module AttackSimulator.

(** Shape of [cv2.resize(a, (w, h))]: the requested size, the channels of
    the source. *)
Definition resize_shape (s : shape) (w h : nat) : shape :=
  match s with
  | Gray _ _ => Gray h w
  | Color _ _ => Color h w
  end.

(** [image[start_y:start_y+crop_height, start_x:start_x+crop_width]], with
    Python's clamping of slice bounds. *)
Definition slice2 (a : ndarray) (start_y crop_height start_x crop_width : nat) : ndarray :=
  let s := shape_of a in
  let c := channels s in
  let y0 := start_y `min` height s in
  let y1 := (start_y + crop_height) `min` height s in
  let x0 := start_x `min` width s in
  let x1 := (start_x + crop_width) `min` width s in
  mk_ndarray (resize_shape s (x1 - x0) (y1 - y0))
    (flat_map (fun i => take ((x1 - x0) * c) (drop ((i * width s + x0) * c) (samples a)))
              (seq y0 (y1 - y0))).

Section WithOpenCV.

(** OpenCV and numpy routines that the repository only calls; each is a
    parameter giving the samples of the array the call returns. *)

(** [cv2.imwrite(temp_path, image, [IMWRITE_JPEG_QUALITY, quality])]
    followed by [cv2.imread(temp_path)].  [imread] is called without a
    flag, that is with [IMREAD_COLOR]: the array it returns always has
    three channels, so [jpeg_codec] gives three samples per pixel. *)
Variable jpeg_codec : ndarray → Z → list Z.
(** [cv2.resize(a, (w, h))] *)
Variable cv2_resize : ndarray → nat → nat → list Z.
(** [cv2.GaussianBlur(a, (k, k), sigma)] *)
Variable cv2_GaussianBlur : ndarray → Z → Q → list Z.
(** [np.clip(image.astype(np.float32) + np.random.normal(mean, sigma,
    image.shape), 0, 255).astype(np.uint8)] for one draw of the noise. *)
Variable noisy_samples : ndarray → Q → Q → list Z.
(** [int(n * crop_ratio)], the product rounded as a binary64 float. *)
Variable float_mul_int : nat → Q → nat.

(** The temporary file only carries the image from [imwrite] to [imread]
    and is removed in the [finally] clause; the heap of arrays is the
    state that is modelled.  [imwrite] refuses an empty image. *)
Definition jpeg_compression (image : loc) (quality : Z) : M loc :=
  if ((quality <? 1) || (100 <? quality))%Z then raise InvalidParameterError
  else
    img ← load image;
    if numel (shape_of img) =? 0 then raise Cv2Error
    else
      let s := shape_of img in
      let compressed_image :=
        mk_ndarray (Color (height s) (width s)) (jpeg_codec img quality) in
      if bool_decide (shape_of compressed_image ≠ s) then
        alloc (mk_ndarray (resize_shape (shape_of compressed_image) (width s) (height s))
                          (cv2_resize compressed_image (width s) (height s)))
      else alloc compressed_image.

(** [cv2.GaussianBlur] refuses an empty source.  A kernel size that is
    not positive is replaced by one derived from [sigma] when [sigma] is
    positive, and refused otherwise. *)
Definition gaussian_blur (image : loc) (kernel_size : Z) (sigma : Q) : M loc :=
  let kernel_size := if (kernel_size mod 2 =? 0)%Z then (kernel_size + 1)%Z
                     else kernel_size in
  img ← load image;
  if (numel (shape_of img) =? 0) || ((kernel_size <=? 0)%Z && Qle_bool sigma 0)
  then raise Cv2Error
  else alloc (mk_ndarray (shape_of img) (cv2_GaussianBlur img kernel_size sigma)).

(** [cv2.resize] refuses an empty source and an empty target size. *)
Definition crop_attack (image : loc) (crop_ratio : Q) : M loc :=
  if Qle_bool crop_ratio 0 || Qle_bool 1 crop_ratio then raise InvalidParameterError
  else
    img ← load image;
    let h := height (shape_of img) in
    let w := width (shape_of img) in
    let crop_height := float_mul_int h crop_ratio in
    let crop_width := float_mul_int w crop_ratio in
    let start_y := (h - crop_height) / 2 in
    let start_x := (w - crop_width) / 2 in
    let cropped_image := slice2 img start_y crop_height start_x crop_width in
    if (numel (shape_of cropped_image) =? 0) || (w =? 0) || (h =? 0)
    then raise Cv2Error
    else alloc (mk_ndarray (resize_shape (shape_of cropped_image) w h)
                           (cv2_resize cropped_image w h)).

(** [np.random.normal] raises [ValueError] for a negative scale. *)
Definition gaussian_noise (image : loc) (mean sigma : Q) : M loc :=
  img ← load image;
  if negb (Qle_bool 0 sigma) then raise InvalidParameterError
  else alloc (mk_ndarray (shape_of img) (noisy_samples img mean sigma)).

(** The dictionary [params], read at the five keys [apply_attack] looks
  up; [None] is a missing key, and a value has the type the operator
  takes. *)
Record attack_params := {
quality_of : option Z;
kernel_size_of : option Z;
sigma_of : option Q;
crop_ratio_of : option Q;
mean_of : option Q }.

(** [{}] *)
Definition no_params : attack_params :=
{| quality_of := None; kernel_size_of := None; sigma_of := None;
   crop_ratio_of := None; mean_of := None |}.

(** The float [0.9]: the binary64 number nearest to nine tenths. *)
Definition float_0_9 : Q := (8106479329266893 # 9007199254740992)%Q.

(** [params.get(key, value)] is [default value (key_of params)]; the
  argument [None] is [params=None]. *)
Definition apply_attack (image : loc) (attack_type : string)
  (params : option attack_params) : M loc :=
let params := match params with None => no_params | Some params => params end in
if String.eqb attack_type "jpeg" then
  let quality := default 75%Z (quality_of params) in
  jpeg_compression image quality
else if String.eqb attack_type "blur" then
  let kernel_size := default 3%Z (kernel_size_of params) in
  let sigma := default 1%Q (sigma_of params) in
  gaussian_blur image kernel_size sigma
else if String.eqb attack_type "crop" then
  let crop_ratio := default float_0_9 (crop_ratio_of params) in
  crop_attack image crop_ratio
else if String.eqb attack_type "noise" then
  let mean := default 0%Q (mean_of params) in
  let sigma := default 10%Q (sigma_of params) in
  gaussian_noise image mean sigma
else raise UnsupportedAttackError.

End WithOpenCV.

End AttackSimulator.

(** ** utils/metrics.py *)

Module Metrics.

(** The value [calculate_psnr] returns.  [Decibels mse] stands for
    [20 * log10(255 / sqrt(mse))] with [mse] non-zero; [NaN] is what the
    same formula gives when numpy's mean of no sample at all is nan. *)
Inductive psnr_value :=
| PosInf
| NaN
| Decibels (mse : Q).

(** [np.mean] of the squared differences: [None] is nan (no sample).  The
    squares are integers below 2^16, which float64 holds exactly; the mean
    is kept as a rational. *)
Definition np_mean (xs : list Z) : option Q :=
  match xs with
  | [] => None
  | _ => Some (inject_Z (foldr Z.add 0%Z xs) / inject_Z (Z.of_nat (length xs)))%Q
  end.

Definition squared_errors (a b : list Z) : list Z :=
  zip_with (fun x y => ((x - y) ^ 2)%Z) a b.

(** The arrays are [uint8], so both [dtype] tests are false. *)
Definition calculate_psnr (original modified : loc) : M psnr_value :=
  a ← load original;
  b ← load modified;
  if bool_decide (shape_of a ≠ shape_of b) then raise ShapeMismatchError
  else
    match np_mean (squared_errors (samples a) (samples b)) with
    | None => ret NaN
    | Some mse => if Qeq_bool mse 0 then ret PosInf else ret (Decibels mse)
    end.

(** The value [calculate_ber] returns: a ratio, or nan when numpy divides
    zero errors by the length zero. *)
Inductive ber_value :=
| BerNaN
| Ber (ratio : Q).

(** [np.sum(original_bits != extracted_bits)] for two sequences of one
    length. *)
Definition error_bits (original_bits extracted_bits : list Z) : nat :=
  length (filter (fun xy => xy.1 ≠ xy.2) (zip original_bits extracted_bits)).

Definition calculate_ber (original_bits extracted_bits : list Z) : outcome ber_value :=
  if bool_decide (length original_bits ≠ length extracted_bits)
  then Raise LengthMismatchError
  else
    if length original_bits =? 0 then Ok BerNaN
    else Ok (Ber (inject_Z (Z.of_nat (error_bits original_bits extracted_bits))
                  / inject_Z (Z.of_nat (length original_bits)))%Q).

(** Python's true division of two integers. *)
Definition py_div (a b : nat) : outcome Q :=
  if b =? 0 then Raise ZeroDivisionError
  else Ok (inject_Z (Z.of_nat a) / inject_Z (Z.of_nat b))%Q.

(** [sum(1 for i in range(min_length) if original_text[i] != extracted_text[i])] *)
Definition mismatches (original_text extracted_text : pystr) (min_length : nat) : nat :=
  length (filter (fun i => original_text !!! i ≠ extracted_text !!! i) (seq 0 min_length)).

(** [None] is Python's [None]; the texts are [str] already. *)
Definition calculate_ber_text (original_text extracted_text : option pystr) : outcome Q :=
  match original_text, extracted_text with
  | Some original_text, Some extracted_text =>
      let min_length := length original_text `min` length extracted_text in
      if min_length =? 0 then Ok 1%Q
      else
        let error_count := mismatches original_text extracted_text min_length in
        let error_count :=
          if min_length <? length original_text
          then error_count + (length original_text - min_length)
          else error_count in
        py_div error_count (length original_text)
  | _, _ => Ok 1%Q
  end.

End Metrics.

(** ** Flat views of the loops, used in the proofs *)

Module Flat.

(** A binary digit character. *)
Definition is_digit (c : ascii) : Prop := c = "0" ∨ c = "1".

(** [int(s, 2)] continued from the value [v] of the digits already read. *)
Definition int_from (v : N) (s : bitstr) : N :=
  fold_left (fun acc c => (2 * acc + (if Ascii.eqb c "1" then 1 else 0))%N) s v.

(** The sample offsets of pixel number [p], in channel order. *)
Definition pixel_slots (s : shape) (p : nat) : list nat :=
  map (fun k => p * channels s + k) (seq 0 (channels s)).

(** The guarded embedding step run over a list of sample offsets. *)
Definition flat_embed (binary_data : bitstr) (data_len : nat) (offs : list nat)
    (st : list Z * nat) : list Z * nat :=
  fold_left
    (fun st off => if st.2 <? data_len
                   then LSBSteganography.embed_bit binary_data off st else st)
    offs st.

(** Writing the digits [bs] into the least significant bits of the samples
    at [offs], one digit per offset, until either list runs out. *)
Fixpoint write_zip (bs : bitstr) (offs : list nat) (buf : list Z) : list Z :=
  match bs, offs with
  | b :: bs', off :: offs' =>
      write_zip bs' offs'
        (<[off := Z.lor (Z.land (buf !!! off) 254) (int_of_digit b)]> buf)
  | _, _ => buf
  end.

(** The pixels a mask selects, in raster order; [None] selects them all. *)
Definition selected (mask : option (list Z)) (p : nat) : bool :=
  match mask with
  | None => true
  | Some mask => (mask !!! p =? 1)%Z
  end.

(** The sample offsets visited by the embedding loops, in visiting order. *)
Definition row_slots (s : shape) (mask : option (list Z)) (i : nat)
    (jrange : list nat) : list nat :=
  flat_map (fun j => if selected mask (offset2 s i j)
                     then pixel_slots s (offset2 s i j) else []) jrange.
Definition slots (s : shape) (mask : option (list Z)) (irange : list nat) : list nat :=
  flat_map (fun i => row_slots s mask i (seq 0 (width s))) irange.

(** The grayscale extraction loop as a scan of the digits it reads. *)
Fixpoint scan (reads : bitstr) (binary_data : bitstr) : list N + bitstr :=
  match reads with
  | [] => inr binary_data
  | c :: reads' =>
      match LSBSteganography.check_terminator (binary_data ++ [c]) with
      | inl secret_data => inl secret_data
      | inr binary_data' => scan reads' binary_data'
      end
  end.

(** What one byte of room does to a sample when a digit is written. *)
Definition lsb_write_ok (x d : Z) : bool :=
  let v := Z.lor (Z.land x 254) d in
  (0 <=? v)%Z && (v <? 256)%Z && (Z.shiftr v 1 =? Z.shiftr x 1)%Z
  && (Z.land v 1 =? d)%Z && (Z.abs (v - x) <=? 1)%Z.

(** A stego sample [y] that differs from the cover sample [x] in the least
    significant bit at most. *)
Definition lsb_close (x y : Z) : Prop :=
  (0 ≤ y < 256)%Z ∧ Z.shiftr y 1 = Z.shiftr x 1.

(** The digits the extraction loops read at the sample offsets [offs]. *)
Definition reads (a : ndarray) (offs : list nat) : bitstr :=
  map (fun off => str_lsb (samples a !!! off)) offs.

(** What a successful embedding leaves in the heap: the cover untouched, a
    new array for the stego image, close to the cover sample by sample. *)
Definition embedded (h : gmap nat ndarray) (l : nat) (cover : ndarray)
    (l' : nat) (h' : gmap nat ndarray) : Prop :=
  l' ≠ l ∧ h !! l' = None ∧ h' !! l = Some cover
  ∧ (∀ q, q ≠ l' → h' !! q = h !! q)
  ∧ ∃ stego, h' !! l' = Some stego
      ∧ shape_of stego = shape_of cover
      ∧ length (samples stego) = length (samples cover)
      ∧ ∀ p x, samples cover !! p = Some x →
          ∃ y, samples stego !! p = Some y
               ∧ Z.shiftr y 1 = Z.shiftr x 1 ∧ (Z.abs (y - x) ≤ 1)%Z.

(** Capacity, in bits, of the mask at threshold [t]. *)
Definition cap (gradient : list Z) (s : shape) (t : Z) : Z :=
  SobelAdaptiveSteganography.available_capacity s
    (SobelAdaptiveSteganography.create_embedding_mask gradient t).

(** The last threshold the relaxation loop of [embed] can reach from a
    requested threshold: the first of [t, t - 5, t - 10, ...] that is not
    positive. *)
Definition last_threshold (threshold : Z) : Z :=
  if (0 <? threshold)%Z then (threshold - 5 * ((threshold + 4) / 5))%Z else threshold.

(** The errors [calculate_ber_text] counts for two non-empty texts. *)
Definition error_count (original_text extracted_text : pystr) : nat :=
  Metrics.mismatches original_text extracted_text
    (length original_text `min` length extracted_text)
  + (length original_text - length extracted_text).

End Flat.

(** ** Further views, used to state what the loops compute *)

Module Views.

(** The characters of [s] before its first character 0. *)
Fixpoint until_nul (s : pystr) : pystr :=
  match s with
  | [] => []
  | c :: s' => if (c =? 0)%N then [] else c :: until_nul s'
  end.

(** What an extraction loop has produced: the text it returned early, or
    the decoding of what it had read when the image ran out. *)
Definition extracted (r : pystr + bitstr) : pystr :=
  match r with
  | inl secret_data => secret_data
  | inr binary_data => decode binary_data
  end.

(** The extraction loop of [lsb.py] as a scan of the digit groups it
    appends, one group per visited pixel, with the test after each group. *)
Fixpoint scan_chunks (chunks : list bitstr) (binary_data : bitstr) : pystr + bitstr :=
  match chunks with
  | [] => inr binary_data
  | chunk :: chunks' =>
      match LSBSteganography.check_terminator (binary_data ++ chunk) with
      | inl secret_data => inl secret_data
      | inr binary_data' => scan_chunks chunks' binary_data'
      end
  end.

(** A loop result that decodes at most [n] digits. *)
Definition decodes_at_most (n : nat) (r : pystr + bitstr) : Prop :=
  match r with
  | inl secret_data => ∃ binary_data,
      secret_data = decode binary_data ∧ length binary_data ≤ n
  | inr binary_data => length binary_data ≤ n
  end.

(** The digits held by the least significant bits of a sample buffer. *)
Definition lsb_string (buf : list Z) : bitstr := map str_lsb buf.

(** The samples of the pixels a mask selects, for a grayscale buffer. *)
Definition masked_samples (mask buf : list Z) : list Z :=
  map (fun p => buf !!! p)
      (filter (fun p => (mask !!! p =? 1)%Z = true) (seq 0 (length buf))).

End Views.

(** ** Concrete images used in the examples *)

Module Examples.

(** A 1x8 color image with every sample 128. *)
Definition color_cover : ndarray := mk_ndarray (Color 1 8) (repeat 128%Z 24).

(** A 4x4 grayscale image with every sample 128. *)
Definition gray_cover : ndarray := mk_ndarray (Gray 4 4) (repeat 128%Z 16).

(** A 4x4 grayscale image with a vertical edge, and its Sobel map: with
    OpenCV's reflected border the two outer columns have gradient 0 and
    the two inner ones the maximum, 255 after normalisation. *)
Definition edge_cover : ndarray :=
  mk_ndarray (Gray 4 4) (concat (repeat [0; 0; 255; 255]%Z 4)).
Definition edge_gradient : list Z := concat (repeat [0; 255; 255; 0]%Z 4).

(** A 1x20 grayscale image of vertical stripes two pixels wide, and a
    1x12 color image of the same stripes with three equal channels. *)
Definition stripes_cover : ndarray :=
  mk_ndarray (Gray 1 20) (concat (repeat [0; 0; 255; 255]%Z 5)).
Definition color_stripes : ndarray :=
  mk_ndarray (Color 1 12)
    (flat_map (fun v => [v; v; v]) (concat (repeat [0; 0; 255; 255]%Z 3))).

(** [cv2.borderInterpolate(p, len, cv2.BORDER_REFLECT_101)], the border of
    [cv2.Sobel], at the positions -1 .. len that a 3x3 kernel reaches. *)
Definition reflect_101 (len : nat) (p : Z) : nat :=
  if len =? 1 then 0
  else if (p <? 0)%Z then Z.to_nat (- p)
  else if (Z.of_nat len <=? p)%Z then Z.to_nat (2 * (Z.of_nat len - 1) - p)
  else Z.to_nat p.

(** [cv2.cvtColor(image, cv2.COLOR_RGB2GRAY)] on one pixel, with the 15-bit
    weights of OpenCV 4.  On three equal channels, and on the samples 0, 1,
    254, 255 that embedding into [color_stripes] leaves, every rounding of
    the weights 0.299, 0.587, 0.114 gives this value. *)
Definition luma (r g b : Z) : Z :=
  Z.shiftr (9798 * r + 19235 * g + 3735 * b + 16384) 15.

Definition gray_samples (a : ndarray) : list Z :=
  match shape_of a with
  | Gray _ _ => samples a
  | Color h w =>
      map (fun p => luma (samples a !!! (3 * p)) (samples a !!! (3 * p + 1))
                         (samples a !!! (3 * p + 2)))
          (seq 0 (h * w))
  end.

(** The gradient map of [compute_sobel_gradient], computed with integers:
    the two 3x3 Sobel derivatives, which are integers, the square of their
    magnitude, and [255 * magnitude / max magnitude] rounded down, the
    minimum being 0 since both derivatives vanish at pixel (0, 0) under the
    reflected border; a map that is 0 everywhere stays so.  OpenCV computes
    the magnitude and the quotient in binary64 before [astype(np.uint8)]
    rounds down, which can give one less where the exact quotient is a
    whole number.  The examples apply the map to arrays where the two
    agree: those whose map is 0 (the constant images and [px2]), and
    images of equal rows where the magnitudes are multiples of 4 with
    maximum 1020, the scale 255/1020 being a power of two, namely
    [edge_cover] (map [edge_gradient]), the striped images and what
    embedding makes of them. *)
Definition sobel_gradient (a : ndarray) : list Z :=
  let H := height (shape_of a) in
  let W := width (shape_of a) in
  let gray := gray_samples a in
  let px (i j : Z) := gray !!! (reflect_101 H i * W + reflect_101 W j) in
  let taps := [(-1, 1); (0, 2); (1, 1)]%Z in
  let squared_magnitude (p : nat) :=
    let i := Z.of_nat (p / W) in
    let j := Z.of_nat (p mod W) in
    let gx := foldr Z.add 0%Z
                (map (fun t => t.2 * (px (i + t.1) (j + 1) - px (i + t.1) (j - 1)))%Z taps) in
    let gy := foldr Z.add 0%Z
                (map (fun t => t.2 * (px (i + 1) (j + t.1) - px (i - 1) (j + t.1)))%Z taps) in
    (gx * gx + gy * gy)%Z in
  let m2 := map squared_magnitude (seq 0 (H * W)) in
  let mx := foldr Z.max 0%Z m2 in
  map (fun q => if (mx =? 0)%Z then 0%Z else Z.sqrt (65025 * q / mx)) m2.

(** A 1x2 grayscale image. *)
Definition px2 : ndarray := mk_ndarray (Gray 1 2) [7%Z; 9%Z].

(** The 8x8 grayscale image of samples 128 and the 100x100x3 image of the
    specification's scenarios. *)
Definition gray8 : ndarray := mk_ndarray (Gray 8 8) (repeat 128%Z 64).
Definition color100 : ndarray := mk_ndarray (Color 100 100) (repeat 128%Z (100 * 100 * 3)).

End Examples.

(** * Verification *)

Module BitCodecFacts.

Import Flat.

Lemma pos_bin_length p acc : length (pos_bin p acc) = Pos.size_nat p + length acc.
Proof.
  revert acc. induction p as [p IH|p IH|]; intros acc; simpl; [| |done];
    rewrite IH; simpl; lia.
Qed.

Lemma bin_length n : length (bin n) = 1 `max` N.size_nat n.
Proof.
  destruct n as [|p]; [done|]. simpl. rewrite pos_bin_length. simpl.
  destruct p; simpl; lia.
Qed.

Lemma format_08b_length n : length (format_08b n) = 8 `max` N.size_nat n.
Proof.
  unfold format_08b. rewrite length_app, repeat_length, bin_length. lia.
Qed.

Lemma pos_size_nat_le p k : Pos.size_nat p ≤ k ↔ (Z.pos p < 2 ^ Z.of_nat k)%Z.
Proof.
  revert k. induction p as [p IH|p IH|]; intros [|k]; simpl Pos.size_nat;
    rewrite ?Nat2Z.inj_succ, ?Z.pow_succ_r, ?Z.pow_0_r by lia;
    try (specialize (IH k)); lia.
Qed.

Lemma size_nat_byte n : N.size_nat n ≤ 8 ↔ (n ≤ 255)%N.
Proof.
  destruct n as [|p]; simpl; [lia|].
  rewrite (pos_size_nat_le p 8). change (2 ^ Z.of_nat 8)%Z with 256%Z. lia.
Qed.

Lemma format_08b_length_byte n : length (format_08b n) = 8 ↔ (n ≤ 255)%N.
Proof. rewrite format_08b_length, <- size_nat_byte. lia. Qed.

Lemma format_08b_length_ge n : 8 ≤ length (format_08b n).
Proof. rewrite format_08b_length. lia. Qed.

Lemma int_from_pos_bin p acc v :
  int_from v (pos_bin p acc) = int_from (v * 2 ^ N.of_nat (Pos.size_nat p) + Npos p)%N acc.
Proof.
  revert acc v. induction p as [p IH|p IH|]; intros acc v; simpl pos_bin.
  - rewrite IH. unfold int_from. simpl. f_equal.
    rewrite Nat2N.inj_succ, N.pow_succ_r'. lia.
  - rewrite IH. unfold int_from. simpl. f_equal.
    rewrite Nat2N.inj_succ, N.pow_succ_r'. lia.
  - unfold int_from. simpl. f_equal. lia.
Qed.

Lemma int_from_zeros k v s : v = 0%N → int_from v (repeat "0" k ++ s) = int_from 0 s.
Proof.
  intros ->. induction k as [|k IH]; [done|]. simpl. apply IH.
Qed.

Lemma int_base2_format_08b n : int_base2 (format_08b n) = n.
Proof.
  unfold format_08b. change int_base2 with (int_from 0).
  rewrite int_from_zeros by done.
  destruct n as [|p]; [done|]. simpl bin. rewrite int_from_pos_bin. simpl. lia.
Qed.

Lemma pos_bin_digits p acc : Forall is_digit acc → Forall is_digit (pos_bin p acc).
Proof.
  revert acc. induction p as [p IH|p IH|]; intros acc Hacc; simpl.
  - apply IH. constructor; [by right|done].
  - apply IH. constructor; [by left|done].
  - constructor; [by right|done].
Qed.

Lemma format_08b_digits n : Forall is_digit (format_08b n).
Proof.
  unfold format_08b. apply Forall_app. split.
  - apply Forall_forall. intros c Hc. apply list_elem_of_In, repeat_spec in Hc. by left.
  - destruct n; [repeat constructor; by left|]. apply pos_bin_digits. constructor.
Qed.

Lemma encode_cons c secret_data : encode (c :: secret_data) = format_08b c ++ encode secret_data.
Proof. unfold encode. simpl. by rewrite <- app_assoc. Qed.

Lemma encode_length_ge secret_data : 8 * (length secret_data + 1) ≤ length (encode secret_data).
Proof.
  induction secret_data as [|c p IH]; [done|].
  rewrite encode_cons, length_app. pose proof (format_08b_length_ge c). simpl. lia.
Qed.

Lemma encode_length_bytes secret_data :
  length (encode secret_data) = 8 * (length secret_data + 1)
  ↔ Forall (fun c => (c ≤ 255)%N) secret_data.
Proof.
  induction secret_data as [|c p IH]; [split; [constructor|done]|].
  rewrite encode_cons, length_app, Forall_cons, <- IH, <- format_08b_length_byte.
  pose proof (format_08b_length_ge c). pose proof (encode_length_ge p). simpl. lia.
Qed.

(** C3 (as amended): [encode] concatenates, in payload order, the binary
    digits of each code point, most significant first and padded with
    zeros to at least 8 digits, then eight zeros.  A character gets exactly
    8 digits if and only if its code point is at most 255, and max(8, bit
    length) digits in general (nothing is truncated), so the encoded length
    is 8 * (len + 1) exactly when every code point is at most 255, and
    never less. *)
Theorem encode_spec (secret_data : list N) :
  encode secret_data = flat_map format_08b secret_data ++ repeat "0" 8
  ∧ Forall (fun c => Forall is_digit (format_08b c)
                     ∧ int_base2 (format_08b c) = c
                     ∧ length (format_08b c) = 8 `max` N.size_nat c
                     ∧ (length (format_08b c) = 8 ↔ (c ≤ 255)%N)) secret_data
  ∧ (length (encode secret_data) = 8 * (length secret_data + 1)
     ↔ Forall (fun c => (c ≤ 255)%N) secret_data)
  ∧ 8 * (length secret_data + 1) ≤ length (encode secret_data).
Proof.
  split; [reflexivity|]. split; [|split].
  - apply Forall_forall. intros c _.
    auto using format_08b_digits, int_base2_format_08b, format_08b_length,
      format_08b_length_byte.
  - apply encode_length_bytes.
  - apply encode_length_ge.
Qed.

(** C3 fails for a code point above 255: the character 256 is encoded on
    nine digits, and the payload of that single character on 17, not 16. *)
Lemma encode_wide_character :
  encode [256%N] = ["1";"0";"0";"0";"0";"0";"0";"0";"0";"0";"0";"0";"0";"0";"0";"0";"0"]
  ∧ length (encode [256%N]) ≠ 8 * (length [256%N] + 1).
Proof. split; [reflexivity|discriminate]. Qed.

End BitCodecFacts.

Module FlatFacts.
Import Flat.

Lemma row_slots_cons s mask i j jrange :
  row_slots s mask i (j :: jrange)
  = (if selected mask (offset2 s i j) then pixel_slots s (offset2 s i j) else [])
    ++ row_slots s mask i jrange.
Proof. reflexivity. Qed.

Lemma slots_cons s mask i irange :
  slots s mask (i :: irange) = row_slots s mask i (seq 0 (width s)) ++ slots s mask irange.
Proof. reflexivity. Qed.

Lemma flat_embed_done bits dl offs st : dl ≤ st.2 → flat_embed bits dl offs st = st.
Proof.
  induction offs as [|off offs IH]; intros Hd; [done|].
  unfold flat_embed in *. simpl.
  destruct (Nat.ltb_spec st.2 dl); [lia|]. by apply IH.
Qed.

Lemma flat_embed_done2 bits dl offs1 offs2 st :
  dl ≤ st.2 → flat_embed bits dl offs2 (flat_embed bits dl offs1 st) = st.
Proof. intros Hd. rewrite (flat_embed_done _ _ offs1) by done. by apply flat_embed_done. Qed.

Lemma flat_embed_app bits dl offs1 offs2 st :
  flat_embed bits dl (offs1 ++ offs2) st
  = flat_embed bits dl offs2 (flat_embed bits dl offs1 st).
Proof. unfold flat_embed. apply fold_left_app. Qed.

Lemma pixel_step_flat s bits dl i j st :
  st.2 < dl →
  match s with
  | Gray _ _ => LSBSteganography.embed_bit bits (offset2 s i j) st
  | Color _ _ => LSBSteganography.embed_channels s bits dl i j st
  end = flat_embed bits dl (pixel_slots s (offset2 s i j)) st.
Proof.
  intros Hlt. destruct s as [h w|h w].
  - unfold flat_embed, pixel_slots. simpl.
    destruct (Nat.ltb_spec st.2 dl); [|lia].
    by rewrite Nat.mul_1_r, Nat.add_0_r.
  - reflexivity.
Qed.

Lemma lsb_embed_row_flat s bits dl i jrange st :
  LSBSteganography.embed_row s bits dl i jrange st
  = flat_embed bits dl (row_slots s None i jrange) st.
Proof.
  revert st. induction jrange as [|j jrange IH]; intros st; [done|].
  simpl LSBSteganography.embed_row. rewrite row_slots_cons, flat_embed_app.
  cbn [selected].
  destruct (Nat.ltb_spec st.2 dl) as [Hlt|Hge].
  - rewrite IH. by rewrite pixel_step_flat.
  - by rewrite flat_embed_done2.
Qed.

Lemma flat_embed_index_mono bits dl offs st : st.2 ≤ (flat_embed bits dl offs st).2.
Proof.
  revert st. induction offs as [|off offs IH]; intros st; [done|].
  unfold flat_embed in *. simpl. etransitivity; [|apply IH].
  destruct (st.2 <? dl); [|done]. destruct st. simpl. lia.
Qed.

Lemma lsb_embed_rows_flat s bits dl irange st :
  LSBSteganography.embed_rows s bits dl irange st
  = flat_embed bits dl (slots s None irange) st.
Proof.
  revert st. induction irange as [|i irange IH]; intros st; [done|].
  simpl LSBSteganography.embed_rows.
  rewrite slots_cons, flat_embed_app, lsb_embed_row_flat.
  destruct (Nat.leb_spec dl (flat_embed bits dl (row_slots s None i (seq 0 (width s))) st).2).
  - symmetry. by apply flat_embed_done.
  - apply IH.
Qed.

Lemma sobel_embed_row_flat s mask bits dl i jrange st :
  SobelAdaptiveSteganography.embed_row s mask bits dl i jrange st
  = flat_embed bits dl (row_slots s (Some mask) i jrange) st.
Proof.
  revert st. induction jrange as [|j jrange IH]; intros st; [done|].
  simpl SobelAdaptiveSteganography.embed_row. rewrite row_slots_cons, flat_embed_app.
  cbn [selected].
  destruct (Nat.ltb_spec st.2 dl) as [Hlt|Hge]; simpl andb.
  - destruct (mask !!! offset2 s i j =? 1)%Z.
    + rewrite pixel_step_flat by done.
      destruct (Nat.leb_spec dl (flat_embed bits dl (pixel_slots s (offset2 s i j)) st).2).
      * symmetry. by apply flat_embed_done.
      * apply IH.
    + change (flat_embed bits dl [] st) with st.
      destruct (Nat.leb_spec dl st.2); [lia|]. apply IH.
  - cbv iota. destruct (Nat.leb_spec dl st.2); [|lia].
    by rewrite flat_embed_done2.
Qed.

Lemma sobel_embed_rows_flat s mask bits dl irange st :
  SobelAdaptiveSteganography.embed_rows s mask bits dl irange st
  = flat_embed bits dl (slots s (Some mask) irange) st.
Proof.
  revert st. induction irange as [|i irange IH]; intros st; [done|].
  simpl SobelAdaptiveSteganography.embed_rows.
  rewrite slots_cons, flat_embed_app, sobel_embed_row_flat.
  destruct (Nat.leb_spec dl (flat_embed bits dl (row_slots s (Some mask) i (seq 0 (width s))) st).2).
  - symmetry. by apply flat_embed_done.
  - apply IH.
Qed.

Lemma flat_embed_write_zip bits offs buf idx :
  (flat_embed bits (length bits) offs (buf, idx)).1 = write_zip (drop idx bits) offs buf.
Proof.
  revert buf idx. induction offs as [|off offs IH]; intros buf idx.
  { simpl. by destruct (drop idx bits). }
  unfold flat_embed in *. simpl fold_left.
  destruct (Nat.ltb_spec idx (length bits)) as [Hlt|Hge].
  - destruct (lookup_lt_is_Some_2 bits idx Hlt) as [b Hb].
    rewrite (drop_S _ _ _ Hb). simpl write_zip.
    unfold LSBSteganography.embed_bit.
    rewrite (list_lookup_total_correct _ _ _ Hb). apply IH.
  - rewrite drop_ge by done. simpl. 
    change (fold_left _ offs (buf, idx)) with (flat_embed bits (length bits) offs (buf, idx)).
    by rewrite flat_embed_done.
Qed.

End FlatFacts.

Module EmbedFacts.
Import Flat FlatFacts.

Lemma lsb_write_ok_byte x d :
  (0 ≤ x < 256)%Z → (d = 0 ∨ d = 1)%Z → lsb_write_ok x d = true.
Proof.
  intros Hx Hd.
  assert (H : forallb (fun n => lsb_write_ok (Z.of_nat n) 0 && lsb_write_ok (Z.of_nat n) 1)
                (seq 0 256) = true) by (vm_compute; reflexivity).
  rewrite forallb_forall in H. specialize (H (Z.to_nat x)).
  rewrite Z2Nat.id in H by lia.
  apply andb_prop in H as [H0 H1]; [|apply in_seq; lia].
  by destruct Hd as [-> | ->].
Qed.

Lemma int_of_digit_bit c : (int_of_digit c = 0 ∨ int_of_digit c = 1)%Z.
Proof. unfold int_of_digit. destruct (Ascii.eqb c "1"); auto. Qed.

Lemma lsb_write_facts x d :
  (0 ≤ x < 256)%Z → (d = 0 ∨ d = 1)%Z →
  let v := Z.lor (Z.land x 254) d in
  (0 ≤ v < 256)%Z ∧ Z.shiftr v 1 = Z.shiftr x 1 ∧ Z.land v 1 = d ∧ (Z.abs (v - x) ≤ 1)%Z.
Proof.
  intros Hx Hd v. pose proof (lsb_write_ok_byte x d Hx Hd) as H.
  unfold lsb_write_ok in H. fold v in H.
  repeat (apply andb_prop in H as [H ?]). lia.
Qed.

Lemma lsb_close_refl x : (0 ≤ x < 256)%Z → lsb_close x x.
Proof. by split. Qed.

Lemma lsb_close_write x y d :
  lsb_close x y → (d = 0 ∨ d = 1)%Z → lsb_close x (Z.lor (Z.land y 254) d).
Proof.
  intros [Hy Hs] Hd. destruct (lsb_write_facts y d Hy Hd) as (? & ? & _).
  split; [done|congruence].
Qed.

Lemma lsb_close_abs x y : (0 ≤ x < 256)%Z → lsb_close x y → (Z.abs (y - x) ≤ 1)%Z.
Proof.
  intros Hx [Hy Hs]. rewrite !Z.shiftr_div_pow2 in Hs by lia.
  change (2 ^ 1)%Z with 2%Z in Hs.
  pose proof (Z.div_mod x 2). pose proof (Z.div_mod y 2).
  pose proof (Z.mod_pos_bound x 2). pose proof (Z.mod_pos_bound y 2). lia.
Qed.

Lemma Forall2_insert_right {A B} (P : A → B → Prop) l k i y :
  Forall2 P l k → (∀ x, l !! i = Some x → P x y) → Forall2 P l (<[i:=y]> k).
Proof.
  intros HF Hy. destruct (l !! i) as [x|] eqn:Hl.
  - rewrite <- (list_insert_id l i x Hl). apply Forall2_insert; auto.
  - rewrite list_insert_ge; [done|].
    rewrite <- (Forall2_length _ _ _ HF). by apply lookup_ge_None.
Qed.

Lemma write_zip_close cover bs offs buf :
  Forall2 lsb_close cover buf → Forall2 lsb_close cover (write_zip bs offs buf).
Proof.
  revert offs buf. induction bs as [|b bs IH]; intros [|off offs] buf HF; simpl; try done.
  apply IH. apply Forall2_insert_right; [done|].
  intros x Hx. destruct (Forall2_lookup_l _ _ _ _ _ HF Hx) as (y & Hy & Hxy).
  rewrite (list_lookup_total_correct _ _ _ Hy).
  apply lsb_close_write; [done|apply int_of_digit_bit].
Qed.

Lemma write_zip_length bs offs buf : length (write_zip bs offs buf) = length buf.
Proof.
  revert offs buf. induction bs as [|b bs IH]; intros [|off offs] buf; simpl; try done.
  by rewrite IH, length_insert.
Qed.

Lemma wf_close_refl a : wf_ndarray a → Forall2 lsb_close (samples a) (samples a).
Proof.
  intros [_ Hr]. apply Forall_Forall2_diag. eapply Forall_impl; [exact Hr|].
  intros x Hx. by apply lsb_close_refl.
Qed.

Lemma embedded_intro h l cover bs offs :
  h !! l = Some cover → wf_ndarray cover →
  embedded h l cover (fresh (dom h))
    (<[fresh (dom h) := mk_ndarray (shape_of cover) (write_zip bs offs (samples cover))]> h).
Proof.
  intros Hl Hwf. set (l' := fresh (dom h)).
  assert (Hfresh : h !! l' = None) by apply not_elem_of_dom, is_fresh.
  assert (l' ≠ l) by congruence.
  split; [done|]. split; [done|]. split; [by rewrite lookup_insert_ne|].
  split; [intros q Hq; by rewrite lookup_insert_ne|].
  eexists. split; [apply lookup_insert_eq|]. cbn [shape_of samples].
  split; [done|]. split; [apply write_zip_length|].
  intros p x Hx.
  pose proof (write_zip_close (samples cover) bs offs (samples cover) (wf_close_refl _ Hwf)) as HF.
  destruct (Forall2_lookup_l _ _ _ _ _ HF Hx) as (y & Hy & Hxy).
  exists y. split; [done|]. split; [apply Hxy|].
  apply lsb_close_abs; [|done].
  destruct Hwf as [_ Hr]. rewrite Forall_lookup in Hr. eauto.
Qed.

Lemma lsb_embed_run h l cover secret_data :
  h !! l = Some cover →
  LSBSteganography.embed l secret_data h
  = if length (samples cover) <? length (encode secret_data)
    then (Raise CapacityError, h)
    else (Ok (fresh (dom h)),
          <[fresh (dom h) :=
              mk_ndarray (shape_of cover)
                (write_zip (encode secret_data)
                   (slots (shape_of cover) None (seq 0 (height (shape_of cover))))
                   (samples cover))]> h).
Proof.
  intros Hl. unfold LSBSteganography.embed, mbind, M_bind, bind, load.
  rewrite Hl. destruct (length (samples cover) <? length (encode secret_data)); [done|].
  unfold copy, mbind, M_bind, bind, load, alloc, update, mret, M_ret, ret.
  rewrite Hl, lookup_insert_eq. cbn [shape_of samples].
  rewrite insert_insert_eq, lsb_embed_rows_flat.
  by rewrite flat_embed_write_zip.
Qed.

Section WithGradient.
Variable compute_sobel_gradient : ndarray → list Z.

Lemma sobel_embed_run h l cover secret_data threshold :
  h !! l = Some cover →
  SobelAdaptiveSteganography.embed compute_sobel_gradient l secret_data threshold h
  = match SobelAdaptiveSteganography.choose_mask (compute_sobel_gradient cover)
            (shape_of cover) (Z.of_nat (length (encode secret_data))) threshold with
    | Raise e => (Raise e, h)
    | Ok (_, mask) =>
        (Ok (fresh (dom h)),
         <[fresh (dom h) :=
             mk_ndarray (shape_of cover)
               (write_zip (encode secret_data)
                  (slots (shape_of cover) (Some mask) (seq 0 (height (shape_of cover))))
                  (samples cover))]> h)
    end.
Proof.
  intros Hl. unfold SobelAdaptiveSteganography.embed, mbind, M_bind, bind, load.
  rewrite Hl.
  destruct (SobelAdaptiveSteganography.choose_mask _ _ _ _) as [[t mask]|e]; [|done].
  unfold copy, mbind, M_bind, bind, load, alloc, update, mret, M_ret, ret.
  rewrite Hl, lookup_insert_eq. cbn [shape_of samples].
  rewrite insert_insert_eq, sobel_embed_rows_flat.
  by rewrite flat_embed_write_zip.
Qed.

(** C10: when [LSBSteganography.embed] or [SobelAdaptiveSteganography.embed]
    succeeds on a well-formed cover, the stego image is a new array of the
    same shape whose every sample has the bits of the cover's above the
    least significant one (so differs from it by at most 1), and the cover
    and every other array of the heap are as they were. *)
Theorem embed_changes_only_lsb (h h' : gmap nat ndarray) (l l' : nat)
    (cover : ndarray) (secret_data : list N) (threshold : Z) :
  h !! l = Some cover → wf_ndarray cover →
  LSBSteganography.embed l secret_data h = (Ok l', h')
  ∨ SobelAdaptiveSteganography.embed compute_sobel_gradient l secret_data threshold h
    = (Ok l', h') →
  embedded h l cover l' h'.
Proof.
  intros Hl Hwf [Hrun|Hrun].
  - rewrite (lsb_embed_run _ _ _ _ Hl) in Hrun.
    destruct (_ <? _); [discriminate|]. injection Hrun as <- <-.
    by apply embedded_intro.
  - rewrite (sobel_embed_run _ _ _ _ _ Hl) in Hrun.
    destruct (SobelAdaptiveSteganography.choose_mask _ _ _ _) as [[t mask]|e];
      [|discriminate].
    injection Hrun as <- <-. by apply embedded_intro.
Qed.
End WithGradient.

(** C4 (as amended): [LSBSteganography.embed] raises [CapacityError] if
    and only if the length of the encoded payload exceeds the number of
    samples (H * W, or H * W * 3 for color), and then returns the heap it
    was given; otherwise, in particular at equality, it succeeds.  The
    encoded length is 8 * (len + 1) when every code point is at most 255. *)
Theorem lsb_embed_capacity (h : gmap nat ndarray) (l : nat) (cover : ndarray)
    (secret_data : list N) :
  h !! l = Some cover → length (samples cover) = numel (shape_of cover) →
  ((LSBSteganography.embed l secret_data h).1 = Raise CapacityError
     ↔ numel (shape_of cover) < length (encode secret_data))
  ∧ (numel (shape_of cover) < length (encode secret_data) →
     LSBSteganography.embed l secret_data h = (Raise CapacityError, h))
  ∧ (length (encode secret_data) ≤ numel (shape_of cover) →
     ∃ l', (LSBSteganography.embed l secret_data h).1 = Ok l')
  ∧ (Forall (fun c => (c ≤ 255)%N) secret_data →
     length (encode secret_data) = 8 * (length secret_data + 1))
  ∧ numel (shape_of cover)
    = match shape_of cover with Gray H W => H * W | Color H W => H * W * 3 end.
Proof.
  intros Hl Hlen. rewrite (lsb_embed_run _ _ _ _ Hl), Hlen.
  destruct (Nat.ltb_spec (numel (shape_of cover)) (length (encode secret_data))).
  all: repeat split; try done; try lia;
    try (by apply BitCodecFacts.encode_length_bytes);
    try (by destruct (shape_of cover)); by eexists.
Qed.

End EmbedFacts.

Module RelaxFacts.
Import Flat SobelAdaptiveSteganography.

Section Relaxation.
Variables (gradient : list Z) (s : shape) (data_len : Z).

Abbreviation cap := (Flat.cap gradient s).

Lemma np_sum_mask_mono (g : list Z) t1 t2 :
  (t1 ≤ t2)%Z →
  (np_sum (create_embedding_mask g t2) ≤ np_sum (create_embedding_mask g t1))%Z.
Proof.
  intros Ht. induction g as [|x g IH]; simpl; [done|].
  destruct (Z.ltb_spec t2 x), (Z.ltb_spec t1 x); lia.
Qed.

Lemma cap_mono t1 t2 : (t1 ≤ t2)%Z → (cap t2 ≤ cap t1)%Z.
Proof.
  intros Ht. unfold Flat.cap, available_capacity.
  pose proof (np_sum_mask_mono gradient t1 t2 Ht). destruct s; lia.
Qed.

(** The loop from the mask of threshold [t]: it stops at a threshold
    [t'] below [t] by a multiple of 5, with the mask of [t'], because the
    capacity suffices or [t'] is not positive; every threshold it passed
    was positive and insufficient. *)
Lemma relax_spec t :
  ∃ t', relax gradient s data_len t (create_embedding_mask gradient t)
        = (t', create_embedding_mask gradient t')
    ∧ (t' ≤ t)%Z ∧ ((t - t') mod 5 = 0)%Z
    ∧ (data_len ≤ cap t' ∨ t' ≤ 0)%Z
    ∧ (t' < t → -5 < t' ∧ cap (t' + 5) < data_len)%Z.
Proof.
  remember (Z.to_nat t) as n eqn:Hn. revert t Hn.
  induction n as [n IH] using lt_wf_ind. intros t Hn.
  rewrite relax_equation_1. 
  destruct (decide ((available_capacity s (create_embedding_mask gradient t) < data_len)%Z
                    ∧ (0 < t)%Z)) as [[Hc Ht]|Hstop]; simpl.
  - destruct (IH (Z.to_nat (t - 5)) ltac:(lia) (t - 5)%Z eq_refl)
      as (t' & Hr & Hle & Hmod & Hexit & Hpassed).
    exists t'. split; [done|]. split; [lia|]. split.
    { replace (t - t')%Z with ((t - 5 - t') + 1 * 5)%Z by lia.
      by rewrite Z.mod_add. }
    split; [done|]. intros _.
    destruct (decide (t' < t - 5)%Z) as [Hlt|Hge]; [by apply Hpassed|].
    assert (t' = t - 5)%Z as -> by lia.
    replace (t - 5 + 5)%Z with t by lia. split; [lia|done].
  - exists t. split; [done|]. split; [lia|]. split; [by rewrite Z.sub_diag|].
    split; [|lia]. fold (Flat.cap gradient s t) in Hstop. lia.
Qed.

Lemma last_threshold_unique t t' :
  (t' ≤ t)%Z → ((t - t') mod 5 = 0)%Z → (t' ≤ 0)%Z → (t' < t → -5 < t')%Z →
  (0 < t → t' < t)%Z →
  t' = last_threshold t.
Proof.
  intros Hle Hmod H0 Hlow Hpos. unfold last_threshold.
  apply Z.mod_divide in Hmod; [|lia]. destruct Hmod as [k Hk].
  destruct (Z.ltb_spec 0 t) as [Ht|Ht]; [|lia].
  specialize (Hlow (Hpos Ht)).
  assert (t = t' + k * 5)%Z as -> by lia.
  assert ((t' + k * 5 + 4) / 5 = k)%Z as ->; [|lia].
  replace (t' + k * 5 + 4)%Z with ((t' + 4) + k * 5)%Z by lia.
  rewrite Z.div_add by lia. rewrite Z.div_small; lia.
Qed.

Lemma last_threshold_le t : (last_threshold t ≤ t)%Z.
Proof.
  unfold last_threshold. destruct (Z.ltb_spec 0 t); [|lia].
  pose proof (Z.div_pos (t + 4) 5). lia.
Qed.

Lemma last_threshold_range t : (0 < t → -5 < last_threshold t ≤ 0)%Z.
Proof.
  intros Ht. unfold last_threshold. destruct (Z.ltb_spec 0 t); [|lia].
  pose proof (Z.div_mod (t + 4) 5). pose proof (Z.mod_pos_bound (t + 4) 5). lia.
Qed.

Lemma last_threshold_multiple t : (0 ≤ t)%Z → (t mod 5 = 0)%Z → last_threshold t = 0%Z.
Proof.
  intros Ht Hmod. unfold last_threshold. destruct (Z.ltb_spec 0 t); [|lia].
  apply Z.mod_divide in Hmod; [|lia]. destruct Hmod as [k ->].
  replace (k * 5 + 4)%Z with (4 + k * 5)%Z by lia.
  rewrite Z.div_add by lia. change (4 / 5)%Z with 0%Z. lia.
Qed.

(** The capacity check of [embed]. *)
Lemma choose_mask_spec threshold :
  (choose_mask gradient s data_len threshold = Raise CapacityError
     ∧ cap (last_threshold threshold) < data_len)%Z
  ∨ (∃ t', choose_mask gradient s data_len threshold
             = Ok (t', create_embedding_mask gradient t')
      ∧ (t' ≤ threshold)%Z ∧ ((threshold - t') mod 5 = 0)%Z
      ∧ (data_len ≤ cap t')%Z
      ∧ (t' < threshold → -5 < t' ∧ cap (t' + 5) < data_len)%Z
      ∧ (last_threshold threshold ≤ t')%Z).
Proof.
  unfold choose_mask. fold (Flat.cap gradient s threshold).
  destruct (Z.ltb_spec (cap threshold) data_len) as [Hc|Hc].
  - destruct (relax_spec threshold) as (t' & -> & Hle & Hmod & Hexit & Hpassed).
    fold (Flat.cap gradient s t').
    destruct (Z.ltb_spec (cap t') data_len) as [Hc'|Hc'].
    + left. split; [done|].
      assert (t' = last_threshold threshold) as <-; [|done].
      apply last_threshold_unique;
        [done|done|lia|intros Hlt; by apply Hpassed|].
      intros Ht. destruct (decide (t' = threshold)); lia.
    + right. exists t'. repeat split; try done; try lia; try (by apply Hpassed).
      destruct (decide (t' = threshold)) as [->|Hne]; [apply last_threshold_le|].
      assert (Hlt : (t' < threshold)%Z) by lia.
      destruct (Hpassed Hlt) as [Hlow Hcap].
      destruct (Z.ltb_spec 0 threshold) as [Hpos|Hnp].
      * pose proof (last_threshold_range threshold Hpos).
        destruct (decide (t' ≤ 0)%Z) as [Hn|Hp]; [|lia].
        assert (t' = last_threshold threshold) as <-; [|done].
        apply last_threshold_unique; [done|done|done|lia|lia].
      * (* a non-positive requested threshold is never relaxed *)
        exfalso. apply Z.mod_divide in Hmod; [|lia]. destruct Hmod as [k Hk]. lia.
  - right. exists threshold. repeat split; try done; try lia.
    + by rewrite Z.sub_diag.
    + apply last_threshold_le.
Qed.
End Relaxation.
End RelaxFacts.

Module RoundTripFacts.
Import Flat FlatFacts EmbedFacts BitCodecFacts.

(** *** The slots of a grayscale image *)

Lemma pixel_slots_gray h w p : pixel_slots (Gray h w) p = [p].
Proof. unfold pixel_slots. simpl. f_equal. lia. Qed.

Lemma row_slots_gray h w mask i a n :
  row_slots (Gray h w) mask i (seq a n)
  = filter (fun p => selected mask p = true) (seq (i * w + a) n).
Proof.
  revert a. induction n as [|n IH]; intros a; [done|].
  simpl seq. rewrite row_slots_cons, IH, pixel_slots_gray, filter_cons.
  unfold offset2. simpl width. replace (i * w + S a) with (S (i * w + a)) by lia.
  destruct (selected mask (i * w + a)); by case_decide.
Qed.

Lemma slots_gray_seq h w mask a n :
  slots (Gray h w) mask (seq a n)
  = filter (fun p => selected mask p = true) (seq (a * w) (n * w)).
Proof.
  revert a. induction n as [|n IH]; intros a; [done|].
  simpl seq. rewrite slots_cons, IH. simpl width. rewrite row_slots_gray.
  replace (S n * w) with (w + n * w) by lia.
  rewrite seq_app, filter_app. repeat f_equal; lia.
Qed.

Lemma slots_gray h w mask :
  slots (Gray h w) mask (seq 0 h)
  = filter (fun p => selected mask p = true) (seq 0 (h * w)).
Proof. apply slots_gray_seq. Qed.

Lemma slots_gray_NoDup h w mask : NoDup (slots (Gray h w) mask (seq 0 h)).
Proof. rewrite slots_gray. apply NoDup_filter, NoDup_seq. Qed.

Lemma slots_gray_bound h w mask :
  Forall (fun off => off < h * w) (slots (Gray h w) mask (seq 0 h)).
Proof.
  rewrite slots_gray. apply Forall_forall. intros off Hoff.
  apply list_elem_of_filter in Hoff as [_ Hoff]. apply elem_of_seq in Hoff. lia.
Qed.

Lemma slots_gray_all h w : slots (Gray h w) None (seq 0 h) = seq 0 (h * w).
Proof.
  rewrite slots_gray. induction (seq 0 (h * w)) as [|x l IH]; [done|].
  rewrite filter_cons_True by done. by rewrite IH.
Qed.

(** The number of pixels a 0/1 mask selects is its sum. *)
Lemma np_sum_selected (k mask : list Z) :
  Forall (fun x => x = 0%Z ∨ x = 1%Z) mask →
  SobelAdaptiveSteganography.np_sum mask
  = Z.of_nat (length (filter (fun p => selected (Some (k ++ mask)) p = true)
                        (seq (length k) (length mask)))).
Proof.
  revert k. induction mask as [|x mask IH]; intros k Hm; [done|].
  apply Forall_cons in Hm as [Hx Hm]. simpl length. simpl seq. rewrite filter_cons.
  rewrite list_lookup_total_middle by done.
  specialize (IH (k ++ [x]) Hm). rewrite <- app_assoc, length_app in IH. simpl in IH.
  rewrite Nat.add_1_r in IH. simpl SobelAdaptiveSteganography.np_sum. rewrite IH.
  destruct Hx as [-> | ->]; case_decide; try done; simpl length; lia.
Qed.

Lemma create_embedding_mask_bits gradient t :
  Forall (fun x => x = 0%Z ∨ x = 1%Z)
    (SobelAdaptiveSteganography.create_embedding_mask gradient t).
Proof.
  unfold SobelAdaptiveSteganography.create_embedding_mask.
  apply Forall_forall. intros x Hx. apply list_elem_of_fmap in Hx as (g & -> & _).
  destruct (t <? g)%Z; auto.
Qed.

Lemma create_embedding_mask_length gradient t :
  length (SobelAdaptiveSteganography.create_embedding_mask gradient t) = length gradient.
Proof. apply length_map. Qed.

Lemma cap_gray_slots gradient h w t :
  length gradient = h * w →
  cap gradient (Gray h w) t
  = Z.of_nat (length (slots (Gray h w)
                        (Some (SobelAdaptiveSteganography.create_embedding_mask gradient t))
                        (seq 0 h))).
Proof.
  intros Hlen. unfold cap. simpl.
  rewrite (np_sum_selected [] _ (create_embedding_mask_bits gradient t)).
  by rewrite slots_gray, create_embedding_mask_length, Hlen.
Qed.

(** *** Reading back what [write_zip] wrote *)

Lemma write_zip_frame bs offs buf off :
  off ∉ offs → write_zip bs offs buf !!! off = buf !!! off.
Proof.
  revert offs buf. induction bs as [|b bs IH]; intros [|o offs] buf Hoff; simpl; try done.
  apply not_elem_of_cons in Hoff as [Hne Hoff].
  rewrite IH by done. by rewrite list_lookup_total_insert_ne.
Qed.

Lemma str_lsb_write x b :
  (0 ≤ x < 256)%Z → is_digit b →
  str_lsb (Z.lor (Z.land x 254) (int_of_digit b)) = b.
Proof.
  intros Hx Hb. destruct (lsb_write_facts x (int_of_digit b) Hx (int_of_digit_bit b))
    as (_ & _ & Hl & _).
  unfold str_lsb. rewrite Hl. by destruct Hb as [-> | ->].
Qed.

Lemma write_zip_reads bs offs buf :
  NoDup offs → Forall (fun off => off < length buf) offs →
  Forall is_digit bs → Forall (fun x => (0 ≤ x < 256)%Z) buf →
  length bs ≤ length offs →
  map (fun off => str_lsb (write_zip bs offs buf !!! off)) offs
  = bs ++ map (fun off => str_lsb (buf !!! off)) (drop (length bs) offs).
Proof.
  revert offs buf. induction bs as [|b bs IH]; intros offs buf Hnd Hin Hdig Hrange Hlen.
  { by destruct offs. }
  destruct offs as [|o offs]; [simpl in Hlen; lia|].
  apply NoDup_cons in Hnd as [Ho Hnd]. apply Forall_cons in Hin as [Hob Hin].
  apply Forall_cons in Hdig as [Hb Hdig]. simpl in Hlen.
  simpl write_zip. simpl map. simpl drop.
  set (buf1 := <[o:=Z.lor (Z.land (buf !!! o) 254) (int_of_digit b)]> buf).
  assert (Hxo : (0 ≤ buf !!! o < 256)%Z).
  { destruct (lookup_lt_is_Some_2 buf o Hob) as [x Hx].
    rewrite (list_lookup_total_correct _ _ _ Hx).
    rewrite Forall_lookup in Hrange. eauto. }
  rewrite write_zip_frame by done.
  unfold buf1 at 1. rewrite list_lookup_total_insert_eq by done.
  rewrite str_lsb_write by done. simpl. f_equal.
  rewrite IH; try done; try lia.
  - f_equal. apply map_ext_in. intros off Hoff. unfold buf1.
    rewrite list_lookup_total_insert_ne; [done|].
    intros ->. apply Ho. apply list_elem_of_In in Hoff.
    apply list_elem_of_lookup in Hoff as [i Hi]. rewrite lookup_drop in Hi.
    eapply list_elem_of_lookup_2, Hi.
  - unfold buf1. by rewrite length_insert.
  - unfold buf1. apply Forall_insert; [done|].
    by destruct (lsb_write_facts _ _ Hxo (int_of_digit_bit b)).
Qed.

End RoundTripFacts.

Module ExtractFacts.
Import Flat FlatFacts EmbedFacts BitCodecFacts RoundTripFacts.

(** *** Decoding *)

Lemma flat_map_fmap {A B C} (f : B → list C) (g : A → B) (l : list A) :
  flat_map f (map g l) = flat_map (fun x => f (g x)) l.
Proof. induction l as [|x l IH]; [done|]. simpl. by rewrite IH. Qed.

Lemma range_step_8 n : range_step (8 + n) 8 = 0 :: map (fun b => b + 8) (range_step n 8).
Proof.
  unfold range_step.
  replace (8 + n + 8 - 1) with (1 * 8 + (n + 8 - 1)) by lia.
  rewrite Nat.div_add_l by lia. simpl seq. simpl map. f_equal.
  rewrite <- seq_shift, !map_map. apply map_ext. intros t. lia.
Qed.

Lemma decode_byte w bits :
  length w = 8 → decode (w ++ bits) = int_base2 w :: decode bits.
Proof.
  intros Hw. unfold decode. rewrite length_app, Hw, range_step_8.
  simpl flat_map. rewrite drop_0, take_app_length' by done. rewrite Hw. simpl.
  f_equal. rewrite flat_map_fmap. apply flat_map_ext. intros b.
  replace (b + 8) with (length w + b) by lia. by rewrite drop_app_add.
Qed.

Lemma decode_nil : decode [] = [].
Proof. reflexivity. Qed.

Lemma decode_format (secret_data : list N) :
  Forall (fun c => (c ≤ 255)%N) secret_data →
  decode (flat_map format_08b secret_data) = secret_data.
Proof.
  induction 1 as [|c p Hc _ IH]; [done|].
  simpl flat_map. rewrite decode_byte by by apply format_08b_length_byte.
  by rewrite int_base2_format_08b, IH.
Qed.

(** *** The terminator test *)

Lemma check_terminator_unaligned b :
  length b mod 8 ≠ 0 → LSBSteganography.check_terminator b = inr b.
Proof.
  intros Hb. unfold LSBSteganography.check_terminator.
  by destruct (Nat.eqb_spec (length b mod 8) 0).
Qed.

Lemma check_terminator_byte b w :
  length b mod 8 = 0 → length w = 8 →
  LSBSteganography.check_terminator (b ++ w)
  = if decide (w = terminator) then inl (decode b) else inr (b ++ w).
Proof.
  intros Hb Hw. unfold LSBSteganography.check_terminator, last8, drop_last8, bitstr_eqb.
  rewrite length_app, Hw.
  replace (length b + 8 - 8) with (length b) by lia.
  rewrite drop_app_length, take_app_length.
  replace ((length b + 8) mod 8) with 0; [|].
  - cbn [Nat.eqb andb]. case_bool_decide; by case_decide.
  - rewrite <- Nat.Div0.add_mod_idemp_l, Hb. done.
Qed.

Lemma sobel_check_terminator b c :
  SobelAdaptiveSteganography.check_terminator (b ++ [c])
  = LSBSteganography.check_terminator (b ++ [c]).
Proof.
  unfold SobelAdaptiveSteganography.check_terminator, LSBSteganography.check_terminator.
  destruct (Nat.eqb_spec (length (b ++ [c]) mod 8) 0) as [Hm|Hm]; [|done].
  destruct (Nat.leb_spec 8 (length (b ++ [c]))) as [Hl|Hl]; [done|].
  rewrite Nat.mod_small in Hm by lia. rewrite length_app in Hm. simpl in Hm. lia.
Qed.

(** *** Scanning *)

Lemma scan_app r1 r2 b :
  scan (r1 ++ r2) b
  = match scan r1 b with inl s => inl s | inr b' => scan r2 b' end.
Proof.
  revert b. induction r1 as [|c r1 IH]; intros b; [done|]. simpl.
  destruct (LSBSteganography.check_terminator (b ++ [c])); [done|]. apply IH.
Qed.

Lemma scan_short w r b :
  length b mod 8 + length w < 8 → scan (w ++ r) b = scan r (b ++ w).
Proof.
  revert b. induction w as [|c w IH]; intros b Hlen.
  { by rewrite app_nil_r. }
  rewrite length_cons in Hlen.
  assert (Hm : length (b ++ [c]) mod 8 = length b mod 8 + 1).
  { rewrite length_app. change (length [c]) with 1.
    rewrite <- Nat.Div0.add_mod_idemp_l. apply Nat.mod_small. lia. }
  change ((c :: w) ++ r) with (c :: (w ++ r)). cbn [scan].
  rewrite check_terminator_unaligned by lia.
  rewrite IH by lia. by rewrite <- app_assoc.
Qed.

Lemma scan_byte w r b :
  length b mod 8 = 0 → length w = 8 →
  scan (w ++ r) b = if decide (w = terminator) then inl (decode b) else scan r (b ++ w).
Proof.
  intros Hb Hw.
  assert (Hsplit : w = take 7 w ++ drop 7 w) by (by rewrite take_drop).
  destruct (drop 7 w) as [|c [|c' t]] eqn:Hd;
    try (apply (f_equal length) in Hd; rewrite length_drop, Hw in Hd; simpl in Hd; lia).
  assert (H7 : length (take 7 w) = 7) by (rewrite length_take; lia).
  rewrite Hsplit at 1. rewrite <- app_assoc, scan_short by lia.
  simpl scan. rewrite <- app_assoc, <- Hsplit, check_terminator_byte by done.
  by destruct (decide (w = terminator)).
Qed.

Lemma format_08b_not_terminator c : (0 < c)%N → format_08b c ≠ terminator.
Proof.
  intros Hc Heq. apply (f_equal int_base2) in Heq.
  rewrite int_base2_format_08b in Heq. vm_compute in Heq. lia.
Qed.

Lemma scan_encode (secret_data : list N) b rest :
  length b mod 8 = 0 →
  Forall (fun c => (0 < c ≤ 255)%N) secret_data →
  scan (encode secret_data ++ rest) b = inl (decode (b ++ flat_map format_08b secret_data)).
Proof.
  intros Hb Hp. revert b Hb. induction Hp as [|c p [Hc0 Hc] _ IH]; intros b Hb.
  - change (encode [] ++ rest) with (terminator ++ rest).
    rewrite scan_byte by done.
    rewrite decide_True by done. by rewrite app_nil_r.
  - rewrite encode_cons, <- app_assoc.
    assert (Hw : length (format_08b c) = 8) by by apply format_08b_length_byte.
    rewrite scan_byte by done.
    rewrite decide_False by by apply format_08b_not_terminator.
    rewrite IH.
    + simpl flat_map. by rewrite app_assoc.
    + rewrite length_app, Hw, <- Nat.Div0.add_mod_idemp_l, Hb. done.
Qed.

Lemma encode_digits secret_data : Forall is_digit (encode secret_data).
Proof.
  induction secret_data as [|c p IH].
  - repeat constructor; by left.
  - rewrite encode_cons. apply Forall_app. split; [apply format_08b_digits|done].
Qed.

(** Reading the slots of a buffer in which the encoded payload was
    written, and scanning what is read, gives the payload back. *)
Lemma scan_written (secret_data : list N) offs buf :
  NoDup offs → Forall (fun off => off < length buf) offs →
  Forall (fun x => (0 ≤ x < 256)%Z) buf →
  Forall (fun c => (0 < c ≤ 255)%N) secret_data →
  length (encode secret_data) ≤ length offs →
  scan (map (fun off => str_lsb (write_zip (encode secret_data) offs buf !!! off)) offs) []
  = inl secret_data.
Proof.
  intros Hnd Hin Hrange Hp Hlen.
  rewrite write_zip_reads by auto using encode_digits.
  rewrite scan_encode by done. simpl. f_equal. apply decode_format.
  eapply Forall_impl; [exact Hp|]. simpl. lia.
Qed.

(** *** The grayscale extraction loops as scans *)

Lemma pixel_bits_gray a h w i j :
  shape_of a = Gray h w →
  LSBSteganography.pixel_bits a i j = [str_lsb (samples a !!! offset2 (Gray h w) i j)].
Proof. intros Hs. unfold LSBSteganography.pixel_bits. by rewrite Hs. Qed.

Lemma lsb_extract_row_scan a h w i jrange b :
  shape_of a = Gray h w →
  LSBSteganography.extract_row a i jrange b
  = scan (reads a (row_slots (Gray h w) None i jrange)) b.
Proof.
  intros Hs. revert b. induction jrange as [|j jrange IH]; intros b; [done|].
  rewrite row_slots_cons. cbn [selected]. rewrite pixel_slots_gray.
  simpl. rewrite (pixel_bits_gray _ _ _ _ _ Hs).
  destruct (LSBSteganography.check_terminator _); [done|]. apply IH.
Qed.

Lemma lsb_extract_rows_scan a h w irange b :
  shape_of a = Gray h w →
  LSBSteganography.extract_rows a irange b
  = scan (reads a (slots (Gray h w) None irange)) b.
Proof.
  intros Hs. revert b. induction irange as [|i irange IH]; intros b; [done|].
  rewrite slots_cons. unfold reads. rewrite map_app, scan_app.
  simpl LSBSteganography.extract_rows. rewrite Hs.
  rewrite (lsb_extract_row_scan _ _ _ _ _ _ Hs). unfold reads.
  destruct (scan _ b); [done|]. apply IH.
Qed.

Lemma sobel_extract_row_scan a mask h w i jrange b :
  shape_of a = Gray h w →
  SobelAdaptiveSteganography.extract_row a mask i jrange b
  = scan (reads a (row_slots (Gray h w) (Some mask) i jrange)) b.
Proof.
  intros Hs. revert b. induction jrange as [|j jrange IH]; intros b; [done|].
  rewrite row_slots_cons. cbn [selected]. simpl SobelAdaptiveSteganography.extract_row.
  rewrite Hs. destruct (mask !!! offset2 (Gray h w) i j =? 1)%Z; [|apply IH].
  rewrite pixel_slots_gray. simpl. rewrite (pixel_bits_gray _ _ _ _ _ Hs).
  rewrite sobel_check_terminator.
  destruct (LSBSteganography.check_terminator _); [done|]. apply IH.
Qed.

Lemma sobel_extract_rows_scan a mask h w irange b :
  shape_of a = Gray h w →
  SobelAdaptiveSteganography.extract_rows a mask irange b
  = scan (reads a (slots (Gray h w) (Some mask) irange)) b.
Proof.
  intros Hs. revert b. induction irange as [|i irange IH]; intros b; [done|].
  rewrite slots_cons. unfold reads. rewrite map_app, scan_app.
  simpl SobelAdaptiveSteganography.extract_rows. rewrite Hs.
  rewrite (sobel_extract_row_scan _ _ _ _ _ _ _ Hs). unfold reads.
  destruct (scan _ b); [done|]. apply IH.
Qed.

End ExtractFacts.

Module RoundTrip.
Import Flat FlatFacts EmbedFacts BitCodecFacts RoundTripFacts ExtractFacts RelaxFacts.

Lemma payload_bytes (secret_data : list N) :
  Forall (fun c => (0 < c ≤ 255)%N) secret_data →
  Forall (fun c => (c ≤ 255)%N) secret_data.
Proof. intros H. eapply Forall_impl; [exact H|]. simpl. lia. Qed.

Lemma lsb_extract_written h l' H W (secret_data : list N) buf :
  length buf = H * W → Forall (fun x => (0 ≤ x < 256)%Z) buf →
  Forall (fun c => (0 < c ≤ 255)%N) secret_data →
  length (encode secret_data) ≤ H * W →
  let stego := mk_ndarray (Gray H W)
                 (write_zip (encode secret_data) (slots (Gray H W) None (seq 0 H)) buf) in
  LSBSteganography.extract l' (<[l' := stego]> h) = (Ok secret_data, <[l' := stego]> h).
Proof.
  intros Hlen Hrange Hp Hfit stego.
  unfold LSBSteganography.extract, mbind, M_bind, bind, load.
  rewrite lookup_insert_eq.
  rewrite (lsb_extract_rows_scan stego H W) by done.
  unfold reads, stego. cbn [samples shape_of height].
  rewrite scan_written; try done.
  - apply slots_gray_NoDup.
  - rewrite Hlen. apply slots_gray_bound.
  - by rewrite slots_gray_all, length_seq.
Qed.

Section WithGradient.
Variable compute_sobel_gradient : ndarray → list Z.

Lemma sobel_extract_written h l' H W (secret_data : list N) buf mask threshold :
  length buf = H * W → Forall (fun x => (0 ≤ x < 256)%Z) buf →
  Forall (fun c => (0 < c ≤ 255)%N) secret_data →
  length (encode secret_data) ≤ length (slots (Gray H W) (Some mask) (seq 0 H)) →
  let stego := mk_ndarray (Gray H W)
                 (write_zip (encode secret_data)
                    (slots (Gray H W) (Some mask) (seq 0 H)) buf) in
  SobelAdaptiveSteganography.create_embedding_mask (compute_sobel_gradient stego) threshold
    = mask →
  SobelAdaptiveSteganography.extract compute_sobel_gradient l' threshold (<[l' := stego]> h)
  = (Ok secret_data, <[l' := stego]> h).
Proof.
  intros Hlen Hrange Hp Hfit stego Hmask.
  unfold SobelAdaptiveSteganography.extract, mbind, M_bind, bind, load.
  rewrite lookup_insert_eq, Hmask.
  rewrite (sobel_extract_rows_scan stego mask H W) by done.
  unfold reads, stego. cbn [samples shape_of height].
  rewrite scan_written; try done.
  - apply slots_gray_NoDup.
  - rewrite Hlen. apply slots_gray_bound.
Qed.

(** C1 (as amended): on a grayscale cover, for a payload of characters
    1..255, [LSBSteganography.extract] after [LSBSteganography.embed]
    returns the payload whenever its 8 * (len + 1) bits fit the H * W
    samples; and [SobelAdaptiveSteganography.extract] after a successful
    [SobelAdaptiveSteganography.embed] returns the payload whenever the mask
    recomputed from the stego image at the threshold given to [extract],
    whichever it is, is the mask the embedding used (the gradient map
    having one value per pixel). *)
Theorem roundtrip_gray (h : gmap nat ndarray) (l H W : nat) (data : list Z)
    (secret_data : list N) (threshold : Z) :
  let cover := mk_ndarray (Gray H W) data in
  h !! l = Some cover → wf_ndarray cover →
  Forall (fun c => (0 < c ≤ 255)%N) secret_data →
  (8 * (length secret_data + 1) ≤ H * W →
   ∃ l' h', LSBSteganography.embed l secret_data h = (Ok l', h')
            ∧ LSBSteganography.extract l' h' = (Ok secret_data, h'))
  ∧ (∀ l' h' stego t' mask threshold',
       SobelAdaptiveSteganography.embed compute_sobel_gradient l secret_data threshold h
         = (Ok l', h') →
       h' !! l' = Some stego →
       length (compute_sobel_gradient cover) = H * W →
       SobelAdaptiveSteganography.choose_mask (compute_sobel_gradient cover) (Gray H W)
         (Z.of_nat (length (encode secret_data))) threshold = Ok (t', mask) →
       SobelAdaptiveSteganography.create_embedding_mask
         (compute_sobel_gradient stego) threshold' = mask →
       SobelAdaptiveSteganography.extract compute_sobel_gradient l' threshold' h'
       = (Ok secret_data, h')).
Proof.
  intros cover Hl [Hlen Hrange] Hp. cbn [samples shape_of numel cover] in Hlen, Hrange.
  pose proof (proj2 (encode_length_bytes secret_data) (payload_bytes _ Hp)) as Henc.
  split.
  - intros Hfit. rewrite (lsb_embed_run _ _ _ _ Hl). cbn [samples shape_of cover height].
    destruct (Nat.ltb_spec (length data) (length (encode secret_data))); [lia|].
    eexists _, _. split; [reflexivity|].
    apply lsb_extract_written; try done. lia.
  - intros l' h' stego t' mask threshold' Hrun Hstego Hg Hchoose Hmask.
    rewrite (sobel_embed_run _ _ _ _ _ _ Hl) in Hrun.
    cbn [samples shape_of cover height] in Hrun. rewrite Hchoose in Hrun.
    injection Hrun as <- <-. rewrite lookup_insert_eq in Hstego.
    injection Hstego as <-.
    apply sobel_extract_written; try done.
    destruct (choose_mask_spec (compute_sobel_gradient cover) (Gray H W)
                (Z.of_nat (length (encode secret_data))) threshold)
      as [[Hr _]|(t'' & Hok & _ & _ & Hcap & _)]; [congruence|].
    rewrite Hok in Hchoose. injection Hchoose as <- <-.
    rewrite (cap_gray_slots _ H W) in Hcap by done. lia.
Qed.
End WithGradient.

Lemma roundtrip_gray_witness :
  let h : gmap nat ndarray := {[ 0 := Examples.stripes_cover ]} in
  (∃ l' h', LSBSteganography.embed 0 [65%N] h = (Ok l', h')
            ∧ LSBSteganography.extract l' h' = (Ok [65%N], h'))
  ∧ (∃ l' h' mask,
       SobelAdaptiveSteganography.embed Examples.sobel_gradient 0 [65%N] 100 h = (Ok l', h')
       ∧ SobelAdaptiveSteganography.choose_mask
           (Examples.sobel_gradient Examples.stripes_cover) (Gray 1 20)
           (Z.of_nat (length (encode [65%N]))) 100 = Ok (100%Z, mask)
       ∧ mask !! 0 = Some 0%Z ∧ mask !! 1 = Some 1%Z
       ∧ SobelAdaptiveSteganography.extract Examples.sobel_gradient l' 100 h'
         = (Ok [65%N], h')).
Proof.
  intros h.
  destruct (roundtrip_gray Examples.sobel_gradient h 0 1 20
              (concat (repeat [0; 0; 255; 255]%Z 5)) [65%N] 100) as [HL HS].
  - reflexivity.
  - split; [reflexivity|]. vm_compute. repeat constructor; discriminate.
  - repeat constructor; lia.
  - split; [apply HL; simpl; lia|].
    set (run := SobelAdaptiveSteganography.embed Examples.sobel_gradient 0 [65%N] 100 h).
    exists 1, run.2, (0 :: repeat 1 18 ++ [0])%Z.
    split; [vm_compute; reflexivity|]. split; [vm_compute; reflexivity|].
    split; [reflexivity|]. split; [reflexivity|].
    apply (HS 1 run.2 (default Examples.stripes_cover (run.2 !! 1)) 100%Z
             (0 :: repeat 1 18 ++ [0])%Z 100%Z); vm_compute; reflexivity.
Defined.

(** C1 fails on a color cover, and for the gradient engine when the
    threshold was relaxed.  In a 1x8x3 image of samples 128 the payload "A"
    fits, but the terminator is only tested after each pixel, that is every
    three digits, so the first test on a whole byte happens at 24 digits,
    past the payload's own terminator, and [LSBSteganography.extract]
    returns "A" followed by the character 0.  On the 4x4 vertical-edge
    image with its gradient map, [SobelAdaptiveSteganography.embed] of "A"
    at threshold 3 relaxes the threshold to -2 and writes into all 16
    pixels, and [extract] at the same threshold 3 reads the 8 pixels of
    the two inner columns only and returns the character 128. *)
Lemma roundtrip_fails :
  let h : gmap nat ndarray := {[ 0 := Examples.color_cover ]} in
  let run := LSBSteganography.embed 0 [65%N] h in
  let h2 : gmap nat ndarray := {[ 0 := Examples.edge_cover ]} in
  let run2 :=
    SobelAdaptiveSteganography.embed (fun _ => Examples.edge_gradient) 0 [65%N] 3 h2 in
  (wf_ndarray Examples.color_cover
   ∧ Forall (fun c => (0 < c ≤ 255)%N) [65%N]
   ∧ 8 * (length [65%N] + 1) ≤ numel (shape_of Examples.color_cover)
   ∧ run.1 = Ok 1
   ∧ LSBSteganography.extract 1 run.2 = (Ok [65%N; 0%N], run.2)
   ∧ [65%N; 0%N] ≠ [65%N])
  ∧ (wf_ndarray Examples.edge_cover
     ∧ run2.1 = Ok 1
     ∧ SobelAdaptiveSteganography.extract (fun _ => Examples.edge_gradient) 1 3 run2.2
       = (Ok [128%N], run2.2)
     ∧ [128%N] ≠ [65%N]).
Proof.
  intros h run h2 run2. split.
  - split; [split; [reflexivity|]|].
    { apply Forall_forall. intros x Hx. apply list_elem_of_In, repeat_spec in Hx. lia. }
    split; [repeat constructor; lia|]. split; [simpl; lia|].
    split; [vm_compute; reflexivity|]. split; [vm_compute; reflexivity|discriminate].
  - split; [split; [reflexivity|repeat constructor; lia]|].
    split; [vm_compute; reflexivity|]. split; [vm_compute; reflexivity|discriminate].
Qed.

End RoundTrip.

Module ThresholdRelaxation.
Import Flat FlatFacts EmbedFacts RelaxFacts SobelAdaptiveSteganography.

Lemma last_threshold_congruent t : ((t - last_threshold t) mod 5 = 0)%Z.
Proof.
  unfold last_threshold. destruct (0 <? t)%Z.
  - replace (t - (t - 5 * ((t + 4) / 5)))%Z with (((t + 4) / 5) * 5)%Z by lia.
    apply Z.mod_mul. lia.
  - by rewrite Z.sub_diag.
Qed.

Lemma last_threshold_zero_iff t :
  (0 ≤ t)%Z → last_threshold t = 0%Z ↔ (t mod 5 = 0)%Z.
Proof.
  intros Ht. split; [|by apply last_threshold_multiple].
  intros Hz. pose proof (last_threshold_congruent t) as Hc.
  by rewrite Hz, Z.sub_0_r in Hc.
Qed.

(** The mask of a negative threshold on a gradient map without negative
    values: every pixel, among them those of gradient 0 that the mask of
    threshold 0 leaves out. *)
Lemma negative_threshold_mask gradient t' :
  Forall (fun g => (0 ≤ g)%Z) gradient → (t' < 0)%Z →
  Forall (fun m => m = 1%Z) (create_embedding_mask gradient t')
  ∧ Forall2 Z.le (create_embedding_mask gradient 0) (create_embedding_mask gradient t')
  ∧ ∀ p, gradient !! p = Some 0%Z →
      create_embedding_mask gradient 0 !! p = Some 0%Z
      ∧ create_embedding_mask gradient t' !! p = Some 1%Z.
Proof.
  intros Hpos Ht. unfold create_embedding_mask. split; [|split].
  - induction Hpos as [|g gradient Hg _ IH]; [constructor|].
    cbn [map]. constructor; [|done]. by destruct (Z.ltb_spec t' g); [|lia].
  - induction Hpos as [|g gradient Hg _ IH]; [constructor|].
    cbn [map]. constructor; [|done].
    destruct (Z.ltb_spec 0 g), (Z.ltb_spec t' g); lia.
  - intros p Hp. rewrite !list_lookup_fmap, Hp. simpl.
    by destruct (Z.ltb_spec t' 0); [|lia].
Qed.

Section WithGradient.
Variable compute_sobel_gradient : ndarray → list Z.

(** The heap a successful [embed] returns when it embeds with [mask]. *)
Lemma sobel_embed_with_mask h l cover secret_data threshold t mask :
  h !! l = Some cover →
  choose_mask (compute_sobel_gradient cover) (shape_of cover)
    (Z.of_nat (length (encode secret_data))) threshold = Ok (t, mask) →
  embed compute_sobel_gradient l secret_data threshold h
  = (Ok (fresh (dom h)),
     <[fresh (dom h) :=
         mk_ndarray (shape_of cover)
           (embed_rows (shape_of cover) mask (encode secret_data)
              (length (encode secret_data)) (seq 0 (height (shape_of cover)))
              (samples cover, 0)).1]> h).
Proof.
  intros Hl Hc. rewrite (sobel_embed_run _ _ _ _ _ _ Hl), Hc.
  by rewrite sobel_embed_rows_flat, flat_embed_write_zip.
Qed.

(** C5 (as amended): from a requested threshold the loop tries
    [threshold], [threshold - 5], ... and stops at the first one whose
    capacity suffices, or at [last_threshold threshold], the first of them
    that is not positive.  [embed] raises [CapacityError], leaving the heap
    as it was, exactly when the capacity at [last_threshold threshold] is
    insufficient; otherwise it embeds with the mask of an effective
    threshold [t'] between [last_threshold threshold] and [threshold], a
    multiple of 5 below the latter, every threshold above [t'] having been
    insufficient.  [last_threshold] is the requested threshold itself when
    that is not positive, and otherwise the one value in (-5, 0] that
    differs from it by a multiple of 5: it is 0 exactly for the
    non-negative multiples of 5 and negative for every other positive
    threshold.  The mask of a negative threshold selects every pixel of a
    gradient map without negative values and so contains the mask of
    threshold 0, which leaves out the pixels of gradient 0. *)
Theorem sobel_embed_relaxation (h : gmap nat ndarray) (l : nat) (cover : ndarray)
    (secret_data : list N) (threshold : Z) :
  let gradient := compute_sobel_gradient cover in
  let s := shape_of cover in
  let data_len := length (encode secret_data) in
  h !! l = Some cover →
  ((embed compute_sobel_gradient l secret_data threshold h).1 = Raise CapacityError
     ↔ (cap gradient s (last_threshold threshold) < Z.of_nat data_len)%Z)
  ∧ ((cap gradient s (last_threshold threshold) < Z.of_nat data_len)%Z →
     embed compute_sobel_gradient l secret_data threshold h = (Raise CapacityError, h))
  ∧ ((Z.of_nat data_len ≤ cap gradient s (last_threshold threshold))%Z →
     ∃ t', (last_threshold threshold ≤ t' ≤ threshold)%Z
           ∧ ((threshold - t') mod 5 = 0)%Z
           ∧ (Z.of_nat data_len ≤ cap gradient s t')%Z
           ∧ (t' < threshold → cap gradient s (t' + 5) < Z.of_nat data_len)%Z
           ∧ embed compute_sobel_gradient l secret_data threshold h
             = (Ok (fresh (dom h)),
                <[fresh (dom h) :=
                    mk_ndarray s
                      (embed_rows s (create_embedding_mask gradient t')
                         (encode secret_data) data_len (seq 0 (height s))
                         (samples cover, 0)).1]> h))
  ∧ (threshold ≤ 0 → last_threshold threshold = threshold)%Z
  ∧ (0 < threshold →
     -5 < last_threshold threshold ≤ 0
     ∧ (threshold - last_threshold threshold) mod 5 = 0)%Z
  ∧ (0 ≤ threshold → last_threshold threshold = 0 ↔ threshold mod 5 = 0)%Z
  ∧ (0 < threshold → threshold mod 5 ≠ 0 → last_threshold threshold < 0)%Z
  ∧ (Forall (fun g => (0 ≤ g)%Z) gradient → ∀ t', (t' < 0)%Z →
     Forall (fun m => m = 1%Z) (create_embedding_mask gradient t')
     ∧ Forall2 Z.le (create_embedding_mask gradient 0)
         (create_embedding_mask gradient t')
     ∧ ∀ p, gradient !! p = Some 0%Z →
         create_embedding_mask gradient 0 !! p = Some 0%Z
         ∧ create_embedding_mask gradient t' !! p = Some 1%Z).
Proof.
  intros gradient s data_len Hl.
  assert (Hlast : (threshold ≤ 0 → last_threshold threshold = threshold)%Z).
  { intros Ht. unfold last_threshold. by destruct (Z.ltb_spec 0 threshold); [lia|]. }
  assert (Hrange : (0 < threshold →
                    -5 < last_threshold threshold ≤ 0
                    ∧ (threshold - last_threshold threshold) mod 5 = 0)%Z).
  { intros Ht. split; [by apply last_threshold_range|apply last_threshold_congruent]. }
  assert (Hmult : (0 ≤ threshold →
                   last_threshold threshold = 0 ↔ threshold mod 5 = 0)%Z)
    by apply last_threshold_zero_iff.
  assert (Hneg : (0 < threshold → threshold mod 5 ≠ 0 →
                  last_threshold threshold < 0)%Z).
  { intros Ht Hm. pose proof (last_threshold_range threshold Ht).
    assert (last_threshold threshold ≠ 0%Z); [|lia].
    intros Hz. apply Hm, Hmult; [lia|done]. }
  assert (Hmask : Forall (fun g => (0 ≤ g)%Z) gradient → ∀ t', (t' < 0)%Z →
            Forall (fun m => m = 1%Z) (create_embedding_mask gradient t')
            ∧ Forall2 Z.le (create_embedding_mask gradient 0)
                (create_embedding_mask gradient t')
            ∧ ∀ p, gradient !! p = Some 0%Z →
                create_embedding_mask gradient 0 !! p = Some 0%Z
                ∧ create_embedding_mask gradient t' !! p = Some 1%Z)
    by (intros; by apply negative_threshold_mask).
  pose proof (last_threshold_range threshold) as Hrange'.
  destruct (choose_mask_spec gradient s (Z.of_nat data_len) threshold)
    as [[Hr Hcap]|(t' & Hok & Hle & Hmod & Hcap & Hpassed & Hlow)].
  - assert (Hrun : embed compute_sobel_gradient l secret_data threshold h
                   = (Raise CapacityError, h)).
    { rewrite (sobel_embed_run _ _ _ _ _ _ Hl). fold gradient s data_len. by rewrite Hr. }
    rewrite Hrun.
    split; [split; [done|by intros _]|]. split; [done|]. split; [lia|].
    split; [done|]. split; [done|]. split; [done|]. split; [done|]. done.
  - pose proof (sobel_embed_with_mask h l cover secret_data threshold _ _ Hl Hok) as Hrun.
    pose proof (cap_mono gradient s _ _ Hlow) as Hmono.
    rewrite Hrun.
    split; [split; [done|cbn; lia]|]. split; [lia|].
    split; [|split; [done|]; split; [done|]; split; [done|]; split; [done|]; done].
    intros _. exists t'. repeat split; try done; try lia.
Qed.
End WithGradient.

Lemma sobel_embed_relaxation_witness :
  let h : gmap nat ndarray := {[ 0 := Examples.edge_cover ]} in
  embed (fun _ => Examples.edge_gradient) 0 [65%N; 66%N] 3 h = (Raise CapacityError, h).
Proof.
  intros h.
  destruct (sobel_embed_relaxation (fun _ => Examples.edge_gradient) h 0
              Examples.edge_cover [65%N; 66%N] 3) as (_ & H & _); [reflexivity|].
  apply H. vm_compute. reflexivity.
Defined.

(** C5 fails for a threshold that is not a multiple of 5: with the
    vertical-edge gradient map, threshold 3 and the payload "A" (16 bits),
    the capacity at threshold 0 is 8 bits, which is insufficient, yet the
    loop goes on to threshold -2, whose mask selects all 16 pixels (pixel 0,
    of gradient 0, among them), and [embed] succeeds. *)
Lemma relaxation_passes_zero :
  let h : gmap nat ndarray := {[ 0 := Examples.edge_cover ]} in
  let data_len := Z.of_nat (length (encode [65%N])) in
  (cap Examples.edge_gradient (Gray 4 4) 0 < data_len)%Z
  ∧ choose_mask Examples.edge_gradient (Gray 4 4) data_len 3 = Ok ((-2)%Z, repeat 1%Z 16)
  ∧ (embed (fun _ => Examples.edge_gradient) 0 [65%N] 3 h).1 = Ok 1
  ∧ create_embedding_mask Examples.edge_gradient 0 !! 0 = Some 0%Z
  ∧ repeat 1%Z 16 !! 0 = Some 1%Z.
Proof.
  intros h data_len. split; [vm_compute; reflexivity|].
  split; [vm_compute; reflexivity|]. split; [vm_compute; reflexivity|].
  split; reflexivity.
Qed.

End ThresholdRelaxation.

Module EmbedExamples.
Import EmbedFacts.

Lemma lsb_embed_capacity_witness :
  let h : gmap nat ndarray := {[ 0 := Examples.gray_cover ]} in
  ∃ l', (LSBSteganography.embed 0 [65%N] h).1 = Ok l'.
Proof.
  intros h.
  destruct (lsb_embed_capacity h 0 Examples.gray_cover [65%N]) as (_ & _ & H & _);
    [reflexivity|reflexivity|].
  apply H. vm_compute. lia.
Defined.

(** C4 fails for a code point above 255: 8 * (1 + 1) = 16 does not exceed
    the 16 samples of a 4x4 grayscale image, yet embedding the character
    256, which is encoded on 17 digits, raises [CapacityError]. *)
Lemma lsb_capacity_wide_character :
  let h : gmap nat ndarray := {[ 0 := Examples.gray_cover ]} in
  8 * (length [256%N] + 1) ≤ numel (shape_of Examples.gray_cover)
  ∧ LSBSteganography.embed 0 [256%N] h = (Raise CapacityError, h).
Proof. intros h. split; [simpl; lia|]. vm_compute. reflexivity. Qed.

Lemma embed_changes_only_lsb_witness :
  let h : gmap nat ndarray := {[ 0 := Examples.gray_cover ]} in
  Flat.embedded h 0 Examples.gray_cover 1 (LSBSteganography.embed 0 [65%N] h).2.
Proof.
  intros h.
  apply (embed_changes_only_lsb Examples.sobel_gradient h _ 0 1 Examples.gray_cover [65%N] 30).
  - reflexivity.
  - split; [reflexivity|]. apply Forall_forall. intros x Hx.
    apply list_elem_of_In, repeat_spec in Hx. lia.
  - left. vm_compute. reflexivity.
Defined.

End EmbedExamples.

Module LSBFacts.
Import LSBSteganography.

(** C9: [get_embedding_capacity] returns (H * W * 3) // 8 for a color image
    of shape (H, W, 3) and (H * W) // 8 for a grayscale image of shape
    (H, W). *)
Theorem get_embedding_capacity_formula (h : gmap nat ndarray) (l H W : nat) (data : list Z) :
  get_embedding_capacity l (<[l := mk_ndarray (Color H W) data]> h)
    = (Ok ((H * W * 3) / 8), <[l := mk_ndarray (Color H W) data]> h)
  ∧ get_embedding_capacity l (<[l := mk_ndarray (Gray H W) data]> h)
    = (Ok ((H * W) / 8), <[l := mk_ndarray (Gray H W) data]> h).
Proof.
  unfold get_embedding_capacity, mbind, M_bind, bind, load.
  rewrite !lookup_insert_eq. split; reflexivity.
Qed.
End LSBFacts.

Module AttackFacts.
Import AttackSimulator.
Section WithOpenCV.
Variable jpeg_codec : ndarray → Z → list Z.
Variable cv2_resize : ndarray → nat → nat → list Z.
Variable cv2_GaussianBlur : ndarray → Z → Q → list Z.
Variable noisy_samples : ndarray → Q → Q → list Z.
Variable float_mul_int : nat → Q → nat.

Lemma alloc_ok (a : ndarray) (h : gmap nat ndarray) :
  ∃ l, alloc a h = (Ok l, <[l := a]> h) ∧ h !! l = None.
Proof.
  exists (fresh (dom h)). split; [reflexivity|].
  apply not_elem_of_dom, is_fresh.
Qed.

Lemma jpeg_compression_guard image quality h :
  (quality < 1 ∨ 100 < quality)%Z →
  jpeg_compression jpeg_codec cv2_resize image quality h = (Raise InvalidParameterError, h).
Proof.
  intros Hq. unfold jpeg_compression.
  destruct (quality <? 1)%Z eqn:E1; [reflexivity|].
  destruct (100 <? quality)%Z eqn:E2; [reflexivity|]. lia.
Qed.

Lemma jpeg_compression_in_range image quality h :
  (1 ≤ quality ≤ 100)%Z →
  (jpeg_compression jpeg_codec cv2_resize image quality h).1 ≠ Raise InvalidParameterError.
Proof.
  intros Hq. unfold jpeg_compression.
  destruct (quality <? 1)%Z eqn:E1; [lia|].
  destruct (100 <? quality)%Z eqn:E2; [lia|]. cbn [orb].
  unfold mbind, M_bind, bind, load.
  destruct (h !! image) as [a|]; [|discriminate].
  destruct (numel (shape_of a) =? 0); [discriminate|].
  case_bool_decide; discriminate.
Qed.

Lemma crop_attack_guard image crop_ratio h :
  (crop_ratio <= 0 ∨ 1 <= crop_ratio)%Q →
  crop_attack cv2_resize float_mul_int image crop_ratio h = (Raise InvalidParameterError, h).
Proof.
  intros Hr. unfold crop_attack.
  destruct (Qle_bool crop_ratio 0) eqn:E1; [reflexivity|].
  destruct (Qle_bool 1 crop_ratio) eqn:E2; [reflexivity|].
  destruct Hr as [Hr|Hr]; apply Qle_bool_iff in Hr; congruence.
Qed.

Lemma crop_attack_in_range image crop_ratio h :
  (0 < crop_ratio ∧ crop_ratio < 1)%Q →
  (crop_attack cv2_resize float_mul_int image crop_ratio h).1 ≠ Raise InvalidParameterError.
Proof.
  intros [H0 H1]. unfold crop_attack.
  destruct (Qle_bool crop_ratio 0) eqn:E1.
  { apply Qle_bool_iff in E1. destruct (Qlt_not_le _ _ H0 E1). }
  destruct (Qle_bool 1 crop_ratio) eqn:E2.
  { apply Qle_bool_iff in E2. destruct (Qlt_not_le _ _ H1 E2). }
  cbn [orb]. unfold mbind, M_bind, bind, load.
  destruct (h !! image) as [a|]; [|discriminate].
  match goal with |- context [if ?c then _ else _] => destruct c end; discriminate.
Qed.

(** The shape of what each operator returns: the input's shape for the
    blur, the crop and the noise, and always three channels for the JPEG
    round trip. *)
Lemma attack_result_shapes (h h' : gmap nat ndarray) (image l : nat) (img : ndarray)
    (quality kernel_size : Z) (sigma crop_ratio mean : Q) :
  h !! image = Some img →
  (jpeg_compression jpeg_codec cv2_resize image quality h = (Ok l, h') →
   ∃ a, h' !! l = Some a
        ∧ shape_of a = Color (height (shape_of img)) (width (shape_of img)))
  ∧ (gaussian_blur cv2_GaussianBlur image kernel_size sigma h = (Ok l, h') →
     ∃ a, h' !! l = Some a ∧ shape_of a = shape_of img)
  ∧ (crop_attack cv2_resize float_mul_int image crop_ratio h = (Ok l, h') →
     ∃ a, h' !! l = Some a ∧ shape_of a = shape_of img)
  ∧ (gaussian_noise noisy_samples image mean sigma h = (Ok l, h') →
     ∃ a, h' !! l = Some a ∧ shape_of a = shape_of img).
Proof.
  intros Himg.
  unfold jpeg_compression, gaussian_blur, crop_attack, gaussian_noise,
    mbind, M_bind, bind, load, alloc, raise.
  split; [|split; [|split]];
    repeat (cbv beta iota zeta; rewrite ?Himg;
            match goal with
            | |- context [if ?c then _ else _] => destruct c eqn:?
            end; try discriminate);
    cbv beta iota zeta; rewrite ?Himg; cbv beta iota zeta;
    intros [= <- <-]; eexists; (split; [apply lookup_insert_eq|]);
    cbn [shape_of slice2]; try done; by destruct (shape_of img).
Qed.

(** C6: [jpeg_compression] raises [InvalidParameterError] exactly when
    [quality] is below 1 or above 100, so for 0 and for 101, and
    [crop_attack] exactly when [crop_ratio] is at most 0 or at least 1, so
    for 0 and for 1; when they do, the heap is returned as it was. *)
Theorem parameter_validation (image : nat) (quality : Z) (crop_ratio : Q)
    (h : gmap nat ndarray) :
  ((jpeg_compression jpeg_codec cv2_resize image quality h).1 = Raise InvalidParameterError
     ↔ (quality < 1 ∨ 100 < quality)%Z)
  ∧ ((quality < 1 ∨ 100 < quality)%Z →
     (jpeg_compression jpeg_codec cv2_resize image quality h).2 = h)
  ∧ jpeg_compression jpeg_codec cv2_resize image 0 h = (Raise InvalidParameterError, h)
  ∧ jpeg_compression jpeg_codec cv2_resize image 101 h = (Raise InvalidParameterError, h)
  ∧ ((crop_attack cv2_resize float_mul_int image crop_ratio h).1 = Raise InvalidParameterError
     ↔ (crop_ratio <= 0 ∨ 1 <= crop_ratio)%Q)
  ∧ ((crop_ratio <= 0 ∨ 1 <= crop_ratio)%Q →
     (crop_attack cv2_resize float_mul_int image crop_ratio h).2 = h)
  ∧ crop_attack cv2_resize float_mul_int image 0 h = (Raise InvalidParameterError, h)
  ∧ crop_attack cv2_resize float_mul_int image 1 h = (Raise InvalidParameterError, h).
Proof.
  repeat split.
  - intros Hr. destruct (Z_lt_dec quality 1); [auto|].
    destruct (Z_lt_dec 100 quality); [auto|].
    exfalso. apply (jpeg_compression_in_range image quality h); [lia|done].
  - intros Hq. by rewrite jpeg_compression_guard.
  - intros Hq. by rewrite jpeg_compression_guard.
  - intros Hr. destruct (Qlt_le_dec 0 crop_ratio); [|auto].
    destruct (Qlt_le_dec crop_ratio 1); [|auto].
    exfalso. by apply (crop_attack_in_range image crop_ratio h).
  - intros Hq. by rewrite crop_attack_guard.
  - intros Hq. by rewrite crop_attack_guard.
Qed.

(** C2, at a grayscale input: [jpeg_compression] of an 8x8 grayscale
    image at quality 75 returns an 8x8x3 array, because [cv2.imread]
    always returns three channels and the resize that follows the shape
    test keeps them. *)
Theorem jpeg_compression_gray_returns_color (h : gmap nat ndarray) (image : nat) :
  let img := mk_ndarray (Gray 8 8) (repeat 128%Z 64) in
  ∃ l a, jpeg_compression jpeg_codec cv2_resize image 75 (<[image := img]> h)
           = (Ok l, <[l := a]> (<[image := img]> h))
         ∧ shape_of a = Color 8 8
         ∧ shape_of a ≠ shape_of img.
Proof.
  intros img. unfold jpeg_compression.
  change ((75 <? 1)%Z || (100 <? 75)%Z) with false. cbv iota.
  unfold mbind, M_bind, bind, load. rewrite lookup_insert_eq.
  change (numel (shape_of img) =? 0) with false. cbv iota.
  rewrite bool_decide_eq_true_2 by discriminate.
  eexists _, _. split; [reflexivity|]. split; [reflexivity|discriminate].
Qed.
End WithOpenCV.
End AttackFacts.

Module MetricsFacts.
Import Metrics.


Lemma ratio_bounds (a b : nat) :
  a ≤ b → 0 < b →
  (0 <= inject_Z (Z.of_nat a) / inject_Z (Z.of_nat b)
   ∧ inject_Z (Z.of_nat a) / inject_Z (Z.of_nat b) <= 1)%Q.
Proof.
  intros Hab Hb.
  assert (Hpos : (0 < inject_Z (Z.of_nat b))%Q).
  { change 0%Q with (inject_Z 0). rewrite <- Zlt_Qlt. lia. }
  split.
  - apply Qle_shift_div_l; [done|]. rewrite Qmult_0_l.
    change 0%Q with (inject_Z 0). rewrite <- Zle_Qle. lia.
  - apply Qle_shift_div_r; [done|]. rewrite Qmult_1_l.
    rewrite <- Zle_Qle. lia.
Qed.

Lemma py_div_ok a b : 0 < b → py_div a b = Ok (inject_Z (Z.of_nat a) / inject_Z (Z.of_nat b))%Q.
Proof. intros Hb. unfold py_div. destruct (Nat.eqb_spec b 0); [lia|done]. Qed.

Lemma calculate_ber_text_nonempty (o e : list N) :
  o ≠ [] → e ≠ [] →
  calculate_ber_text (Some o) (Some e)
  = Ok (inject_Z (Z.of_nat (Flat.error_count o e)) / inject_Z (Z.of_nat (length o)))%Q.
Proof.
  intros Ho He. unfold calculate_ber_text, Flat.error_count.
  assert (0 < length o) by (destruct o; [done|simpl; lia]).
  assert (0 < length e) by (destruct e; [done|simpl; lia]).
  destruct (Nat.eqb_spec (length o `min` length e) 0); [lia|].
  destruct (Nat.ltb_spec (length o `min` length e) (length o)).
  - rewrite py_div_ok by done. do 3 f_equal. lia.
  - rewrite py_div_ok by done. do 3 f_equal. lia.
Qed.




(** *** PSNR *)

Lemma sum_squared_errors_nonneg a b : (0 ≤ foldr Z.add 0 (squared_errors a b))%Z.
Proof.
  unfold squared_errors.
  revert b. induction a as [|x a IH]; intros [|y b]; simpl; try lia.
  specialize (IH b).
  rewrite Z.pow_2_r. pose proof (Z.square_nonneg (x - y)). lia.
Qed.

Lemma sum_squared_errors_zero a b :
  length a = length b →
  (foldr Z.add 0 (squared_errors a b) = 0)%Z ↔ a = b.
Proof.
  unfold squared_errors.
  revert b. induction a as [|x a IH]; intros [|y b] Hlen; simpl in *; try done.
  injection Hlen as Hlen. specialize (IH b Hlen).
  pose proof (sum_squared_errors_nonneg a b) as Hn. unfold squared_errors in *.
  rewrite Z.pow_2_r. pose proof (Z.square_nonneg (x - y)) as Hsq.
  split.
  - intros Hs. assert (Hxy : ((x - y) * (x - y) = 0)%Z) by lia.
    apply Z.mul_eq_0 in Hxy. assert (x = y) by lia. subst y.
    f_equal. apply IH. lia.
  - intros [= -> <-]. destruct IH as [_ IH]. rewrite IH by done. lia.
Qed.

Lemma np_mean_zero (xs : list Z) :
  xs ≠ [] →
  ∃ mse, np_mean xs = Some mse ∧ (Qeq_bool mse 0 = true ↔ foldr Z.add 0%Z xs = 0%Z).
Proof.
  intros Hxs. destruct xs as [|x xs]; [done|].
  eexists; split; [reflexivity|]. rewrite Qeq_bool_iff.
  set (s := foldr Z.add 0%Z (x :: xs)). 
  unfold Qeq, Qdiv, Qmult, Qinv, inject_Z. cbn [Qnum Qden length].
  rewrite Nat2Z.inj_succ. 
  destruct (Z.succ (Z.of_nat (length xs))) eqn:E; try lia. cbn. lia.
Qed.

Lemma squared_errors_length a b : length a = length b → length (squared_errors a b) = length a.
Proof. intros H. unfold squared_errors. rewrite length_zip_with. lia. Qed.

(** C7: [calculate_psnr] raises [ShapeMismatchError] when the shapes
    differ; for two images of one shape it returns +infinity if and only if
    their samples are equal, and so for an image and itself.  The images
    are arrays of [uint8] samples with at least one sample, as every array
    the program reads or makes is. *)
Theorem calculate_psnr_spec (h : gmap nat ndarray) (original modified : nat) (a b : ndarray) :
  h !! original = Some a → h !! modified = Some b →
  (shape_of a ≠ shape_of b →
   calculate_psnr original modified h = (Raise ShapeMismatchError, h))
  ∧ (shape_of a = shape_of b → wf_ndarray a → wf_ndarray b →
     numel (shape_of a) ≠ 0 →
     (calculate_psnr original modified h = (Ok PosInf, h) ↔ samples a = samples b))
  ∧ (wf_ndarray a → numel (shape_of a) ≠ 0 →
     calculate_psnr original original h = (Ok PosInf, h)).
Proof.
  intros Ha Hb.
  assert (∀ m b', h !! m = Some b' →
            shape_of a = shape_of b' → wf_ndarray a → wf_ndarray b' →
            numel (shape_of a) ≠ 0 →
            (calculate_psnr original m h = (Ok PosInf, h) ↔ samples a = samples b'))
    as Hinf.
  { intros m b' Hb' Hs [Hla _] [Hlb _] Hne.
    unfold calculate_psnr, mbind, M_bind, bind, load. rewrite Ha, Hb'.
    rewrite bool_decide_eq_false_2 by (intros ?; done).
    assert (Hlen : length (samples a) = length (samples b')) by congruence.
    destruct (np_mean_zero (squared_errors (samples a) (samples b'))) as (mse & -> & Hz).
    { intros Hnil. apply (f_equal length) in Hnil.
      rewrite squared_errors_length in Hnil by done. simpl in Hnil. congruence. }
    rewrite <- (sum_squared_errors_zero _ _ Hlen), <- Hz.
    destruct (Qeq_bool mse 0); split; try done; discriminate. }
  split; [|split].
  - intros Hs. unfold calculate_psnr, mbind, M_bind, bind, load.
    rewrite Ha, Hb. by rewrite bool_decide_eq_true_2.
  - by apply Hinf.
  - intros Hwf Hne. by apply (Hinf original a).
Qed.

Lemma calculate_psnr_spec_witness :
  calculate_psnr 0 0 {[ 0 := Examples.px2 ]} = (Ok PosInf, {[ 0 := Examples.px2 ]}).
Proof.
  destruct (calculate_psnr_spec {[ 0 := Examples.px2 ]} 0 0 Examples.px2 Examples.px2)
    as (_ & H & _); [reflexivity|reflexivity|].
  apply H; [reflexivity| | |discriminate|reflexivity];
    (split; [reflexivity|repeat constructor; lia]).
Defined.

End MetricsFacts.

(** ** The scenarios of the specification *)

Module Scenarios.

(** "A" in an 8x8 grayscale image of samples 128: the 16 digits 01000001
    00000000 go to the first 16 samples, and [extract] returns "A". *)
Example gray8_A :
  let h : gmap nat ndarray := {[ 0 := Examples.gray8 ]} in
  let run := LSBSteganography.embed 0 [65%N] h in
  run.1 = Ok 1
  ∧ (samples <$> run.2 !! 1)
    = Some ([128; 129; 128; 128; 128; 128; 128; 129]%Z ++ repeat 128%Z 56)
  ∧ LSBSteganography.extract 1 run.2 = (Ok [65%N], run.2).
Proof. repeat split; vm_compute; reflexivity. Qed.

(** A 100x100x3 image holds 3750 bytes, and a payload of 4000 characters
    does not fit. *)
Example color100_capacity :
  let h : gmap nat ndarray := {[ 0 := Examples.color100 ]} in
  (LSBSteganography.get_embedding_capacity 0 h).1 = Ok 3750
  ∧ (LSBSteganography.embed 0 (repeat 65%N 4000) h).1 = Raise CapacityError.
Proof. split; vm_compute; reflexivity. Qed.

End Scenarios.

Module DecodeFacts.
Import Flat Views FlatFacts EmbedFacts BitCodecFacts RoundTripFacts ExtractFacts.

Lemma bytes_ind (P : list ascii → Prop) :
  (∀ s, length s < 8 → P s) →
  (∀ w s, length w = 8 → P s → P (w ++ s)) →
  ∀ s, P s.
Proof.
  intros Hshort Hbyte s. remember (length s) as n eqn:Hn. revert s Hn.
  induction n as [n IH] using lt_wf_ind. intros s Hn.
  destruct (decide (n < 8)) as [Hlt|Hge]; [apply Hshort; lia|].
  rewrite <- (take_drop 8 s). apply Hbyte.
  - rewrite length_take. lia.
  - apply (IH (length (drop 8 s))); [rewrite length_drop; lia|done].
Qed.

Lemma decode_short s : length s < 8 → decode s = [].
Proof.
  intros Hs. unfold decode, range_step.
  destruct s as [|c s]; [done|].
  replace ((length (c :: s) + 8 - 1) / 8) with 1.
  - cbn [seq map flat_map Nat.mul]. rewrite app_nil_r.
    change (drop 0 (c :: s)) with (c :: s). rewrite take_ge by lia.
    cbv zeta. destruct (Nat.eqb_spec (length (c :: s)) 8); [lia|done].
  - apply Nat.div_unique with (r := length s); simpl in *; lia.
Qed.

Lemma int_from_bound v w : (int_from v w < (v + 1) * 2 ^ N.of_nat (length w))%N.
Proof.
  revert v. induction w as [|c w IH]; intros v.
  - simpl. lia.
  - unfold int_from in *. simpl fold_left. simpl length.
    rewrite Nat2N.inj_succ, N.pow_succ_r'.
    eapply N.lt_le_trans; [apply IH|].
    destruct (Ascii.eqb c "1"); nia.
Qed.

Lemma int_base2_byte w : length w = 8 → (int_base2 w ≤ 255)%N.
Proof.
  intros Hw. pose proof (int_from_bound 0 w) as H. rewrite Hw in H.
  change int_base2 with (int_from 0). change ((0 + 1) * 2 ^ N.of_nat 8)%N with 256%N in H.
  lia.
Qed.

Lemma decode_bytes (binary_data : list ascii) :
  length (decode binary_data) = length binary_data / 8
  ∧ Forall (fun c => (c ≤ 255)%N) (decode binary_data).
Proof.
  induction binary_data as [s Hs|w s Hw [IHl IHf]] using bytes_ind.
  - rewrite decode_short by done. rewrite Nat.div_small by done. by split.
  - rewrite decode_byte by done. split.
    + rewrite length_cons, IHl, length_app, Hw.
      change (8 + length s) with (1 * 8 + length s).
      rewrite Nat.div_add_l by lia. lia.
    + constructor; [by apply int_base2_byte|done].
Qed.

Lemma decode_app_aligned b r :
  length b mod 8 = 0 → decode (b ++ r) = decode b ++ decode r.
Proof.
  revert r. induction b as [s Hs|w s Hw IH] using bytes_ind; intros r Hb.
  - rewrite Nat.mod_small in Hb by done. by destruct s.
  - rewrite <- app_assoc, (decode_byte w (s ++ r)), (decode_byte w s) by done.
    simpl. f_equal. apply IH.
    rewrite length_app, Hw in Hb.
    replace (8 + length s) with (length s + 1 * 8) in Hb by lia.
    by rewrite Nat.Div0.mod_add in Hb.
Qed.

(** X1: the decoding loop of both engines turns every complete group of
    eight digits into one character and drops an incomplete last group: it
    returns [len(binary_data) // 8] characters, each of code point at most
    255, whatever the digits are, and the same characters as for the
    digits cut to a whole number of groups. *)
Theorem decode_complete_bytes (binary_data : list ascii) :
  length (decode binary_data) = length binary_data / 8
  ∧ Forall (fun c => (c ≤ 255)%N) (decode binary_data)
  ∧ decode binary_data
    = decode (take (8 * (length binary_data / 8)) binary_data).
Proof.
  destruct (decode_bytes binary_data) as [Hlen Hchars]. split; [done|]. split; [done|].
  set (k := 8 * (length binary_data / 8)).
  pose proof (Nat.div_mod_eq (length binary_data) 8) as Hdiv.
  pose proof (Nat.mod_upper_bound (length binary_data) 8) as Hmod.
  rewrite <- (take_drop k binary_data) at 1.
  rewrite decode_app_aligned.
  - rewrite (decode_short (drop k binary_data)), app_nil_r; [done|].
    rewrite length_drop. lia.
  - rewrite length_take, Nat.min_l by lia. subst k.
    rewrite Nat.mul_comm. apply Nat.Div0.mod_mul.
Qed.

Lemma int_from_zero v w :
  Forall is_digit w → int_from v w = 0%N → v = 0%N ∧ w = repeat "0" (length w).
Proof.
  intros Hw. revert v. induction Hw as [|c w Hc _ IH]; intros v Hz; [done|].
  unfold int_from in *. simpl in Hz. apply IH in Hz as [Hv ->].
  destruct Hc as [-> | ->]; simpl in Hv.
  - split; [lia|]. simpl. by rewrite repeat_length.
  - lia.
Qed.

Lemma int_base2_nonzero w :
  Forall is_digit w → length w = 8 → w ≠ terminator → int_base2 w ≠ 0%N.
Proof.
  intros Hd Hw Hne Hz. apply (int_from_zero 0 w Hd) in Hz as [_ Hz].
  rewrite Hw in Hz. done.
Qed.

(** The scan of the digits [r] from an aligned [binary_data]: what was
    decoded so far, then the characters of [r] up to its first zero byte. *)
Lemma scan_until_nul r b :
  Forall is_digit r → length b mod 8 = 0 →
  extracted (scan r b) = decode b ++ until_nul (decode r).
Proof.
  revert b. induction r as [s Hs|w s Hw IH] using bytes_ind; intros b Hd Hb.
  - rewrite <- (app_nil_r s) at 1. rewrite scan_short by (rewrite Hb; lia).
    simpl. rewrite decode_app_aligned by done.
    by rewrite (decode_short s) by done.
  - apply Forall_app in Hd as [Hdw Hds].
    rewrite scan_byte, decode_byte by done.
    destruct (decide (w = terminator)) as [->|Hne].
    + simpl. by rewrite app_nil_r.
    + rewrite IH; [|done|].
      * rewrite decode_app_aligned by done.
        rewrite <- app_assoc. f_equal. rewrite <- (app_nil_r w) at 1.
        rewrite decode_byte by done. simpl.
        destruct (N.eqb_spec (int_base2 w) 0) as [Hz|Hz]; [|done].
        by apply int_base2_nonzero in Hz.
      * rewrite length_app, Hw, <- Nat.Div0.add_mod_idemp_l, Hb. done.
Qed.

Lemma str_lsb_digit x : is_digit (str_lsb x).
Proof. unfold str_lsb, is_digit. destruct (_ =? _)%Z; auto. Qed.

Lemma reads_digits a offs : Forall is_digit (reads a offs).
Proof.
  unfold reads. apply Forall_forall. intros c Hc.
  apply list_elem_of_fmap in Hc as (off & -> & _). apply str_lsb_digit.
Qed.

Lemma reads_all a n :
  length (samples a) = n → reads a (seq 0 n) = lsb_string (samples a).
Proof.
  intros Hn. unfold reads, lsb_string. subst n.
  apply list_eq. intros i. rewrite !list_lookup_fmap.
  destruct (decide (i < length (samples a))) as [Hlt|Hge].
  - rewrite lookup_seq_lt by done. simpl.
    destruct (lookup_lt_is_Some_2 _ _ Hlt) as [x Hx].
    by rewrite Hx, (list_lookup_total_correct _ _ _ Hx).
  - rewrite lookup_seq_ge by lia. by rewrite lookup_ge_None_2 by lia.
Qed.

Lemma reads_masked a mask n :
  length (samples a) = n →
  reads a (filter (fun p => selected (Some mask) p = true) (seq 0 n))
  = lsb_string (masked_samples mask (samples a)).
Proof.
  intros <-. unfold reads, lsb_string, masked_samples. by rewrite map_map.
Qed.

(** X3: on a grayscale image both [extract] routines return the heap
    unchanged and the decoding of the least significant bits they visit,
    cut at the first character 0: [LSBSteganography.extract] visits every
    sample in raster order, [SobelAdaptiveSteganography.extract] the
    samples of the pixels its mask selects. *)
Theorem extract_gray_until_nul (h : gmap nat ndarray) (l H W : nat) (data : list Z)
    (compute_sobel_gradient : ndarray → list Z) (threshold : Z) :
  let stego := mk_ndarray (Gray H W) data in
  h !! l = Some stego → length data = H * W →
  LSBSteganography.extract l h
  = (Ok (until_nul (decode (lsb_string data))), h)
  ∧ SobelAdaptiveSteganography.extract compute_sobel_gradient l threshold h
    = (Ok (until_nul (decode (lsb_string
             (masked_samples
                (SobelAdaptiveSteganography.create_embedding_mask
                   (compute_sobel_gradient stego) threshold) data)))), h).
Proof.
  intros stego Hl Hlen. split.
  - unfold LSBSteganography.extract, mbind, M_bind, bind, load. rewrite Hl.
    pose proof (scan_until_nul (reads stego (slots (Gray H W) None (seq 0 H))) []
                  (reads_digits _ _) eq_refl) as Hs.
    rewrite <- (lsb_extract_rows_scan stego H W) in Hs by done.
    rewrite slots_gray_all, (reads_all stego) in Hs by done.
    cbn [shape_of height stego] in *.
    destruct (LSBSteganography.extract_rows _ _ _); simpl in Hs; by rewrite Hs.
  - unfold SobelAdaptiveSteganography.extract, mbind, M_bind, bind, load. rewrite Hl.
    set (mask := SobelAdaptiveSteganography.create_embedding_mask _ _).
    pose proof (scan_until_nul (reads stego (slots (Gray H W) (Some mask) (seq 0 H))) []
                  (reads_digits _ _) eq_refl) as Hs.
    rewrite <- (sobel_extract_rows_scan stego mask H W) in Hs by done.
    rewrite slots_gray, (reads_masked stego) in Hs by done.
    cbn [shape_of height stego] in *.
    destruct (SobelAdaptiveSteganography.extract_rows _ _ _ _); simpl in Hs; by rewrite Hs.
Qed.

End DecodeFacts.

Module ExtractTotal.
Import Flat Views FlatFacts EmbedFacts BitCodecFacts RoundTripFacts ExtractFacts DecodeFacts.

Lemma drop_last8_length b : length (drop_last8 b) ≤ length b.
Proof. unfold drop_last8. rewrite length_take. lia. Qed.

Lemma lsb_check_terminator_bound b n :
  length b ≤ n → decodes_at_most n (LSBSteganography.check_terminator b).
Proof.
  intros Hb. unfold LSBSteganography.check_terminator.
  destruct (_ && _); simpl; [|done].
  eexists; split; [done|]. pose proof (drop_last8_length b). lia.
Qed.

Lemma sobel_check_terminator_bound b n :
  length b ≤ n → decodes_at_most n (SobelAdaptiveSteganography.check_terminator b).
Proof.
  intros Hb. unfold SobelAdaptiveSteganography.check_terminator.
  destruct (_ && _); simpl; [|done].
  eexists; split; [done|]. pose proof (drop_last8_length b). lia.
Qed.

Lemma lsb_check_terminator_inr b b' :
  LSBSteganography.check_terminator b = inr b' → b' = b.
Proof. unfold LSBSteganography.check_terminator. destruct (_ && _); congruence. Qed.

Lemma sobel_check_terminator_inr b b' :
  SobelAdaptiveSteganography.check_terminator b = inr b' → b' = b.
Proof. unfold SobelAdaptiveSteganography.check_terminator. destruct (_ && _); congruence. Qed.

Lemma pixel_bits_length a i j :
  length (LSBSteganography.pixel_bits a i j) = channels (shape_of a).
Proof. unfold LSBSteganography.pixel_bits. by destruct (shape_of a). Qed.

Lemma decodes_at_most_mono n m r : n ≤ m → decodes_at_most n r → decodes_at_most m r.
Proof.
  intros Hnm. destruct r as [s|b]; simpl.
  - intros (b & -> & Hb). exists b. split; [done|lia].
  - lia.
Qed.

Lemma lsb_extract_row_bound a i jrange b :
  decodes_at_most (length b + channels (shape_of a) * length jrange)
    (LSBSteganography.extract_row a i jrange b).
Proof.
  revert b. induction jrange as [|j jrange IH]; intros b; simpl; [lia|].
  destruct (LSBSteganography.check_terminator _) as [s|b'] eqn:Hc.
  - rewrite <- Hc. apply lsb_check_terminator_bound.
    rewrite length_app, pixel_bits_length. lia.
  - apply lsb_check_terminator_inr in Hc as ->.
    eapply decodes_at_most_mono; [|apply IH].
    rewrite length_app, pixel_bits_length. lia.
Qed.

Lemma lsb_extract_rows_bound a irange b :
  decodes_at_most
    (length b + channels (shape_of a) * (width (shape_of a) * length irange))
    (LSBSteganography.extract_rows a irange b).
Proof.
  revert b. induction irange as [|i irange IH]; intros b; simpl; [lia|].
  pose proof (lsb_extract_row_bound a i (seq 0 (width (shape_of a))) b) as Hr.
  rewrite length_seq in Hr.
  destruct (LSBSteganography.extract_row _ _ _ _) as [s|b'].
  - eapply decodes_at_most_mono; [|exact Hr]. nia.
  - simpl in Hr. eapply decodes_at_most_mono; [|apply IH]. nia.
Qed.

Lemma sobel_extract_row_bound a mask i jrange b :
  decodes_at_most (length b + channels (shape_of a) * length jrange)
    (SobelAdaptiveSteganography.extract_row a mask i jrange b).
Proof.
  revert b. induction jrange as [|j jrange IH]; intros b; simpl; [lia|].
  destruct (_ =? _)%Z.
  - destruct (SobelAdaptiveSteganography.check_terminator _) as [s|b'] eqn:Hc.
    + rewrite <- Hc. apply sobel_check_terminator_bound.
      rewrite length_app, pixel_bits_length. lia.
    + apply sobel_check_terminator_inr in Hc as ->.
      eapply decodes_at_most_mono; [|apply IH].
      rewrite length_app, pixel_bits_length. lia.
  - eapply decodes_at_most_mono; [|apply IH]. lia.
Qed.

Lemma sobel_extract_rows_bound a mask irange b :
  decodes_at_most
    (length b + channels (shape_of a) * (width (shape_of a) * length irange))
    (SobelAdaptiveSteganography.extract_rows a mask irange b).
Proof.
  revert b. induction irange as [|i irange IH]; intros b; simpl; [lia|].
  pose proof (sobel_extract_row_bound a mask i (seq 0 (width (shape_of a))) b) as Hr.
  rewrite length_seq in Hr.
  destruct (SobelAdaptiveSteganography.extract_row _ _ _ _ _) as [s|b'].
  - eapply decodes_at_most_mono; [|exact Hr]. nia.
  - simpl in Hr. eapply decodes_at_most_mono; [|apply IH]. nia.
Qed.

Lemma numel_channels s : numel s = channels s * (width s * height s).
Proof. destruct s; simpl; lia. Qed.

Lemma decodes_at_most_extracted n r :
  decodes_at_most n r →
  Forall (fun c => (c ≤ 255)%N) (extracted r) ∧ length (extracted r) ≤ n / 8.
Proof.
  destruct r as [s|b]; cbn [decodes_at_most extracted].
  - intros (b & -> & Hb). destruct (decode_bytes b) as [-> ?].
    split; [done|]. by apply Nat.Div0.div_le_mono.
  - intros Hb. destruct (decode_bytes b) as [-> ?].
    split; [done|]. by apply Nat.Div0.div_le_mono.
Qed.

(** X4: on any image of the heap, grayscale or color, both [extract]
    routines return a string (they raise nothing and leave the heap as it
    was) whose characters all have code points at most 255 and whose length
    is at most the number of samples divided by 8. *)
Theorem extract_total_and_bounded (h : gmap nat ndarray) (l : nat) (stego : ndarray)
    (compute_sobel_gradient : ndarray → list Z) (threshold : Z) :
  h !! l = Some stego →
  (∃ secret_data, LSBSteganography.extract l h = (Ok secret_data, h)
     ∧ Forall (fun c => (c ≤ 255)%N) secret_data
     ∧ length secret_data ≤ numel (shape_of stego) / 8)
  ∧ (∃ secret_data,
       SobelAdaptiveSteganography.extract compute_sobel_gradient l threshold h
       = (Ok secret_data, h)
     ∧ Forall (fun c => (c ≤ 255)%N) secret_data
     ∧ length secret_data ≤ numel (shape_of stego) / 8).
Proof.
  intros Hl. split.
  - pose proof (lsb_extract_rows_bound stego (seq 0 (height (shape_of stego))) []) as Hb.
    rewrite length_seq, <- numel_channels in Hb. simpl in Hb.
    apply decodes_at_most_extracted in Hb as [Hc Hn].
    exists (extracted (LSBSteganography.extract_rows stego
                         (seq 0 (height (shape_of stego))) [])).
    split; [|done].
    unfold LSBSteganography.extract, mbind, M_bind, bind, load. rewrite Hl.
    by destruct (LSBSteganography.extract_rows _ _ _).
  - set (mask := SobelAdaptiveSteganography.create_embedding_mask
                   (compute_sobel_gradient stego) threshold).
    pose proof (sobel_extract_rows_bound stego mask
                  (seq 0 (height (shape_of stego))) []) as Hb.
    rewrite length_seq, <- numel_channels in Hb. simpl in Hb.
    apply decodes_at_most_extracted in Hb as [Hc Hn].
    exists (extracted (SobelAdaptiveSteganography.extract_rows stego mask
                         (seq 0 (height (shape_of stego))) [])).
    split; [|done].
    unfold SobelAdaptiveSteganography.extract, mbind, M_bind, bind, load. rewrite Hl.
    fold mask. by destruct (SobelAdaptiveSteganography.extract_rows _ _ _ _).
Qed.

End ExtractTotal.

Module EmbedEffect.
Import Flat Views FlatFacts EmbedFacts BitCodecFacts RoundTripFacts ExtractFacts.
Import DecodeFacts ExtractTotal.

(** *** The slots of the unmasked loops, for both shapes *)

Lemma pixel_slots_seq s p : pixel_slots s p = seq (p * channels s) (channels s).
Proof. unfold pixel_slots. by rewrite fmap_add_seq, Nat.add_0_r. Qed.

Lemma row_slots_all s i a n :
  row_slots s None i (seq a n)
  = seq ((i * width s + a) * channels s) (n * channels s).
Proof.
  revert a. induction n as [|n IH]; intros a; [done|].
  rewrite <- cons_seq, row_slots_cons, IH. cbn [selected].
  rewrite pixel_slots_seq. unfold offset2.
  replace (S n * channels s) with (channels s + n * channels s) by lia.
  rewrite seq_app. do 2 f_equal. lia.
Qed.

Lemma slots_all_seq s a n :
  slots s None (seq a n)
  = seq (a * width s * channels s) (n * width s * channels s).
Proof.
  revert a. induction n as [|n IH]; intros a; [done|].
  rewrite <- cons_seq, slots_cons, IH, row_slots_all.
  replace (S n * width s * channels s)
    with (width s * channels s + n * width s * channels s) by lia.
  rewrite seq_app. f_equal; f_equal; lia.
Qed.

Lemma slots_all s : slots s None (seq 0 (height s)) = seq 0 (numel s).
Proof. rewrite slots_all_seq. f_equal. destruct s; simpl; lia. Qed.

(** *** What [write_zip] leaves at each offset of a contiguous range *)

Lemma write_zip_seq_lookup bs k n buf p :
  write_zip bs (seq k n) buf !! p
  = if decide (k ≤ p < k + length bs `min` n)
    then (fun x => Z.lor (Z.land x 254) (int_of_digit (bs !!! (p - k)))) <$> buf !! p
    else buf !! p.
Proof.
  revert k n buf. induction bs as [|b bs IH]; intros k n buf.
  - simpl. case_decide; [lia|done].
  - destruct n as [|n]; [simpl; case_decide; [lia|done]|].
    cbn [seq write_zip]. rewrite IH. cbn [length].
    destruct (decide (p = k)) as [->|Hne].
    + rewrite decide_False by lia. rewrite decide_True by lia.
      rewrite Nat.sub_diag. cbn [lookup_total list_lookup_total].
      destruct (buf !! k) as [x|] eqn:Hx.
      * rewrite list_lookup_insert_eq by (by eapply lookup_lt_Some).
        simpl. by rewrite (list_lookup_total_correct _ _ _ Hx).
      * simpl. apply lookup_ge_None_2. rewrite length_insert.
        by apply lookup_ge_None_1.
    + rewrite list_lookup_insert_ne by done.
      case_decide as H1; case_decide as H2; try lia; [|done].
      replace (p - k) with (S (p - S k)) by lia. done.
Qed.

(** X5: after a successful [LSBSteganography.embed] the stego array has
    the cover's shape, its sample number [p] in raster (and channel) order
    is [(cover[p] & 0xFE) | bit p] of the encoded payload for [p] below the
    encoded length, and the cover's sample from there on. *)
Theorem lsb_embed_effect (h h' : gmap nat ndarray) (l l' : nat) (cover : ndarray)
    (secret_data : list N) :
  h !! l = Some cover → length (samples cover) = numel (shape_of cover) →
  LSBSteganography.embed l secret_data h = (Ok l', h') →
  ∃ stego, h' !! l' = Some stego
    ∧ shape_of stego = shape_of cover
    ∧ ∀ p x, samples cover !! p = Some x →
        samples stego !! p
        = Some (if decide (p < length (encode secret_data))
                then Z.lor (Z.land x 254) (int_of_digit (encode secret_data !!! p))
                else x).
Proof.
  intros Hl Hlen Hrun. rewrite (lsb_embed_run _ _ _ _ Hl) in Hrun.
  destruct (Nat.ltb_spec (length (samples cover)) (length (encode secret_data)))
    as [|Hfit]; [discriminate|].
  injection Hrun as <- <-. eexists. split; [apply lookup_insert_eq|].
  split; [done|]. intros p x Hp. cbn [samples].
  rewrite slots_all, write_zip_seq_lookup, Hp, Nat.sub_0_r. simpl.
  pose proof (lookup_lt_Some _ _ _ Hp).
  repeat case_decide; try done; lia.
Qed.

(** X6: for a payload of code points at most 255,
    [LSBSteganography.embed] succeeds exactly when the payload and its
    terminator byte fit the capacity that
    [LSBSteganography.get_embedding_capacity] reports. *)
Theorem lsb_capacity_predicts_embed (h : gmap nat ndarray) (l : nat) (cover : ndarray)
    (secret_data : list N) :
  h !! l = Some cover → length (samples cover) = numel (shape_of cover) →
  Forall (fun c => (c ≤ 255)%N) secret_data →
  ∃ capacity, LSBSteganography.get_embedding_capacity l h = (Ok capacity, h)
    ∧ ((∃ l' h', LSBSteganography.embed l secret_data h = (Ok l', h'))
       ↔ length secret_data + 1 ≤ capacity).
Proof.
  intros Hl Hlen Hbytes. exists (numel (shape_of cover) / 8). split.
  - unfold LSBSteganography.get_embedding_capacity, mbind, M_bind, bind, load.
    rewrite Hl. by destruct (shape_of cover).
  - apply encode_length_bytes in Hbytes.
    rewrite (lsb_embed_run _ _ _ _ Hl), Hlen, Hbytes.
    pose proof (Nat.div_mod_eq (numel (shape_of cover)) 8) as Hd.
    pose proof (Nat.mod_upper_bound (numel (shape_of cover)) 8) as Hm.
    destruct (Nat.ltb_spec (numel (shape_of cover)) (8 * (length secret_data + 1))).
    + split; [intros (? & ? & ?); discriminate|]. lia.
    + split; [lia|]. intros _. by eexists _, _.
Qed.

End EmbedEffect.

Module SobelFacts.
Import Flat Views FlatFacts EmbedFacts BitCodecFacts RelaxFacts RoundTripFacts ExtractFacts.
Import DecodeFacts ExtractTotal EmbedEffect.
Import SobelAdaptiveSteganography.

Lemma np_sum_bits_bounds mask :
  Forall (fun x => x = 0%Z ∨ x = 1%Z) mask →
  (0 ≤ np_sum mask ≤ Z.of_nat (length mask))%Z.
Proof.
  induction 1 as [|x mask Hx _ IH]; [done|].
  unfold np_sum in *. rewrite length_cons. cbn [foldr]. destruct Hx; lia.
Qed.

Lemma cap_bounds gradient s t :
  length gradient = height s * width s →
  (0 ≤ cap gradient s t ≤ Z.of_nat (numel s))%Z.
Proof.
  intros Hg.
  pose proof (np_sum_bits_bounds _ (create_embedding_mask_bits gradient t)) as Hb.
  rewrite create_embedding_mask_length, Hg in Hb.
  unfold cap, available_capacity. destruct s as [a b|a b]; cbn [numel height width] in *; lia.
Qed.

Lemma mask_all_zero gradient t :
  Forall (fun g => (g ≤ t)%Z) gradient →
  np_sum (create_embedding_mask gradient t) = 0%Z.
Proof.
  induction 1 as [|g gradient Hg _ IH]; [done|].
  unfold np_sum, create_embedding_mask in *. cbn [map foldr].
  destruct (Z.ltb_spec t g); lia.
Qed.

Lemma mask_all_one gradient t :
  Forall (fun g => (t < g)%Z) gradient →
  np_sum (create_embedding_mask gradient t) = Z.of_nat (length gradient).
Proof.
  induction 1 as [|g gradient Hg _ IH]; [done|].
  unfold np_sum, create_embedding_mask in *. rewrite length_cons. cbn [map foldr].
  destruct (Z.ltb_spec t g); lia.
Qed.

Section WithGradient.
Variable compute_sobel_gradient : ndarray → list Z.

Lemma sobel_capacity_run h l cover threshold :
h !! l = Some cover →
get_embedding_capacity compute_sobel_gradient l threshold h
= (Ok (cap (compute_sobel_gradient cover) (shape_of cover) threshold / 8)%Z, h).
Proof.
intros Hl. unfold get_embedding_capacity, mbind, M_bind, bind, load. rewrite Hl.
unfold cap, available_capacity. by destruct (shape_of cover).
Qed.

Lemma lsb_capacity_run h l cover :
h !! l = Some cover →
LSBSteganography.get_embedding_capacity l h = (Ok (numel (shape_of cover) / 8), h).
Proof.
intros Hl.
unfold LSBSteganography.get_embedding_capacity, mbind, M_bind, bind, load.
rewrite Hl. by destruct (shape_of cover).
Qed.

(** X10: [SobelAdaptiveSteganography.get_embedding_capacity] returns a
  capacity and leaves the heap as it was; the capacity does not grow when
  the threshold grows, is not negative, and is at most the capacity
  [LSBSteganography.get_embedding_capacity] reports for the same image
  (the gradient map having one value per pixel). *)
Theorem sobel_capacity_monotone_bounded (h : gmap nat ndarray) (l : nat)
  (cover : ndarray) (t1 t2 : Z) :
h !! l = Some cover →
length (compute_sobel_gradient cover)
= height (shape_of cover) * width (shape_of cover) →
∃ c1 c2 n,
  get_embedding_capacity compute_sobel_gradient l t1 h = (Ok c1, h)
  ∧ get_embedding_capacity compute_sobel_gradient l t2 h = (Ok c2, h)
  ∧ LSBSteganography.get_embedding_capacity l h = (Ok n, h)
  ∧ ((t1 ≤ t2)%Z → (c2 ≤ c1)%Z)
  ∧ (0 ≤ c1 ≤ Z.of_nat n)%Z.
Proof.
intros Hl Hg. eexists _, _, _.
rewrite !(sobel_capacity_run _ _ _ _ Hl), (lsb_capacity_run _ _ _ Hl).
repeat split.
- intros Ht. apply Z.div_le_mono; [lia|]. by apply cap_mono.
- apply Z.div_pos; [|lia]. by apply cap_bounds.
- rewrite Nat2Z.inj_div. apply Z.div_le_mono; [lia|]. by apply cap_bounds.
Qed.

(** X11: for a gradient map of values 0..255 with one value per pixel,
  the capacity reported at a threshold of 255 or more is 0, and at a
  negative threshold it is the capacity of plain LSB. *)
Theorem sobel_capacity_extremes (h : gmap nat ndarray) (l : nat)
  (cover : ndarray) (threshold : Z) :
h !! l = Some cover →
length (compute_sobel_gradient cover)
= height (shape_of cover) * width (shape_of cover) →
Forall (fun g => (0 ≤ g ≤ 255)%Z) (compute_sobel_gradient cover) →
((255 ≤ threshold)%Z →
 get_embedding_capacity compute_sobel_gradient l threshold h = (Ok 0%Z, h))
∧ ((threshold < 0)%Z →
   ∃ n, LSBSteganography.get_embedding_capacity l h = (Ok n, h)
        ∧ get_embedding_capacity compute_sobel_gradient l threshold h
          = (Ok (Z.of_nat n), h)).
Proof.
intros Hl Hg Hbyte.
rewrite (sobel_capacity_run _ _ _ _ Hl), (lsb_capacity_run _ _ _ Hl). split.
- intros Ht. unfold cap, available_capacity. rewrite mask_all_zero.
  + by destruct (shape_of cover).
  + eapply Forall_impl; [exact Hbyte|]. simpl. lia.
- intros Ht. eexists; split; [done|]. do 2 f_equal.
  unfold cap, available_capacity. rewrite mask_all_one, Hg.
  + rewrite Nat2Z.inj_div. f_equal.
    destruct (shape_of cover) as [a b|a b]; cbn [numel height width]; lia.
  + eapply Forall_impl; [exact Hbyte|]. simpl. lia.
Qed.

(** X12: when a payload of code points at most 255 and its terminator
  byte fit the capacity reported at a threshold,
  [SobelAdaptiveSteganography.embed] at that threshold succeeds and uses
  the mask of the threshold itself: no relaxation takes place. *)
Theorem sobel_capacity_predicts_embed (h : gmap nat ndarray) (l : nat)
  (cover : ndarray) (secret_data : list N) (threshold capacity : Z) :
h !! l = Some cover →
Forall (fun c => (c ≤ 255)%N) secret_data →
get_embedding_capacity compute_sobel_gradient l threshold h = (Ok capacity, h) →
(Z.of_nat (length secret_data) + 1 ≤ capacity)%Z →
choose_mask (compute_sobel_gradient cover) (shape_of cover)
  (Z.of_nat (length (encode secret_data))) threshold
= Ok (threshold, create_embedding_mask (compute_sobel_gradient cover) threshold)
∧ ∃ l' h', embed compute_sobel_gradient l secret_data threshold h = (Ok l', h').
Proof.
intros Hl Hbytes Hcap Hfit. apply encode_length_bytes in Hbytes.
rewrite (sobel_capacity_run _ _ _ _ Hl) in Hcap. injection Hcap as <-.
set (c := cap _ _ _) in *.
assert (choose_mask (compute_sobel_gradient cover) (shape_of cover)
          (Z.of_nat (length (encode secret_data))) threshold
        = Ok (threshold, create_embedding_mask (compute_sobel_gradient cover) threshold))
  as Hmask.
{ unfold choose_mask. cbv zeta. fold (cap (compute_sobel_gradient cover)
    (shape_of cover) threshold). fold c.
  destruct (Z.ltb_spec c (Z.of_nat (length (encode secret_data)))) as [Hlt|]; [|done].
  rewrite Hbytes in Hlt.
  pose proof (Z.mul_div_le c 8). lia. }
split; [done|].
rewrite (sobel_embed_run _ _ _ _ _ _ Hl), Hmask. by eexists _, _.
Qed.

End WithGradient.

(** *** The samples the masked loops leave alone *)

Lemma elem_of_row_slots s mask i jrange off :
  off ∈ row_slots s mask i jrange →
  ∃ p, selected mask p = true ∧ off ∈ pixel_slots s p.
Proof.
  induction jrange as [|j jrange IH]; [by intros ?%elem_of_nil|].
  rewrite row_slots_cons, elem_of_app. intros [Hin|Hin]; [|by apply IH].
  destruct (selected mask (offset2 s i j)) eqn:Hsel; [|by apply elem_of_nil in Hin].
  by exists (offset2 s i j).
Qed.

Lemma elem_of_slots s mask irange off :
  off ∈ slots s mask irange →
  ∃ p, selected mask p = true ∧ off ∈ pixel_slots s p.
Proof.
  induction irange as [|i irange IH]; [by intros ?%elem_of_nil|].
  rewrite slots_cons, elem_of_app. intros [Hin|Hin]; [|by apply IH].
  by eapply elem_of_row_slots.
Qed.

Lemma pixel_slots_inv s p off :
  off ∈ pixel_slots s p → ∃ k, k < channels s ∧ off = p * channels s + k.
Proof.
  rewrite pixel_slots_seq, elem_of_seq. intros Hoff.
  exists (off - p * channels s). lia.
Qed.

(** X13: a successful [SobelAdaptiveSteganography.embed] leaves every
    sample of every pixel that the mask of its effective threshold (the one
    its capacity check ends with, at most the requested one) does not
    select as it is in the cover. *)
Theorem sobel_embed_spares_unmasked (compute_sobel_gradient : ndarray → list Z)
    (h h' : gmap nat ndarray) (l l' : nat) (cover : ndarray)
    (secret_data : list N) (threshold : Z) :
  h !! l = Some cover →
  embed compute_sobel_gradient l secret_data threshold h = (Ok l', h') →
  ∃ t' stego,
    choose_mask (compute_sobel_gradient cover) (shape_of cover)
      (Z.of_nat (length (encode secret_data))) threshold
    = Ok (t', create_embedding_mask (compute_sobel_gradient cover) t')
    ∧ (t' ≤ threshold)%Z ∧ h' !! l' = Some stego
    ∧ ∀ p k, k < channels (shape_of cover) →
        create_embedding_mask (compute_sobel_gradient cover) t' !!! p ≠ 1%Z →
        samples stego !!! (p * channels (shape_of cover) + k)
        = samples cover !!! (p * channels (shape_of cover) + k).
Proof.
  intros Hl Hrun. rewrite (sobel_embed_run _ _ _ _ _ _ Hl) in Hrun.
  destruct (choose_mask_spec (compute_sobel_gradient cover) (shape_of cover)
              (Z.of_nat (length (encode secret_data))) threshold)
    as [[Hc _]|(t' & Hc & Hle & _)]; rewrite Hc in Hrun; [discriminate|].
  injection Hrun as <- <-. eexists t', _. split; [done|]. split; [done|].
  split; [apply lookup_insert_eq|].
  intros p k Hk Hmask. cbn [samples]. apply write_zip_frame.
  intros (q & Hsel & Hq)%elem_of_slots.
  apply pixel_slots_inv in Hq as (k' & Hk' & Heq).
  assert (q = p) as -> by nia.
  cbn [selected] in Hsel. by apply Z.eqb_eq in Hsel.
Qed.

End SobelFacts.

Module ApplyAttackFacts.
Import AttackSimulator.

Section WithOpenCV.
Variable jpeg_codec : ndarray → Z → list Z.
Variable cv2_resize : ndarray → nat → nat → list Z.
Variable cv2_GaussianBlur : ndarray → Z → Q → list Z.
Variable noisy_samples : ndarray → Q → Q → list Z.
Variable float_mul_int : nat → Q → nat.

Abbreviation apply_attack' :=
(apply_attack jpeg_codec cv2_resize cv2_GaussianBlur noisy_samples float_mul_int).

Lemma operators_supported image quality kernel_size sigma crop_ratio mean h :
(jpeg_compression jpeg_codec cv2_resize image quality h).1 ≠ Raise UnsupportedAttackError
∧ (gaussian_blur cv2_GaussianBlur image kernel_size sigma h).1
  ≠ Raise UnsupportedAttackError
∧ (crop_attack cv2_resize float_mul_int image crop_ratio h).1
  ≠ Raise UnsupportedAttackError
∧ (gaussian_noise noisy_samples image mean sigma h).1 ≠ Raise UnsupportedAttackError.
Proof.
repeat split.
all: unfold jpeg_compression, gaussian_blur, crop_attack, gaussian_noise,
       mbind, M_bind, bind, load, alloc, raise.
all: repeat (cbv beta iota zeta;
             match goal with
             | |- context [if ?c then _ else _] => destruct c eqn:?
             | |- context [@lookup _ _ (gmap nat ndarray) _ ?l ?h0] =>
                 destruct (h0 !! l) eqn:?
             end).
all: done.
Qed.

Ltac supported :=
split; [split; [intros ?; congruence | intros (? & ? & ? & ? & ?); congruence]
       | intros (? & ? & ? & ? & ?); congruence].

(** X22: [apply_attack] raises [UnsupportedAttackError] exactly for
  the attack types other than "jpeg", "blur", "crop" and "noise", and
  leaves the heap unchanged when it does. *)
Theorem apply_attack_unsupported (h : gmap nat ndarray) (image : nat)
  (attack_type : string) (params : option attack_params) :
((apply_attack' image attack_type params h).1 = Raise UnsupportedAttackError
 ↔ attack_type ∉ ["jpeg"; "blur"; "crop"; "noise"]%string)
∧ (attack_type ∉ ["jpeg"; "blur"; "crop"; "noise"]%string →
   apply_attack' image attack_type params h = (Raise UnsupportedAttackError, h)).
Proof.
rewrite !not_elem_of_cons. unfold apply_attack. cbv zeta.
set (p := match params with None => no_params | Some q => q end).
pose proof (operators_supported image (default 75%Z (quality_of p))
              (default 3%Z (kernel_size_of p)) (default 1%Q (sigma_of p))
              (default float_0_9 (crop_ratio_of p)) (default 0%Q (mean_of p)) h)
  as (Hj & Hb & Hc & _).
pose proof (operators_supported image 0%Z 0%Z (default 10%Q (sigma_of p))
              0%Q (default 0%Q (mean_of p)) h) as (_ & _ & _ & Hn).
destruct (String.eqb_spec attack_type "jpeg") as [->|?]; [supported|].
destruct (String.eqb_spec attack_type "blur") as [->|?]; [supported|].
destruct (String.eqb_spec attack_type "crop") as [->|?]; [supported|].
destruct (String.eqb_spec attack_type "noise") as [->|?]; [supported|].
split; [|done]. split; [|done]. intros _. repeat split; try done.
apply not_elem_of_nil.
Qed.

(** X24: [gaussian_blur] with an even kernel size, negative ones
  included, is [gaussian_blur] with the next odd size. *)
Theorem gaussian_blur_even_kernel (image : nat) (k : Z) (sigma : Q)
  (h : gmap nat ndarray) :
gaussian_blur cv2_GaussianBlur image (2 * k) sigma h
= gaussian_blur cv2_GaussianBlur image (2 * k + 1) sigma h.
Proof.
unfold gaussian_blur.
replace ((2 * k) mod 2)%Z with 0%Z
  by (symmetry; rewrite Z.mul_comm; apply Z.mod_mul; lia).
replace ((2 * k + 1) mod 2)%Z with 1%Z
  by (rewrite Z.add_comm, Z.mul_comm, Z.mod_add by lia; done).
done.
Qed.

End WithOpenCV.

End ApplyAttackFacts.

Module MetricsMore.
Import Flat Views Metrics MetricsFacts.

(** *** Ratios of two counts *)

Lemma ratio_zero (a b : nat) :
  0 < b → (inject_Z (Z.of_nat a) / inject_Z (Z.of_nat b) == 0)%Q ↔ a = 0.
Proof.
  intros Hb. destruct b as [|b]; [lia|].
  unfold Qdiv, Qinv, Qmult, Qeq, inject_Z. simpl. lia.
Qed.

Lemma ratio_one (a b : nat) :
  0 < b → (inject_Z (Z.of_nat a) / inject_Z (Z.of_nat b) == 1)%Q ↔ a = b.
Proof.
  intros Hb. destruct b as [|b]; [lia|].
  unfold Qdiv, Qinv, Qmult, Qeq, inject_Z. simpl. lia.
Qed.

(** *** [calculate_ber] *)

Lemma error_bits_le a b : error_bits a b ≤ length a.
Proof.
  unfold error_bits. etrans; [apply length_filter|]. rewrite length_zip. lia.
Qed.

Lemma error_bits_cons x y a b :
  error_bits (x :: a) (y :: b) = (if decide (x = y) then 0 else 1) + error_bits a b.
Proof.
  unfold error_bits. cbn [zip_with]. rewrite filter_cons. cbn [fst snd].
  destruct (decide (x ≠ y)), (decide (x = y)); try done.
Qed.

Lemma error_bits_zero a b : length a = length b → error_bits a b = 0 ↔ a = b.
Proof.
  revert b. induction a as [|x a IH]; intros [|y b] Hlen; try done.
  rewrite error_bits_cons. injection Hlen as Hlen. specialize (IH b Hlen).
  destruct (decide (x = y)) as [->|Hne]; simpl.
  - rewrite IH. split; congruence.
  - split; [lia|congruence].
Qed.

Lemma error_bits_all a b :
  length a = length b → error_bits a b = length a ↔ Forall2 (fun x y => x ≠ y) a b.
Proof.
  revert b. induction a as [|x a IH]; intros [|y b] Hlen; try done.
  rewrite error_bits_cons, Forall2_cons. injection Hlen as Hlen.
  specialize (IH b Hlen). pose proof (error_bits_le a b).
  destruct (decide (x = y)) as [->|Hne]; cbn [length].
  - split; [lia|]. by intros [? _].
  - rewrite <- IH. split; [intros; split; [done|lia]|intros [_ ->]; lia].
Qed.

Lemma error_bits_sym a b : error_bits a b = error_bits b a.
Proof.
  revert b. induction a as [|x a IH]; intros [|y b]; try done.
  rewrite !error_bits_cons, IH.
  destruct (decide (x = y)), (decide (y = x)); congruence.
Qed.

(** X17: [calculate_ber] raises [LengthMismatchError] exactly when
    the two sequences differ in length, returns nan for two empty
    sequences, and otherwise a ratio in [0, 1] that is 0 exactly when the
    sequences are equal and 1 exactly when they differ at every position. *)
Theorem calculate_ber_spec (original_bits extracted_bits : list Z) :
  (calculate_ber original_bits extracted_bits = Raise LengthMismatchError
   ↔ length original_bits ≠ length extracted_bits)
  ∧ (original_bits = [] → extracted_bits = [] →
     calculate_ber original_bits extracted_bits = Ok BerNaN)
  ∧ (length original_bits = length extracted_bits → original_bits ≠ [] →
     ∃ ber, calculate_ber original_bits extracted_bits = Ok (Ber ber)
       ∧ (0 <= ber ∧ ber <= 1)%Q
       ∧ ((ber == 0)%Q ↔ original_bits = extracted_bits)
       ∧ ((ber == 1)%Q ↔ Forall2 (fun x y => x ≠ y) original_bits extracted_bits)).
Proof.
  unfold calculate_ber. split; [|split].
  - case_bool_decide; [done|]. split; [|done]. by destruct (_ =? _).
  - by intros -> ->.
  - intros Hlen Hne. rewrite bool_decide_false by (by intros ?).
    assert (0 < length original_bits) as Hpos by (destruct original_bits; simpl; [done|lia]).
    destruct (Nat.eqb_spec (length original_bits) 0); [lia|].
    eexists; split; [done|]. split; [|split].
    + apply ratio_bounds; [apply error_bits_le|done].
    + by rewrite ratio_zero, error_bits_zero.
    + by rewrite ratio_one, error_bits_all.
Qed.

(** X18: [calculate_ber] is symmetric in its two arguments, the
    exception included. *)
Theorem calculate_ber_sym (original_bits extracted_bits : list Z) :
  calculate_ber original_bits extracted_bits = calculate_ber extracted_bits original_bits.
Proof.
  unfold calculate_ber.
  destruct (decide (length original_bits = length extracted_bits)) as [Hlen|Hlen].
  - rewrite !bool_decide_false by (intros ?; congruence).
    by rewrite (error_bits_sym original_bits), Hlen.
  - by rewrite !bool_decide_true by congruence.
Qed.

(** *** [calculate_ber_text] *)

Lemma filter_nil_Forall {A} (P : A → Prop) `{!∀ x, Decision (P x)} (l : list A) :
  filter P l = [] ↔ Forall (fun x => ¬ P x) l.
Proof.
  induction l as [|x l IH]; [by split; [constructor|]|].
  rewrite filter_cons, Forall_cons. destruct (decide (P x)); [|by rewrite IH; tauto].
  split; [done|]. by intros [? _].
Qed.

Lemma mismatches_zero (o e : list N) n :
  n ≤ length o → n ≤ length e → mismatches o e n = 0 ↔ take n o = take n e.
Proof.
  intros Ho He. unfold mismatches.
  rewrite length_zero_iff_nil, filter_nil_Forall, Forall_forall. split.
  - intros Hall. apply list_eq. intros i.
    destruct (decide (i < n)) as [Hi|Hi].
    + rewrite !lookup_take_lt by done.
      rewrite !list_lookup_lookup_total_lt by lia. f_equal.
      destruct (decide (o !!! i = e !!! i)) as [|Hne]; [done|].
      destruct (Hall i); [apply elem_of_seq; lia|done].
    + by rewrite !lookup_take_ge by lia.
  - intros Heq i [_ Hi]%elem_of_seq Hne. apply Hne.
    rewrite <- (lookup_total_take_lt o n i), <- (lookup_total_take_lt e n i) by lia.
    by rewrite Heq.
Qed.

Lemma error_count_zero (o e : list N) : error_count o e = 0 ↔ o `prefix_of` e.
Proof.
  unfold error_count. split.
  - intros Hz. assert (length o ≤ length e) as Hle by lia.
    rewrite Nat.min_l in Hz by done.
    assert (mismatches o e (length o) = 0) as Hm by lia.
    apply mismatches_zero in Hm; [|done..]. rewrite firstn_all in Hm.
    exists (drop (length o) e). rewrite <- (take_drop (length o) e) at 1.
    by rewrite <- Hm.
  - intros [k ->]. rewrite length_app, Nat.min_l by lia.
    replace (length o - (length o + length k)) with 0 by lia.
    rewrite Nat.add_0_r. apply mismatches_zero; [done|rewrite length_app; lia|].
    by rewrite firstn_all, take_app_length.
Qed.

(** X19: for two non-empty texts [calculate_ber_text] is 0 exactly
    when the original text is a prefix of the extracted one: characters
    after the end of the original do not count. *)
Theorem calculate_ber_text_zero (original_text extracted_text : list N) :
  original_text ≠ [] → extracted_text ≠ [] →
  ∃ ber, calculate_ber_text (Some original_text) (Some extracted_text) = Ok ber
    ∧ ((ber == 0)%Q ↔ original_text `prefix_of` extracted_text).
Proof.
  intros Ho He. rewrite calculate_ber_text_nonempty by done.
  eexists; split; [done|]. rewrite ratio_zero, error_count_zero; [done|].
  destruct original_text; simpl; [done|lia].
Qed.

(** *** [calculate_psnr] *)

Lemma squared_errors_sym a b : squared_errors a b = squared_errors b a.
Proof.
  unfold squared_errors. revert b.
  induction a as [|x a IH]; intros [|y b]; try done.
  cbn [zip_with]. rewrite IH. f_equal. rewrite !Z.pow_2_r. lia.
Qed.

(** X16: [calculate_psnr] is symmetric in its two arguments, the
    exception included. *)
Theorem calculate_psnr_sym (original modified : nat) (h : gmap nat ndarray) :
  calculate_psnr original modified h = calculate_psnr modified original h.
Proof.
  unfold calculate_psnr, mbind, M_bind, bind, load.
  destruct (h !! original) as [a|] eqn:Ha, (h !! modified) as [b|] eqn:Hb;
    rewrite ?Ha, ?Hb; try done.
  rewrite (squared_errors_sym (samples a)).
  destruct (decide (shape_of a = shape_of b)) as [Hs|Hs].
  - by rewrite !bool_decide_false by (intros ?; congruence).
  - by rewrite !bool_decide_true by congruence.
Qed.

End MetricsMore.

Module Distortion.
Import Flat Views Metrics MetricsFacts FlatFacts EmbedFacts RelaxFacts.

Abbreviation sum_sq a b := (foldr Z.add 0%Z (squared_errors a b)).

Lemma sum_sq_refl a : sum_sq a a = 0%Z.
Proof. by apply sum_squared_errors_zero. Qed.

Lemma square_small (x v : Z) : (Z.abs (v - x) ≤ 1 → 0 ≤ (x - v) ^ 2 ≤ 1)%Z.
Proof.
  intros Hv. assert (x - v = -1 ∨ x - v = 0 ∨ x - v = 1)%Z as [-> | [-> | ->]] by lia;
    done.
Qed.

Lemma sum_sq_insert cover buf off v :
  (∀ x, cover !! off = Some x → (Z.abs (v - x) ≤ 1)%Z) →
  (sum_sq cover (<[off := v]> buf) ≤ sum_sq cover buf + 1)%Z.
Proof.
  unfold squared_errors. revert buf off.
  induction cover as [|x cover IH]; intros [|y buf] off Hv; try (simpl; lia).
  destruct off as [|off].
  - change (<[0:=v]> (y :: buf)) with (v :: buf). cbn [zip_with foldr].
    pose proof (square_small x v (Hv x eq_refl)).
    pose proof (Z.pow_even_nonneg (x - y) 2 ltac:(by exists 1%Z)). lia.
  - change (<[S off:=v]> (y :: buf)) with (y :: <[off:=v]> buf). cbn [zip_with foldr].
    specialize (IH buf off (fun x Hx => Hv x Hx)). lia.
Qed.

Lemma sum_sq_write_zip cover bs offs buf :
  Forall (fun x => (0 ≤ x < 256)%Z) cover →
  Forall2 lsb_close cover buf →
  (sum_sq cover (write_zip bs offs buf) ≤ sum_sq cover buf + Z.of_nat (length bs))%Z.
Proof.
  intros Hbyte. revert offs buf.
  induction bs as [|b bs IH]; intros offs buf Hclose; [simpl; lia|].
  destruct offs as [|off offs]; [simpl; lia|]. cbn [write_zip].
  set (v := Z.lor _ _).
  assert (∀ x, cover !! off = Some x → lsb_close x v) as Hv.
  { intros x Hx. destruct (Forall2_lookup_l _ _ _ _ _ Hclose Hx) as (y & Hy & Hxy).
    subst v. rewrite (list_lookup_total_correct _ _ _ Hy).
    apply lsb_close_write; [done|apply int_of_digit_bit]. }
  etrans; [apply IH; by apply Forall2_insert_right|].
  pose proof (sum_sq_insert cover buf off v) as Hins. rewrite length_cons.
  enough (sum_sq cover (<[off:=v]> buf) ≤ sum_sq cover buf + 1)%Z by lia.
  apply Hins. intros x Hx. apply lsb_close_abs; [|by apply Hv].
  by eapply (Forall_lookup_1 _ _ _ _ Hbyte).
Qed.

Lemma sum_sq_close cover buf :
  Forall (fun x => (0 ≤ x < 256)%Z) cover →
  Forall2 lsb_close cover buf →
  (sum_sq cover buf ≤ Z.of_nat (length cover))%Z.
Proof.
  intros Hbyte Hclose. unfold squared_errors.
  induction Hclose as [|x y cover buf Hxy _ IH]; [done|].
  apply Forall_cons in Hbyte as [Hx Hbyte]. specialize (IH Hbyte).
  cbn [zip_with foldr]. rewrite length_cons.
  pose proof (square_small x y (lsb_close_abs x y Hx Hxy)). lia.
Qed.

Lemma mean_bounds (s d : Z) (n : nat) :
  0 < n → (0 ≤ s ≤ Z.of_nat n)%Z → (s ≤ d)%Z →
  let mse := (inject_Z s / inject_Z (Z.of_nat n))%Q in
  (Qeq_bool mse 0 = false → (0 < mse)%Q)
  ∧ (mse <= 1)%Q
  ∧ (mse * inject_Z (Z.of_nat n) <= inject_Z d)%Q.
Proof.
  intros Hn Hs Hd mse. subst mse. destruct n as [|n]; [lia|].
  split; [|split].
  - intros Hz. apply Qeq_bool_neq in Hz.
    revert Hz. unfold Qdiv, Qinv, Qmult, Qeq, Qlt, inject_Z. simpl. lia.
  - unfold Qdiv, Qinv, Qmult, Qle, inject_Z. simpl. lia.
  - unfold Qdiv, Qinv, Qmult, Qle, inject_Z. simpl. nia.
Qed.

Lemma calculate_psnr_written h l cover bs offs d :
  h !! l = Some cover → wf_ndarray cover → numel (shape_of cover) ≠ 0 →
  length bs ≤ d →
  let l' := fresh (dom h) in
  let h' := <[l' := mk_ndarray (shape_of cover) (write_zip bs offs (samples cover))]> h in
  ∃ v, calculate_psnr l l' h' = (Ok v, h')
    ∧ match v with
      | PosInf => True
      | NaN => False
      | Decibels mse =>
          (0 < mse ∧ mse <= 1
           ∧ mse * inject_Z (Z.of_nat (numel (shape_of cover)))
             <= inject_Z (Z.of_nat d))%Q
      end.
Proof.
  intros Hl [Hlen Hbyte] Hn Hd l' h'.
  assert (h !! l' = None) as Hfresh by apply not_elem_of_dom, is_fresh.
  assert (l ≠ l') as Hne by congruence.
  unfold calculate_psnr, mbind, M_bind, bind, load. subst h'.
  rewrite lookup_insert_ne by done. rewrite Hl, lookup_insert_eq. cbn [shape_of samples].
  rewrite bool_decide_false by (by intros ?).
  set (stego := write_zip bs offs (samples cover)).
  pose proof (wf_close_refl cover (conj Hlen Hbyte)) as Hrefl.
  pose proof (write_zip_close _ bs offs _ Hrefl) as Hclose. fold stego in Hclose.
  pose proof (sum_sq_write_zip _ bs offs _ Hbyte Hrefl) as Hsum. fold stego in Hsum.
  rewrite sum_sq_refl in Hsum.
  pose proof (sum_sq_close _ _ Hbyte Hclose) as Hsum'.
  pose proof (sum_squared_errors_nonneg (samples cover) stego) as Hpos.
  assert (length (squared_errors (samples cover) stego) = numel (shape_of cover)) as Hsq.
  { rewrite squared_errors_length; [done|]. subst stego. by rewrite write_zip_length. }
  unfold np_mean. destruct (squared_errors (samples cover) stego) as [|e es] eqn:He.
  { simpl in Hsq. lia. }
  rewrite Hsq. rewrite Hlen in Hsum'.
  destruct (mean_bounds (foldr Z.add 0%Z (e :: es)) (Z.of_nat d)
              (numel (shape_of cover))) as (Hz & Hone & Hd'); [lia..|].
  destruct (Qeq_bool _ 0) eqn:Hq.
  - by exists PosInf.
  - eexists (Decibels _). split; [done|]. auto.
Qed.

(** X14: the PSNR of a cover and of the stego image either engine made
    from it is infinite or has a mean squared error in (0, 1], at most the
    encoded length of the payload divided by the number of samples: the
    distortion is bounded by the share of samples that carry payload. *)
Theorem psnr_after_embed (compute_sobel_gradient : ndarray → list Z)
    (h h' : gmap nat ndarray) (l l' : nat) (cover : ndarray)
    (secret_data : list N) (threshold : Z) :
  h !! l = Some cover → wf_ndarray cover → numel (shape_of cover) ≠ 0 →
  LSBSteganography.embed l secret_data h = (Ok l', h')
  ∨ SobelAdaptiveSteganography.embed compute_sobel_gradient l secret_data threshold h
    = (Ok l', h') →
  ∃ v, calculate_psnr l l' h' = (Ok v, h')
    ∧ match v with
      | PosInf => True
      | NaN => False
      | Decibels mse =>
          (0 < mse ∧ mse <= 1
           ∧ mse * inject_Z (Z.of_nat (numel (shape_of cover)))
             <= inject_Z (Z.of_nat (length (encode secret_data))))%Q
      end.
Proof.
  intros Hl Hwf Hn [Hrun|Hrun].
  - rewrite (lsb_embed_run _ _ _ _ Hl) in Hrun.
    destruct (_ <? _); [discriminate|]. injection Hrun as <- <-.
    by apply calculate_psnr_written.
  - rewrite (sobel_embed_run _ _ _ _ _ _ Hl) in Hrun.
    destruct (SobelAdaptiveSteganography.choose_mask _ _ _ _) as [[t mask]|e];
      [|discriminate].
    injection Hrun as <- <-. by apply calculate_psnr_written.
Qed.

End Distortion.

Module PixelScan.
Import Flat Views FlatFacts EmbedFacts BitCodecFacts RoundTripFacts ExtractFacts.
Import DecodeFacts ExtractTotal EmbedEffect.
Import LSBSteganography.

Abbreviation payload_ok := (Forall (fun c => (0 < c ≤ 255)%N)).

(** *** The digits of a payload *)

Lemma payload_length p :
  Forall (fun c => (c ≤ 255)%N) p → length (flat_map format_08b p) = 8 * length p.
Proof.
  induction 1 as [|c p Hc _ IH]; [done|].
  cbn [flat_map]. rewrite length_app, IH, (proj2 (format_08b_length_byte c) Hc).
  simpl. lia.
Qed.

Lemma take_payload p m :
  Forall (fun c => (c ≤ 255)%N) p →
  take (8 * m) (flat_map format_08b p) = flat_map format_08b (take m p).
Proof.
  intros Hp. revert m. induction Hp as [|c p Hc _ IH]; intros m.
  { cbn [flat_map]. by rewrite !take_nil. }
  destruct m as [|m]; [by rewrite Nat.mul_0_r|].
  cbn [flat_map take]. rewrite <- IH.
  replace (8 * S m) with (length (format_08b c) + 8 * m)
    by (rewrite (proj2 (format_08b_length_byte c) Hc); lia).
  apply take_app_add.
Qed.

Lemma decode_payload p Y :
  Forall (fun c => (c ≤ 255)%N) p →
  decode (flat_map format_08b p ++ Y) = p ++ decode Y.
Proof.
  intros Hp. rewrite decode_app_aligned, decode_format; [done..|].
  rewrite payload_length by done. rewrite Nat.mul_comm. apply Nat.Div0.mod_mul.
Qed.

Lemma decode_with_payload p X :
  Forall (fun c => (c ≤ 255)%N) p →
  flat_map format_08b p `prefix_of` X → 8 * (length p + 1) ≤ length X →
  p `prefix_of` decode X ∧ length p < length (decode X).
Proof.
  intros Hp [Y ->] HX. rewrite decode_payload by done. split; [by exists (decode Y)|].
  rewrite length_app, payload_length in HX by done.
  destruct (decode_bytes Y) as [HY _]. rewrite length_app, HY.
  assert (1 ≤ length Y / 8); [|lia].
  apply Nat.div_le_lower_bound; lia.
Qed.

(** *** The terminator test along an embedded stream *)

Lemma check_terminator_inl b s :
  check_terminator b = inl s → s = decode (drop_last8 b) ∧ length b mod 8 = 0.
Proof.
  unfold check_terminator.
  destruct (Nat.eqb_spec (length b mod 8) 0); simpl; [|done].
  destruct (bitstr_eqb _ _); [|done]. by intros [= <-].
Qed.

Lemma check_before p R b X :
  payload_ok p → b ++ X = encode p ++ R → length b < 8 * (length p + 1) →
  check_terminator b = inr b.
Proof.
  intros Hp Hstream Hb. pose proof (RoundTrip.payload_bytes _ Hp) as Hbytes.
  destruct (decide (length b mod 8 = 0)) as [Hal|Hal];
    [|by apply check_terminator_unaligned].
  apply Nat.Div0.div_exact in Hal. set (m := length b / 8) in *.
  assert (b = flat_map format_08b (take m p)) as Hbm.
  { assert (b = take (length b) (encode p ++ R)) as Hb1
      by (rewrite <- Hstream; symmetry; apply take_app_length).
    etrans; [exact Hb1|]. rewrite Hal. unfold encode.
    rewrite <- app_assoc, take_app_le by (rewrite payload_length by done; lia).
    by apply take_payload. }
  destruct m as [|m]; [by destruct b|].
  assert (m < length p) as Hm by lia.
  destruct (lookup_lt_is_Some_2 _ _ Hm) as [c Hc].
  rewrite (take_S_r _ _ _ Hc), flat_map_app in Hbm. cbn [flat_map] in Hbm.
  rewrite app_nil_r in Hbm. rewrite Hbm.
  pose proof (Forall_lookup_1 _ _ _ _ Hp Hc) as [Hc0 Hc255]. cbv beta in *.
  rewrite check_terminator_byte.
  - rewrite decide_False; [done|]. by apply format_08b_not_terminator.
  - rewrite payload_length by (by apply Forall_take).
    rewrite Nat.mul_comm. apply Nat.Div0.mod_mul.
  - by apply format_08b_length_byte.
Qed.

Lemma check_at p : payload_ok p → check_terminator (encode p) = inl p.
Proof.
  intros Hp. pose proof (RoundTrip.payload_bytes _ Hp) as Hbytes. unfold encode.
  rewrite check_terminator_byte; [|rewrite payload_length by done|done].
  - rewrite decide_True by done. by rewrite decode_format.
  - rewrite Nat.mul_comm. apply Nat.Div0.mod_mul.
Qed.

Lemma prefix_into_take {A} (l1 l : list A) k :
  l1 `prefix_of` l → length l1 ≤ k → l1 `prefix_of` take k l.
Proof.
  intros [l2 ->] Hk. rewrite take_app_ge by done. by apply prefix_app_r.
Qed.

(** Once the stream is past the terminator without a test having fallen on
    it, whatever the scan returns is the payload and at least one more
    character. *)
Lemma scan_chunks_late p chunks chunk b :
  Forall (fun c => (c ≤ 255)%N) p →
  flat_map format_08b p `prefix_of` b ++ chunk →
  8 * (length p + 1) < length (b ++ chunk) →
  p `prefix_of` extracted (scan_chunks (chunk :: chunks) b)
  ∧ length p < length (extracted (scan_chunks (chunk :: chunks) b)).
Proof.
  intros Hp. revert chunk b. induction chunks as [|chunk' chunks IH]; intros chunk b Hpre Hlen.
  all: cbn [scan_chunks];
    destruct (check_terminator (b ++ chunk)) as [s|b'] eqn:Hc.
  1,3: apply check_terminator_inl in Hc as [-> Hal]; cbn [extracted];
    apply Nat.Div0.div_exact in Hal;
    apply decode_with_payload; [done| |unfold drop_last8; rewrite length_take; lia];
    apply prefix_into_take; [done|]; apply prefix_length in Hpre;
    rewrite payload_length in * by done; lia.
  - apply lsb_check_terminator_inr in Hc as ->. cbn [extracted].
    apply decode_with_payload; [done..|lia].
  - apply lsb_check_terminator_inr in Hc as ->. apply IH.
    + by apply prefix_app_r.
    + rewrite length_app. lia.
Qed.

(** The scan of a stream that begins with an encoded payload, read in
    groups of [c] digits. *)
Lemma scan_chunks_stream p R c chunks b :
  payload_ok p → 0 < c → Forall (fun chunk => length chunk = c) chunks →
  length b mod c = 0 → b ++ concat chunks = encode p ++ R →
  length b < 8 * (length p + 1) →
  let r := scan_chunks chunks b in
  p `prefix_of` extracted r
  ∧ ((8 * (length p + 1)) mod c = 0 → r = inl p)
  ∧ ((8 * (length p + 1)) mod c ≠ 0 → length p < length (extracted r)).
Proof.
  intros Hp Hc Hchunks. pose proof (RoundTrip.payload_bytes _ Hp) as Hbytes.
  assert (length (encode p) = 8 * (length p + 1)) as HE by by apply encode_length_bytes.
  revert b. induction Hchunks as [|chunk chunks Hchunk _ IH]; intros b Hb Hstream Hlen.
  { simpl in Hstream. rewrite app_nil_r in Hstream.
    apply (f_equal length) in Hstream. rewrite length_app in Hstream. lia. }
  assert (flat_map format_08b p `prefix_of` encode p ++ R) as Hpre.
  { unfold encode. rewrite <- app_assoc. by eexists. }
  cbn [concat] in Hstream. rewrite app_assoc in Hstream.
  assert (length (b ++ chunk) mod c = 0) as Hb'.
  { rewrite length_app, Hchunk, <- Nat.Div0.add_mod_idemp_l, Hb. simpl.
    apply Nat.Div0.mod_same. }
  destruct (lt_eq_lt_dec (length (b ++ chunk)) (8 * (length p + 1))) as [[Hlt|Heq]|Hgt].
  - cbn [scan_chunks]. rewrite (check_before p R _ _ Hp Hstream Hlt). by apply IH.
  - assert (b ++ chunk = encode p) as Hbe.
    { rewrite <- (take_app_length (b ++ chunk) (concat chunks)), Hstream, Heq, <- HE.
      apply take_app_length. }
    cbn [scan_chunks]. rewrite Hbe, check_at by done. cbn [extracted].
    split; [done|]. split; [done|]. intros Hne. rewrite <- Heq in Hne. done.
  - assert (flat_map format_08b p `prefix_of` b ++ chunk) as Hpre'.
    { rewrite <- (take_app_length (b ++ chunk) (concat chunks)), Hstream.
      apply prefix_into_take; [done|]. rewrite payload_length by done. lia. }
    destruct (scan_chunks_late p chunks chunk b Hbytes Hpre' Hgt) as [H1 H2].
    split; [done|]. split; [|done]. intros Hmod. exfalso.
    apply Nat.Div0.div_exact in Hb, Hmod. rewrite length_app, Hchunk in Hgt.
    set (kb := length b / c) in *. set (ke := (8 * (length p + 1)) / c) in *.
    assert (kb < ke) by nia. assert (ke < kb + 1) by nia. lia.
Qed.

(** *** The extraction loops as a scan of pixel groups *)

Lemma scan_chunks_app l1 l2 b :
  scan_chunks (l1 ++ l2) b
  = match scan_chunks l1 b with inl s => inl s | inr b' => scan_chunks l2 b' end.
Proof.
  revert b. induction l1 as [|ch l1 IH]; intros b; [done|].
  cbn [app scan_chunks]. by destruct (check_terminator _).
Qed.

Lemma pixel_bits_reads a i j :
  pixel_bits a i j = reads a (pixel_slots (shape_of a) (offset2 (shape_of a) i j)).
Proof.
  unfold pixel_bits, reads, pixel_slots, offset3, offset2.
  destruct (shape_of a) as [H W|H W]; cbn [channels seq map width].
  - do 3 f_equal. lia.
  - done.
Qed.

Lemma lsb_extract_row_chunks a i jrange b :
  extract_row a i jrange b = scan_chunks (map (pixel_bits a i) jrange) b.
Proof.
  revert b. induction jrange as [|j jrange IH]; intros b; [done|].
  cbn [extract_row map scan_chunks]. by destruct (check_terminator _).
Qed.

Lemma lsb_extract_rows_chunks a irange b :
  extract_rows a irange b
  = scan_chunks
      (flat_map (fun i => map (pixel_bits a i) (seq 0 (width (shape_of a)))) irange) b.
Proof.
  revert b. induction irange as [|i irange IH]; intros b; [done|].
  cbn [extract_rows flat_map]. rewrite scan_chunks_app, lsb_extract_row_chunks.
  by destruct (scan_chunks _ _).
Qed.

Lemma concat_pixel_row a i jrange :
  concat (map (pixel_bits a i) jrange) = reads a (row_slots (shape_of a) None i jrange).
Proof.
  induction jrange as [|j jrange IH]; [done|].
  cbn [map concat]. rewrite row_slots_cons, IH, pixel_bits_reads. cbn [selected].
  unfold reads. by rewrite map_app.
Qed.

Lemma concat_pixel_rows a irange :
  concat (flat_map (fun i => map (pixel_bits a i) (seq 0 (width (shape_of a)))) irange)
  = reads a (slots (shape_of a) None irange).
Proof.
  induction irange as [|i irange IH]; [done|].
  cbn [flat_map]. rewrite concat_app, slots_cons, IH, concat_pixel_row.
  unfold reads. by rewrite map_app.
Qed.

Lemma pixel_rows_length a irange :
  Forall (fun chunk => length chunk = channels (shape_of a))
    (flat_map (fun i => map (pixel_bits a i) (seq 0 (width (shape_of a)))) irange).
Proof.
  apply Forall_forall. intros chunk Hin. apply list_elem_of_In, in_flat_map in Hin.
  destruct Hin as (i & _ & Hin). apply in_map_iff in Hin as (j & <- & _).
  apply pixel_bits_length.
Qed.

(** What [extract] returns on the array [embed] has written. *)
Lemma lsb_extract_written_any h l' (s : shape) (secret_data : list N) buf :
  length buf = numel s → Forall (fun x => (0 ≤ x < 256)%Z) buf →
  payload_ok secret_data → length (encode secret_data) ≤ numel s →
  let stego := mk_ndarray s
                 (write_zip (encode secret_data) (slots s None (seq 0 (height s))) buf) in
  ∃ extracted_data,
    extract l' (<[l' := stego]> h) = (Ok extracted_data, <[l' := stego]> h)
    ∧ secret_data `prefix_of` extracted_data
    ∧ ((8 * (length secret_data + 1)) mod channels s = 0 → extracted_data = secret_data)
    ∧ ((8 * (length secret_data + 1)) mod channels s ≠ 0 →
       length secret_data < length extracted_data).
Proof.
  intros Hlen Hbyte Hp Hfit stego.
  unfold extract, mbind, M_bind, bind, load. rewrite lookup_insert_eq.
  rewrite lsb_extract_rows_chunks.
  set (chunks := flat_map _ _).
  assert (concat chunks
          = encode secret_data
            ++ map (fun off => str_lsb (buf !!! off))
                 (drop (length (encode secret_data)) (seq 0 (numel s)))) as Hstream.
  { subst chunks. rewrite concat_pixel_rows. cbn [shape_of stego].
    rewrite slots_all. unfold reads. cbn [samples stego]. rewrite slots_all.
    apply write_zip_reads; [apply NoDup_seq| |apply encode_digits|done|by rewrite length_seq].
    apply Forall_forall. intros off Hoff%elem_of_seq. lia. }
  pose proof (RoundTrip.payload_bytes _ Hp) as Hbytes.
  set (R := map _ _) in Hstream.
  destruct (scan_chunks_stream secret_data R (channels s) chunks [] Hp) as (H1 & H2 & H3);
    [destruct s; simpl; lia|apply (pixel_rows_length stego)
    |apply Nat.Div0.mod_0_l|exact Hstream
    |simpl; lia|].
  exists (extracted (scan_chunks chunks [])). split; [by destruct (scan_chunks _ _)|].
  split; [done|]. split; [|done]. intros Hmod. by rewrite (H2 Hmod).
Qed.

(** X7: for a payload of code points 1..255 that
    [LSBSteganography.embed] accepted, on a grayscale or a color cover,
    [LSBSteganography.extract] on the stego image returns a string that
    begins with the payload; it is the payload itself exactly when the cover
    is grayscale or the payload length plus one is a multiple of 3 (the
    terminator is tested after every pixel, that is every three digits of
    a color image). *)
Theorem lsb_roundtrip_any_shape (h h' : gmap nat ndarray) (l l' : nat)
    (cover : ndarray) (secret_data : list N) :
  h !! l = Some cover → wf_ndarray cover →
  Forall (fun c => (0 < c ≤ 255)%N) secret_data →
  embed l secret_data h = (Ok l', h') →
  ∃ extracted_data,
    extract l' h' = (Ok extracted_data, h')
    ∧ secret_data `prefix_of` extracted_data
    ∧ (extracted_data = secret_data
       ↔ match shape_of cover with
         | Gray _ _ => True
         | Color _ _ => (length secret_data + 1) mod 3 = 0
         end).
Proof.
  intros Hl [Hlen Hbyte] Hp Hrun. rewrite (lsb_embed_run _ _ _ _ Hl) in Hrun.
  destruct (Nat.ltb_spec (length (samples cover)) (length (encode secret_data)))
    as [|Hfit]; [discriminate|].
  injection Hrun as <- <-. rewrite Hlen in Hfit.
  destruct (lsb_extract_written_any h (fresh (dom h)) (shape_of cover) secret_data
              (samples cover) Hlen Hbyte Hp Hfit) as (s & Hs & Hpre & Hexact & Hlong).
  exists s. split; [done|]. split; [done|].
  destruct (shape_of cover) as [H W|H W]; cbn [channels] in *.
  - split; [done|]. intros _. apply Hexact. apply Nat.mod_1_r.
  - assert ((8 * (length secret_data + 1)) mod 3 = 0
            ↔ (length secret_data + 1) mod 3 = 0) as <-.
    { rewrite !Nat.Lcm0.mod_divide. split.
      - intros Hd. apply Nat.gauss with (m := 8); [done|reflexivity].
      - intros Hd. by apply Nat.divide_mul_r. }
    split; [|done]. intros ->.
    destruct (decide ((8 * (length secret_data + 1)) mod 3 = 0)) as [|Hne]; [done|].
    specialize (Hlong Hne). lia.
Qed.

End PixelScan.

Module MaskedScan.
Import Flat Views FlatFacts EmbedFacts BitCodecFacts RelaxFacts RoundTripFacts ExtractFacts.
Import DecodeFacts ExtractTotal EmbedEffect PixelScan MetricsMore.

(** The terminator test of [sobel_adaptive.py] has one more conjunct, which
    the comparison of the last eight characters implies. *)
Lemma sobel_check_terminator_eq b :
  SobelAdaptiveSteganography.check_terminator b = LSBSteganography.check_terminator b.
Proof.
  unfold SobelAdaptiveSteganography.check_terminator, LSBSteganography.check_terminator.
  destruct (length b mod 8 =? 0); [|done]. cbn [andb].
  destruct (Nat.leb_spec 8 (length b)) as [|Hshort]; [done|]. cbn [andb].
  destruct (bitstr_eqb (last8 b) terminator) eqn:Heq; [|done].
  unfold bitstr_eqb in Heq. apply bool_decide_eq_true in Heq.
  apply (f_equal length) in Heq. unfold last8 in Heq. rewrite length_drop in Heq.
  simpl in Heq. lia.
Qed.

Abbreviation masked_pixels a mask i jrange :=
  (map (LSBSteganography.pixel_bits a i)
     (filter (fun j => selected (Some mask) (offset2 (shape_of a) i j) = true) jrange)).

Lemma sobel_extract_row_chunks a mask i jrange b :
  SobelAdaptiveSteganography.extract_row a mask i jrange b
  = scan_chunks (masked_pixels a mask i jrange) b.
Proof.
  revert b. induction jrange as [|j jrange IH]; intros b; [done|].
  cbn [SobelAdaptiveSteganography.extract_row]. rewrite filter_cons. cbn [selected].
  destruct (Z.eqb_spec (mask !!! offset2 (shape_of a) i j) 1) as [Hsel|Hsel].
  - rewrite decide_True by done. cbn [map scan_chunks].
    rewrite sobel_check_terminator_eq. by destruct (LSBSteganography.check_terminator _).
  - rewrite decide_False by done. apply IH.
Qed.

Lemma sobel_extract_rows_chunks a mask irange b :
  SobelAdaptiveSteganography.extract_rows a mask irange b
  = scan_chunks
      (flat_map (fun i => masked_pixels a mask i (seq 0 (width (shape_of a)))) irange) b.
Proof.
  revert b. induction irange as [|i irange IH]; intros b; [done|].
  cbn [SobelAdaptiveSteganography.extract_rows flat_map].
  rewrite scan_chunks_app, sobel_extract_row_chunks. by destruct (scan_chunks _ _).
Qed.

Lemma concat_masked_row a mask i jrange :
  concat (masked_pixels a mask i jrange)
  = reads a (row_slots (shape_of a) (Some mask) i jrange).
Proof.
  induction jrange as [|j jrange IH]; [done|].
  rewrite filter_cons, row_slots_cons.
  destruct (selected (Some mask) (offset2 (shape_of a) i j)) eqn:Hsel.
  - rewrite decide_True by done. cbn [map concat].
    rewrite IH, pixel_bits_reads. unfold reads. by rewrite map_app.
  - rewrite decide_False by done. apply IH.
Qed.

Lemma concat_masked_rows a mask irange :
  concat (flat_map (fun i => masked_pixels a mask i (seq 0 (width (shape_of a)))) irange)
  = reads a (slots (shape_of a) (Some mask) irange).
Proof.
  induction irange as [|i irange IH]; [done|].
  cbn [flat_map]. rewrite concat_app, slots_cons, IH, concat_masked_row.
  unfold reads. by rewrite map_app.
Qed.

Lemma masked_rows_length a mask irange :
  Forall (fun chunk => length chunk = channels (shape_of a))
    (flat_map (fun i => masked_pixels a mask i (seq 0 (width (shape_of a)))) irange).
Proof.
  apply Forall_forall. intros chunk Hin. apply list_elem_of_In, in_flat_map in Hin.
  destruct Hin as (i & _ & Hin). apply in_map_iff in Hin as (j & <- & _).
  apply pixel_bits_length.
Qed.

(** *** The slots of a masked loop, for both shapes *)

Lemma row_slots_sublist s mask i jrange :
  row_slots s mask i jrange `sublist_of` row_slots s None i jrange.
Proof.
  induction jrange as [|j jrange IH]; [done|].
  rewrite !row_slots_cons. apply sublist_app; [|done]. cbn [selected].
  destruct (selected mask _); [done|apply sublist_nil_l].
Qed.

Lemma slots_sublist s mask irange :
  slots s mask irange `sublist_of` slots s None irange.
Proof.
  induction irange as [|i irange IH]; [done|].
  rewrite !slots_cons. apply sublist_app; [apply row_slots_sublist|done].
Qed.

Lemma slots_NoDup s mask : NoDup (slots s mask (seq 0 (height s))).
Proof.
  eapply sublist_NoDup; [|apply slots_sublist]. rewrite slots_all. apply NoDup_seq.
Qed.

Lemma slots_bound s mask :
  Forall (fun off => off < numel s) (slots s mask (seq 0 (height s))).
Proof.
  apply Forall_forall. intros off Hoff.
  eapply elem_of_sublist in Hoff; [|apply slots_sublist].
  rewrite slots_all in Hoff. apply elem_of_seq in Hoff. lia.
Qed.

Lemma row_slots_length s mask i jrange :
  length (row_slots s mask i jrange)
  = channels s * length (row_slots (Gray (height s) (width s)) mask i jrange).
Proof.
  induction jrange as [|j jrange IH]; [simpl; lia|].
  rewrite !row_slots_cons, !length_app, IH.
  replace (offset2 (Gray (height s) (width s)) i j) with (offset2 s i j) by done.
  destruct (selected mask (offset2 s i j)).
  - rewrite pixel_slots_gray, !pixel_slots_seq, length_seq. simpl. lia.
  - simpl. lia.
Qed.

Lemma slots_length s mask irange :
  length (slots s mask irange)
  = channels s * length (slots (Gray (height s) (width s)) mask irange).
Proof.
  induction irange as [|i irange IH]; [simpl; lia|].
  rewrite !slots_cons, !length_app, IH, row_slots_length. cbn [width]. lia.
Qed.

Lemma cap_slots gradient s t :
  length gradient = height s * width s →
  cap gradient s t
  = Z.of_nat (length (slots s
                        (Some (SobelAdaptiveSteganography.create_embedding_mask gradient t))
                        (seq 0 (height s)))).
Proof.
  intros Hg. rewrite slots_length.
  pose proof (cap_gray_slots gradient (height s) (width s) t Hg) as Hgray.
  cbn [height] in Hgray. rewrite Nat2Z.inj_mul, <- Hgray.
  unfold cap, SobelAdaptiveSteganography.available_capacity.
  destruct s; cbn [channels]; lia.
Qed.

Section WithGradient.
Variable compute_sobel_gradient : ndarray → list Z.

(** What [extract] returns on the array [embed] has written, when it
  computes the mask [embed] used. *)
Lemma sobel_extract_written_any h l' (s : shape) (secret_data : list N) buf mask threshold :
length buf = numel s → Forall (fun x => (0 ≤ x < 256)%Z) buf →
payload_ok secret_data →
length (encode secret_data) ≤ length (slots s (Some mask) (seq 0 (height s))) →
let stego := mk_ndarray s
               (write_zip (encode secret_data)
                  (slots s (Some mask) (seq 0 (height s))) buf) in
SobelAdaptiveSteganography.create_embedding_mask (compute_sobel_gradient stego) threshold
  = mask →
∃ extracted_data,
  SobelAdaptiveSteganography.extract compute_sobel_gradient l' threshold
    (<[l' := stego]> h) = (Ok extracted_data, <[l' := stego]> h)
  ∧ secret_data `prefix_of` extracted_data
  ∧ ((8 * (length secret_data + 1)) mod channels s = 0 → extracted_data = secret_data)
  ∧ ((8 * (length secret_data + 1)) mod channels s ≠ 0 →
     length secret_data < length extracted_data).
Proof.
intros Hlen Hbyte Hp Hfit stego Hmask.
unfold SobelAdaptiveSteganography.extract, mbind, M_bind, bind, load.
rewrite lookup_insert_eq, Hmask, sobel_extract_rows_chunks.
set (chunks := flat_map _ _).
set (offs := slots s (Some mask) (seq 0 (height s))) in *.
assert (concat chunks
        = encode secret_data
          ++ map (fun off => str_lsb (buf !!! off))
               (drop (length (encode secret_data)) offs)) as Hstream.
{ subst chunks. rewrite concat_masked_rows. cbn [shape_of stego].
  fold offs. unfold reads. cbn [samples stego].
  apply write_zip_reads; [apply slots_NoDup| |apply encode_digits|done|done].
  rewrite Hlen. apply slots_bound. }
set (R := map _ _) in Hstream.
destruct (scan_chunks_stream secret_data R (channels s) chunks [] Hp) as (H1 & H2 & H3);
  [destruct s; simpl; lia|apply (masked_rows_length stego)
  |apply Nat.Div0.mod_0_l|exact Hstream|simpl; lia|].
exists (extracted (scan_chunks chunks [])). split; [by destruct (scan_chunks _ _)|].
split; [done|]. split; [|done]. intros Hmod. by rewrite (H2 Hmod).
Qed.

(** X8: the same for [SobelAdaptiveSteganography], whenever the mask
  that [extract] computes from the stego image is the mask [embed] used
  (the gradient map having one value per pixel): the string returned
  begins with the payload, and is the payload exactly on a grayscale cover
  or when the payload length plus one is a multiple of 3. *)
Theorem sobel_roundtrip_any_shape (h h' : gmap nat ndarray) (l l' : nat)
  (cover stego : ndarray) (secret_data : list N) (threshold threshold' t' : Z)
  (mask : list Z) :
h !! l = Some cover → wf_ndarray cover →
Forall (fun c => (0 < c ≤ 255)%N) secret_data →
length (compute_sobel_gradient cover)
= height (shape_of cover) * width (shape_of cover) →
SobelAdaptiveSteganography.embed compute_sobel_gradient l secret_data threshold h
= (Ok l', h') →
h' !! l' = Some stego →
SobelAdaptiveSteganography.choose_mask (compute_sobel_gradient cover) (shape_of cover)
  (Z.of_nat (length (encode secret_data))) threshold = Ok (t', mask) →
SobelAdaptiveSteganography.create_embedding_mask (compute_sobel_gradient stego) threshold'
= mask →
∃ extracted_data,
  SobelAdaptiveSteganography.extract compute_sobel_gradient l' threshold' h'
  = (Ok extracted_data, h')
  ∧ secret_data `prefix_of` extracted_data
  ∧ (extracted_data = secret_data
     ↔ match shape_of cover with
       | Gray _ _ => True
       | Color _ _ => (length secret_data + 1) mod 3 = 0
       end).
Proof.
intros Hl [Hlen Hbyte] Hp Hg Hrun Hstego Hchoose Hmask.
rewrite (sobel_embed_run _ _ _ _ _ _ Hl), Hchoose in Hrun. injection Hrun as <- <-.
rewrite lookup_insert_eq in Hstego. injection Hstego as <-.
assert (length (encode secret_data)
        ≤ length (slots (shape_of cover) (Some mask) (seq 0 (height (shape_of cover)))))
  as Hfit.
{ destruct (choose_mask_spec (compute_sobel_gradient cover) (shape_of cover)
              (Z.of_nat (length (encode secret_data))) threshold)
    as [[Hc _]|(t'' & Hc & _ & _ & Hcap & _)]; rewrite Hc in Hchoose; [discriminate|].
  injection Hchoose as <- <-. rewrite cap_slots in Hcap by done. lia. }
destruct (sobel_extract_written_any h (fresh (dom h)) (shape_of cover) secret_data
            (samples cover) mask threshold' Hlen Hbyte Hp Hfit Hmask)
  as (s & Hs & Hpre & Hexact & Hlong).
exists s. split; [done|]. split; [done|].
destruct (shape_of cover) as [H W|H W]; cbn [channels] in *.
- split; [done|]. intros _. apply Hexact. apply Nat.mod_1_r.
- assert ((8 * (length secret_data + 1)) mod 3 = 0
          ↔ (length secret_data + 1) mod 3 = 0) as <-.
  { rewrite !Nat.Lcm0.mod_divide. split.
    - intros Hd. apply Nat.gauss with (m := 8); [done|reflexivity].
    - intros Hd. by apply Nat.divide_mul_r. }
  split; [|done]. intros ->.
  destruct (decide ((8 * (length secret_data + 1)) mod 3 = 0)) as [|Hne]; [done|].
  specialize (Hlong Hne). lia.
Qed.

End WithGradient.

(** X20: [calculate_ber_text] of a payload of code points 1..255 and
    of what [LSBSteganography.extract] returns on its stego image is 0 for
    every non-empty payload, on grayscale and on color covers alike, also
    where the extracted text is longer than the payload; for the empty
    payload it is 1. *)
Theorem ber_text_after_lsb_roundtrip (h h' : gmap nat ndarray) (l l' : nat)
    (cover : ndarray) (secret_data : list N) :
  h !! l = Some cover → wf_ndarray cover →
  Forall (fun c => (0 < c ≤ 255)%N) secret_data →
  LSBSteganography.embed l secret_data h = (Ok l', h') →
  ∃ extracted_data ber,
    LSBSteganography.extract l' h' = (Ok extracted_data, h')
    ∧ Metrics.calculate_ber_text (Some secret_data) (Some extracted_data) = Ok ber
    ∧ (secret_data ≠ [] → (ber == 0)%Q)
    ∧ (secret_data = [] → ber = 1%Q).
Proof.
  intros Hl [Hlen Hbyte] Hp Hrun. rewrite (lsb_embed_run _ _ _ _ Hl) in Hrun.
  destruct (Nat.ltb_spec (length (samples cover)) (length (encode secret_data)))
    as [|Hfit]; [discriminate|].
  injection Hrun as <- <-. rewrite Hlen in Hfit.
  destruct (lsb_extract_written_any h (fresh (dom h)) (shape_of cover) secret_data
              (samples cover) Hlen Hbyte Hp Hfit) as (s & Hs & Hpre & _).
  exists s. destruct secret_data as [|c p]; [by exists 1%Q|].
  destruct s as [|c' s'].
  { apply prefix_length in Hpre. simpl in Hpre. lia. }
  rewrite MetricsFacts.calculate_ber_text_nonempty by done.
  eexists. split; [done|]. split; [done|]. split; [|done]. intros _.
  rewrite ratio_zero by (simpl; lia). by apply error_count_zero.
Qed.

End MaskedScan.

Module CrossChecks.
Import Flat Views Metrics MetricsFacts FlatFacts EmbedFacts BitCodecFacts RelaxFacts.
Import RoundTripFacts ExtractFacts DecodeFacts ExtractTotal EmbedEffect SobelFacts.
Import PixelScan MaskedScan MetricsMore Distortion.

(** *** The codec on its own *)

Lemma until_nul_payload p :
  Forall (fun c => (0 < c ≤ 255)%N) p → until_nul (p ++ [0%N]) = p.
Proof.
  induction 1 as [|c p Hc _ IH]; [done|].
  cbn [app until_nul]. destruct (N.eqb_spec c 0); [lia|]. by rewrite IH.
Qed.

(** X2: decoding the encoding of a payload of code points at most 255
    gives the payload followed by the character 0 of the terminator, and the
    payload itself once cut at the first character 0 when no character of
    the payload is 0. *)
Theorem decode_encode (secret_data : list N) :
  Forall (fun c => (c ≤ 255)%N) secret_data →
  decode (encode secret_data) = secret_data ++ [0%N]
  ∧ (Forall (fun c => (0 < c)%N) secret_data →
     until_nul (decode (encode secret_data)) = secret_data).
Proof.
  intros Hbytes.
  assert (decode (encode secret_data) = secret_data ++ [0%N]) as Hdec.
  { unfold encode. by rewrite decode_payload. }
  split; [done|]. intros Hpos. rewrite Hdec. apply until_nul_payload.
  apply Forall_forall. intros c Hc.
  split; [by apply (proj1 (Forall_forall _ _) Hpos)
         |by apply (proj1 (Forall_forall _ _) Hbytes)].
Qed.

(** *** The range of [calculate_psnr] *)

Lemma sum_sq_range a b :
  Forall (fun x => (0 ≤ x < 256)%Z) a → Forall (fun x => (0 ≤ x < 256)%Z) b →
  (sum_sq a b ≤ 65025 * Z.of_nat (length a))%Z.
Proof.
  unfold squared_errors. intros Ha. revert b.
  induction Ha as [|x a Hx _ IH]; intros b Hb; [done|].
  destruct Hb as [|y b Hy Hb]; [simpl; lia|].
  cbn [zip_with foldr]. specialize (IH b Hb). rewrite length_cons, Z.pow_2_r.
  assert (-255 ≤ x - y ≤ 255)%Z by lia. nia.
Qed.

(** X15: for two arrays of [uint8] samples of one shape with at least
    one sample, [calculate_psnr] is infinite when the samples are equal and
    otherwise has a mean squared error in (0, 255^2], so that the value
    20 * log10(255 / sqrt(mse)) it stands for is not negative. *)
Theorem calculate_psnr_range (h : gmap nat ndarray) (original modified : nat)
    (a b : ndarray) :
  h !! original = Some a → h !! modified = Some b →
  wf_ndarray a → wf_ndarray b → shape_of a = shape_of b → numel (shape_of a) ≠ 0 →
  ∃ v, calculate_psnr original modified h = (Ok v, h)
    ∧ match v with
      | PosInf => samples a = samples b
      | NaN => False
      | Decibels mse => (0 < mse ∧ mse <= 65025)%Q ∧ samples a ≠ samples b
      end.
Proof.
  intros Ha Hb [Hla Hba] [Hlb Hbb] Hs Hn.
  unfold calculate_psnr, mbind, M_bind, bind, load. rewrite Ha, Hb.
  rewrite bool_decide_false by (by intros ?).
  assert (length (samples a) = length (samples b)) as Hlen by congruence.
  pose proof (sum_sq_range _ _ Hba Hbb) as Hhi.
  pose proof (sum_squared_errors_nonneg (samples a) (samples b)) as Hlo.
  pose proof (sum_squared_errors_zero _ _ Hlen) as Hzero.
  pose proof (squared_errors_length _ _ Hlen) as Hsq.
  unfold np_mean. destruct (squared_errors (samples a) (samples b)) as [|e es] eqn:He.
  { simpl in Hsq. lia. }
  rewrite Hsq, Hla in *. set (s := foldr Z.add 0%Z (e :: es)) in *.
  destruct (numel (shape_of a)) as [|n]; [done|].
  destruct (Qeq_bool _ 0) eqn:Hq.
  - exists PosInf. split; [done|]. apply Hzero. apply Qeq_bool_eq in Hq.
    revert Hq. unfold Qdiv, Qinv, Qmult, Qeq, inject_Z. simpl. lia.
  - eexists (Decibels _). split; [done|]. apply Qeq_bool_neq in Hq.
    split; [split|].
    + revert Hq. unfold Qdiv, Qinv, Qmult, Qeq, Qlt, inject_Z. simpl. lia.
    + unfold Qdiv, Qinv, Qmult, Qle, inject_Z. simpl. lia.
    + intros Heq. apply Hzero in Heq. apply Hq.
      unfold Qdiv, Qinv, Qmult, Qeq, inject_Z. simpl. lia.
Qed.

(** *** A mask that selects every pixel *)

Lemma mask_ones gradient t :
  Forall (fun g => (t < g)%Z) gradient →
  Forall (fun m => m = 1%Z) (SobelAdaptiveSteganography.create_embedding_mask gradient t).
Proof.
  induction 1 as [|g gradient Hg _ IH]; [constructor|].
  unfold SobelAdaptiveSteganography.create_embedding_mask in *. cbn [map].
  constructor; [|done]. by destruct (Z.ltb_spec t g); [|lia].
Qed.

Lemma selected_ones mask p :
  Forall (fun m => m = 1%Z) mask → p < length mask → selected (Some mask) p = true.
Proof.
  intros Hones Hp. cbn [selected]. apply Z.eqb_eq.
  destruct (lookup_lt_is_Some_2 _ _ Hp) as [m Hm].
  rewrite (list_lookup_total_correct _ _ _ Hm).
  by apply (Forall_lookup_1 _ _ _ _ Hones Hm).
Qed.

Lemma flat_map_ext_seq {A} (f g : nat → list A) a n :
  (∀ i, a ≤ i < a + n → f i = g i) → flat_map f (seq a n) = flat_map g (seq a n).
Proof.
  revert a. induction n as [|n IH]; intros a Hfg; [done|].
  cbn [seq flat_map]. rewrite Hfg by lia. f_equal. apply IH. intros i Hi. apply Hfg. lia.
Qed.

Lemma slots_ones s mask :
  Forall (fun m => m = 1%Z) mask → length mask = height s * width s →
  slots s (Some mask) (seq 0 (height s)) = slots s None (seq 0 (height s)).
Proof.
  intros Hones Hlen. unfold slots, row_slots. apply flat_map_ext_seq. intros i Hi.
  apply flat_map_ext_seq. intros j Hj.
  rewrite selected_ones; [done..|]. rewrite Hlen. unfold offset2. nia.
Qed.

Lemma masked_pixels_ones a mask i :
  Forall (fun m => m = 1%Z) mask →
  length mask = height (shape_of a) * width (shape_of a) →
  i < height (shape_of a) →
  masked_pixels a mask i (seq 0 (width (shape_of a)))
  = map (LSBSteganography.pixel_bits a i) (seq 0 (width (shape_of a))).
Proof.
  intros Hones Hlen Hi. f_equal.
  assert (∀ j, j ∈ seq 0 (width (shape_of a)) →
               selected (Some mask) (offset2 (shape_of a) i j) = true) as Hall.
  { intros j Hj%elem_of_seq. apply selected_ones; [done|].
    rewrite Hlen. unfold offset2. nia. }
  induction (seq 0 (width (shape_of a))) as [|j js IH]; [done|].
  rewrite filter_cons, decide_True by (apply Hall; left).
  f_equal. apply IH. intros j' Hj'. apply Hall. by right.
Qed.

Section WithGradient.
Variable compute_sobel_gradient : ndarray → list Z.

(** X9: at a negative threshold, for a gradient map of non-negative
  values with one value per pixel, [SobelAdaptiveSteganography.embed] and
  [extract] are [LSBSteganography.embed] and [extract]: same result, same
  exception, same heap. *)
Theorem sobel_negative_threshold_is_lsb (h : gmap nat ndarray) (l : nat)
  (image : ndarray) (secret_data : list N) (threshold : Z) :
h !! l = Some image →
length (samples image) = numel (shape_of image) →
length (compute_sobel_gradient image)
= height (shape_of image) * width (shape_of image) →
Forall (fun g => (0 ≤ g)%Z) (compute_sobel_gradient image) →
(threshold < 0)%Z →
SobelAdaptiveSteganography.embed compute_sobel_gradient l secret_data threshold h
= LSBSteganography.embed l secret_data h
∧ SobelAdaptiveSteganography.extract compute_sobel_gradient l threshold h
  = LSBSteganography.extract l h.
Proof.
intros Hl Hlen Hg Hpos Ht.
assert (∀ t', (t' ≤ threshold)%Z →
          Forall (fun m => m = 1%Z)
            (SobelAdaptiveSteganography.create_embedding_mask
               (compute_sobel_gradient image) t')) as Hones.
{ intros t' Ht'. apply mask_ones. eapply Forall_impl; [exact Hpos|]. simpl. lia. }
assert (∀ t', (t' ≤ threshold)%Z →
          cap (compute_sobel_gradient image) (shape_of image) t'
          = Z.of_nat (numel (shape_of image))) as Hcap.
{ intros t' Ht'. rewrite cap_slots by done.
  rewrite slots_ones, slots_all, length_seq;
    [done|by apply Hones|by rewrite create_embedding_mask_length]. }
split.
- rewrite (sobel_embed_run _ _ _ _ _ _ Hl), (lsb_embed_run _ _ _ _ Hl), Hlen.
  destruct (choose_mask_spec (compute_sobel_gradient image) (shape_of image)
              (Z.of_nat (length (encode secret_data))) threshold)
    as [[Hc Hlow]|(t' & Hc & Hle & _ & Hfit & _)]; rewrite Hc.
  + rewrite Hcap in Hlow by apply last_threshold_le.
    destruct (Nat.ltb_spec (numel (shape_of image)) (length (encode secret_data)));
      [done|lia].
  + rewrite Hcap in Hfit by done.
    destruct (Nat.ltb_spec (numel (shape_of image)) (length (encode secret_data)));
      [lia|].
    rewrite slots_ones; [done|by apply Hones|by rewrite create_embedding_mask_length].
- unfold SobelAdaptiveSteganography.extract, LSBSteganography.extract,
    mbind, M_bind, bind, load. rewrite Hl.
  rewrite sobel_extract_rows_chunks, lsb_extract_rows_chunks.
  set (mask := SobelAdaptiveSteganography.create_embedding_mask _ _).
  replace (flat_map (fun i => masked_pixels image mask i (seq 0 (width (shape_of image))))
             (seq 0 (height (shape_of image))))
    with (flat_map (fun i => map (LSBSteganography.pixel_bits image i)
                               (seq 0 (width (shape_of image))))
            (seq 0 (height (shape_of image)))); [done|].
  apply flat_map_ext_seq. intros i Hi. symmetry. apply masked_pixels_ones.
  + apply Hones. lia.
  + subst mask. by rewrite create_embedding_mask_length.
  + lia.
Qed.

End WithGradient.

End CrossChecks.

Module Instances.
Import Views Metrics.
Import DecodeFacts ExtractTotal EmbedEffect SobelFacts MetricsMore.
Import Distortion PixelScan MaskedScan CrossChecks.

Lemma uint8_repeat x n : (0 ≤ x < 256)%Z → Forall (fun y => (0 ≤ y < 256)%Z) (repeat x n).
Proof.
  intros Hx. apply Forall_forall. intros y Hy.
  apply list_elem_of_In, repeat_spec in Hy. by subst.
Defined.

Lemma wf_gray_cover : wf_ndarray Examples.gray_cover.
Proof. split; [reflexivity|]. by apply uint8_repeat. Defined.

Lemma wf_color_cover : wf_ndarray Examples.color_cover.
Proof. split; [reflexivity|]. by apply uint8_repeat. Defined.

Lemma wf_stripes_cover : wf_ndarray Examples.stripes_cover.
Proof. split; [reflexivity|]. vm_compute. repeat constructor; discriminate. Defined.

Lemma wf_color_stripes : wf_ndarray Examples.color_stripes.
Proof. split; [reflexivity|]. vm_compute. repeat constructor; discriminate. Defined.

Lemma payload_A : Forall (fun c => (0 < c ≤ 255)%N) [65%N].
Proof. repeat constructor; lia. Defined.

Lemma payload_AB : Forall (fun c => (0 < c ≤ 255)%N) [65%N; 66%N].
Proof. repeat constructor; lia. Defined.

Lemma extract_gray_until_nul_witness :
  let h : gmap nat ndarray := {[ 0 := Examples.px2 ]} in
  LSBSteganography.extract 0 h = (Ok (until_nul (decode (lsb_string [7; 9]%Z))), h)
  ∧ SobelAdaptiveSteganography.extract Examples.sobel_gradient 0 30 h
    = (Ok (until_nul (decode (lsb_string
             (masked_samples
                (SobelAdaptiveSteganography.create_embedding_mask
                   (Examples.sobel_gradient Examples.px2) 30) [7; 9]%Z)))), h).
Proof.
  intros h.
  apply (extract_gray_until_nul h 0 1 2 [7; 9]%Z Examples.sobel_gradient 30); reflexivity.
Defined.

Lemma extract_total_and_bounded_witness :
  let h : gmap nat ndarray := {[ 0 := Examples.color_cover ]} in
  (∃ secret_data, LSBSteganography.extract 0 h = (Ok secret_data, h)
     ∧ Forall (fun c => (c ≤ 255)%N) secret_data
     ∧ length secret_data ≤ numel (shape_of Examples.color_cover) / 8)
  ∧ (∃ secret_data,
       SobelAdaptiveSteganography.extract Examples.sobel_gradient 0 30 h
       = (Ok secret_data, h)
     ∧ Forall (fun c => (c ≤ 255)%N) secret_data
     ∧ length secret_data ≤ numel (shape_of Examples.color_cover) / 8).
Proof.
  intros h.
  apply (extract_total_and_bounded h 0 Examples.color_cover Examples.sobel_gradient 30).
  reflexivity.
Defined.

Lemma lsb_embed_effect_witness :
  let h : gmap nat ndarray := {[ 0 := Examples.gray_cover ]} in
  let run := LSBSteganography.embed 0 [65%N] h in
  ∃ stego, run.2 !! 1 = Some stego
    ∧ shape_of stego = shape_of Examples.gray_cover
    ∧ ∀ p x, samples Examples.gray_cover !! p = Some x →
        samples stego !! p
        = Some (if decide (p < length (encode [65%N]))
                then Z.lor (Z.land x 254) (int_of_digit (encode [65%N] !!! p))
                else x).
Proof.
  intros h run.
  apply (lsb_embed_effect h run.2 0 1 Examples.gray_cover [65%N]);
    [reflexivity|reflexivity|vm_compute; reflexivity].
Defined.

Lemma lsb_capacity_predicts_embed_witness :
  let h : gmap nat ndarray := {[ 0 := Examples.gray_cover ]} in
  ∃ capacity, LSBSteganography.get_embedding_capacity 0 h = (Ok capacity, h)
    ∧ ((∃ l' h', LSBSteganography.embed 0 [65%N] h = (Ok l', h'))
       ↔ length [65%N] + 1 ≤ capacity).
Proof.
  intros h.
  apply (lsb_capacity_predicts_embed h 0 Examples.gray_cover [65%N]);
    [reflexivity|reflexivity|repeat constructor; lia].
Defined.

Lemma sobel_capacity_monotone_bounded_witness :
  let h : gmap nat ndarray := {[ 0 := Examples.edge_cover ]} in
  ∃ c1 c2 n,
    SobelAdaptiveSteganography.get_embedding_capacity Examples.sobel_gradient 0 10 h
    = (Ok c1, h)
    ∧ SobelAdaptiveSteganography.get_embedding_capacity Examples.sobel_gradient 0 20 h
      = (Ok c2, h)
    ∧ LSBSteganography.get_embedding_capacity 0 h = (Ok n, h)
    ∧ ((10 ≤ 20)%Z → (c2 ≤ c1)%Z)
    ∧ (0 ≤ c1 ≤ Z.of_nat n)%Z.
Proof.
  intros h.
  apply (sobel_capacity_monotone_bounded Examples.sobel_gradient h 0 Examples.edge_cover
           10 20); reflexivity.
Defined.

Lemma edge_gradient_uint8 :
  Forall (fun g => (0 ≤ g ≤ 255)%Z) (Examples.sobel_gradient Examples.edge_cover).
Proof. vm_compute. repeat constructor; discriminate. Defined.

Lemma sobel_capacity_extremes_witness :
  let h : gmap nat ndarray := {[ 0 := Examples.edge_cover ]} in
  ((255 ≤ 255)%Z →
   SobelAdaptiveSteganography.get_embedding_capacity Examples.sobel_gradient 0 255 h
   = (Ok 0%Z, h))
  ∧ ((255 < 0)%Z →
     ∃ n, LSBSteganography.get_embedding_capacity 0 h = (Ok n, h)
          ∧ SobelAdaptiveSteganography.get_embedding_capacity Examples.sobel_gradient 0 255 h
            = (Ok (Z.of_nat n), h)).
Proof.
  intros h.
  apply (sobel_capacity_extremes Examples.sobel_gradient h 0 Examples.edge_cover 255);
    [reflexivity|reflexivity|apply edge_gradient_uint8].
Defined.

Lemma sobel_capacity_predicts_embed_witness :
  let h : gmap nat ndarray := {[ 0 := Examples.stripes_cover ]} in
  SobelAdaptiveSteganography.choose_mask (Examples.sobel_gradient Examples.stripes_cover)
    (shape_of Examples.stripes_cover) (Z.of_nat (length (encode [65%N]))) 100
  = Ok (100%Z, SobelAdaptiveSteganography.create_embedding_mask
                 (Examples.sobel_gradient Examples.stripes_cover) 100)
  ∧ ∃ l' h',
      SobelAdaptiveSteganography.embed Examples.sobel_gradient 0 [65%N] 100 h = (Ok l', h').
Proof.
  intros h.
  apply (sobel_capacity_predicts_embed Examples.sobel_gradient h 0 Examples.stripes_cover
           [65%N] 100 2);
    [reflexivity|repeat constructor; lia|vm_compute; reflexivity|simpl; lia].
Defined.

Lemma sobel_embed_spares_unmasked_witness :
  let h : gmap nat ndarray := {[ 0 := Examples.edge_cover ]} in
  let run :=
    SobelAdaptiveSteganography.embed (fun _ => Examples.edge_gradient) 0 [] 100 h in
  ∃ t' stego,
    SobelAdaptiveSteganography.choose_mask Examples.edge_gradient
      (shape_of Examples.edge_cover) (Z.of_nat (length (encode []))) 100
    = Ok (t', SobelAdaptiveSteganography.create_embedding_mask Examples.edge_gradient t')
    ∧ (t' ≤ 100)%Z ∧ run.2 !! 1 = Some stego
    ∧ ∀ p k, k < channels (shape_of Examples.edge_cover) →
        SobelAdaptiveSteganography.create_embedding_mask Examples.edge_gradient t' !!! p
        ≠ 1%Z →
        samples stego !!! (p * channels (shape_of Examples.edge_cover) + k)
        = samples Examples.edge_cover !!! (p * channels (shape_of Examples.edge_cover) + k).
Proof.
  intros h run.
  apply (sobel_embed_spares_unmasked (fun _ => Examples.edge_gradient) h run.2 0 1
           Examples.edge_cover [] 100); [reflexivity|vm_compute; reflexivity].
Defined.

Lemma calculate_ber_text_zero_witness :
  ∃ ber, calculate_ber_text (Some [97%N]) (Some [97%N; 98%N]) = Ok ber
    ∧ ((ber == 0)%Q ↔ [97%N] `prefix_of` [97%N; 98%N]).
Proof. apply (calculate_ber_text_zero [97%N] [97%N; 98%N]); done. Defined.

Lemma psnr_after_embed_witness :
  let h : gmap nat ndarray := {[ 0 := Examples.gray_cover ]} in
  let run := LSBSteganography.embed 0 [65%N] h in
  ∃ v, calculate_psnr 0 1 run.2 = (Ok v, run.2)
    ∧ match v with
      | PosInf => True
      | NaN => False
      | Decibels mse =>
          (0 < mse ∧ mse <= 1
           ∧ mse * inject_Z (Z.of_nat (numel (shape_of Examples.gray_cover)))
             <= inject_Z (Z.of_nat (length (encode [65%N]))))%Q
      end.
Proof.
  intros h run.
  apply (psnr_after_embed Examples.sobel_gradient h run.2 0 1 Examples.gray_cover
           [65%N] 30); [reflexivity|apply wf_gray_cover|simpl; lia|].
  left. vm_compute. reflexivity.
Defined.

Lemma lsb_roundtrip_any_shape_witness :
  let h : gmap nat ndarray := {[ 0 := Examples.color_cover ]} in
  let run := LSBSteganography.embed 0 [65%N; 66%N] h in
  ∃ extracted_data,
    LSBSteganography.extract 1 run.2 = (Ok extracted_data, run.2)
    ∧ [65%N; 66%N] `prefix_of` extracted_data
    ∧ (extracted_data = [65%N; 66%N]
       ↔ match shape_of Examples.color_cover with
         | Gray _ _ => True
         | Color _ _ => (length [65%N; 66%N] + 1) mod 3 = 0
         end).
Proof.
  intros h run.
  apply (lsb_roundtrip_any_shape h run.2 0 1 Examples.color_cover [65%N; 66%N]);
    [reflexivity|apply wf_color_cover|apply payload_AB|vm_compute; reflexivity].
Defined.

Lemma sobel_roundtrip_any_shape_witness :
  let h : gmap nat ndarray := {[ 0 := Examples.color_stripes ]} in
  let run :=
    SobelAdaptiveSteganography.embed Examples.sobel_gradient 0 [65%N; 66%N] 100 h in
  ∃ extracted_data,
    SobelAdaptiveSteganography.extract Examples.sobel_gradient 1 100 run.2
    = (Ok extracted_data, run.2)
    ∧ [65%N; 66%N] `prefix_of` extracted_data
    ∧ (extracted_data = [65%N; 66%N]
       ↔ match shape_of Examples.color_stripes with
         | Gray _ _ => True
         | Color _ _ => (length [65%N; 66%N] + 1) mod 3 = 0
         end).
Proof.
  intros h run.
  apply (sobel_roundtrip_any_shape Examples.sobel_gradient h run.2 0 1
           Examples.color_stripes (default Examples.color_stripes (run.2 !! 1))
           [65%N; 66%N] 100 100 100 (0 :: repeat 1 10 ++ [0])%Z);
    [reflexivity|apply wf_color_stripes|apply payload_AB|reflexivity
    |vm_compute; reflexivity..].
Defined.

Lemma ber_text_after_lsb_roundtrip_witness :
  let h : gmap nat ndarray := {[ 0 := Examples.color_cover ]} in
  let run := LSBSteganography.embed 0 [65%N] h in
  ∃ extracted_data ber,
    LSBSteganography.extract 1 run.2 = (Ok extracted_data, run.2)
    ∧ calculate_ber_text (Some [65%N]) (Some extracted_data) = Ok ber
    ∧ ([65%N] ≠ [] → (ber == 0)%Q)
    ∧ ([65%N] = [] → ber = 1%Q).
Proof.
  intros h run.
  apply (ber_text_after_lsb_roundtrip h run.2 0 1 Examples.color_cover [65%N]);
    [reflexivity|apply wf_color_cover|apply payload_A|vm_compute; reflexivity].
Defined.

Lemma decode_encode_witness :
  decode (encode [65%N]) = [65%N] ++ [0%N]
  ∧ (Forall (fun c => (0 < c)%N) [65%N] → until_nul (decode (encode [65%N])) = [65%N]).
Proof. apply (decode_encode [65%N]). repeat constructor; lia. Defined.

Lemma calculate_psnr_range_witness :
  let other := mk_ndarray (Gray 1 2) [7; 10]%Z in
  let h : gmap nat ndarray := {[ 0 := Examples.px2; 1 := other ]} in
  ∃ v, calculate_psnr 0 1 h = (Ok v, h)
    ∧ match v with
      | PosInf => samples Examples.px2 = samples other
      | NaN => False
      | Decibels mse => (0 < mse ∧ mse <= 65025)%Q ∧ samples Examples.px2 ≠ samples other
      end.
Proof.
  intros other h.
  apply (calculate_psnr_range h 0 1 Examples.px2 other);
    [reflexivity|reflexivity| | |reflexivity|simpl; lia].
  all: split; [reflexivity|repeat constructor; lia].
Defined.

Lemma sobel_negative_threshold_is_lsb_witness :
  let h : gmap nat ndarray := {[ 0 := Examples.gray_cover ]} in
  SobelAdaptiveSteganography.embed Examples.sobel_gradient 0 [65%N] (-1) h
  = LSBSteganography.embed 0 [65%N] h
  ∧ SobelAdaptiveSteganography.extract Examples.sobel_gradient 0 (-1) h
    = LSBSteganography.extract 0 h.
Proof.
  intros h.
  apply (sobel_negative_threshold_is_lsb Examples.sobel_gradient h 0 Examples.gray_cover
           [65%N] (-1)); [reflexivity|reflexivity|reflexivity| |lia].
  vm_compute. repeat constructor; discriminate.
Defined.

End Instances.
